(** * MediaManager4: tag codec, progress parser and in-place file replacement

    A shallow embedding of the ffmpeg driver and of the MP3 / M4A tag
    functions of [MediaManager4.py], with the properties the specification
    states about them.

    Conventions of the embedding.
    - A Python [str] is a Rocq [string] whose characters are code points
      below 256 (Latin-1); [chr 169] is the copyright sign of the MP4 atom
      names.
    - A Python [int] is a [Z]; a percentage or a clock reading, a float in
      the source, is an exact rational [Q].
    - [try ... except Exception] is written with an explicit result type
      ([Ok] / [Raise]) and a [catch] combinator.
    - What the operating system, the encoder process and the tag library
      decide is read from oracles carried by the state, so every function
      stays executable. *)

From Stdlib Require Import ZArith QArith Qminmax String Ascii List Lia DecimalString.
From Stdlib Require Import DecimalPos.
From stdpp Require Import gmap strings list fin_maps.
From stdpp Require Import sorting.

Local Open Scope string_scope.
Local Open Scope Z_scope.

(* ===================================================================== *)
(** ** Python strings *)
(* ===================================================================== *)

Module PyStr.

Definition chr (n : nat) : ascii := ascii_of_nat n.
Definition ord (c : ascii) : nat := nat_of_ascii c.

(** [str.isspace] on code points below 256. *)
Definition is_space (c : ascii) : bool :=
  let n := ord c in
  ((9 <=? n) && (n <=? 13) || (28 <=? n) && (n <=? 32)
   || (n =? 133) || (n =? 160))%nat.

Fixpoint lstrip (s : string) : string :=
  match s with
  | EmptyString => EmptyString
  | String c s' => if is_space c then lstrip s' else s
  end.

Fixpoint rstrip (s : string) : string :=
  match s with
  | EmptyString => EmptyString
  | String c s' =>
      match rstrip s' with
      | EmptyString => if is_space c then EmptyString else String c EmptyString
      | r => String c r
      end
  end.

(** [s.strip()] *)
Definition strip (s : string) : string := rstrip (lstrip s).

(** [s.split(sep, 1)] for a one-character separator: [None] when [sep]
    does not occur in [s], otherwise the text before and after its first
    occurrence. *)
Fixpoint split_once (sep : ascii) (s : string) : option (string * string) :=
  match s with
  | EmptyString => None
  | String c s' =>
      if Ascii.eqb c sep then Some (EmptyString, s')
      else match split_once sep s' with
           | Some (a, b) => Some (String c a, b)
           | None => None
           end
  end.

(** [sep in s] *)
Definition contains (sep : ascii) (s : string) : bool :=
  match split_once sep s with Some _ => true | None => false end.

Definition is_digit (c : ascii) : bool :=
  ((48 <=? ord c) && (ord c <=? 57))%nat.

Definition digit_val (c : ascii) : Z := Z.of_nat (ord c) - 48.

(** Decimal digits, a single underscore allowed between two digits. *)
Fixpoint py_digits (acc : Z) (after_digit : bool) (s : string) : option Z :=
  match s with
  | EmptyString => if after_digit then Some acc else None
  | String c s' =>
      if is_digit c then py_digits (10 * acc + digit_val c) true s'
      else if Ascii.eqb c "_" then
             if after_digit then py_digits acc false s' else None
      else None
  end.

(** [int(s)]: [None] stands for [ValueError].  Surrounding white space, an
    optional sign, then digits.  (The interpreter's configurable limit on
    the number of digits is not part of the model.) *)
Definition py_int (s : string) : option Z :=
  match strip s with
  | String "-" r => Z.opp <$> py_digits 0 false r
  | String "+" r => py_digits 0 false r
  | r => py_digits 0 false r
  end.

(** [str(n)] for an [int]. *)
Definition str_of_int (n : Z) : string := NilZero.string_of_int (Z.to_int n).

Definition lower_char (c : ascii) : ascii :=
  let n := ord c in
  if ((65 <=? n) && (n <=? 90)
      || (192 <=? n) && (n <=? 222) && negb (n =? 215))%nat
  then chr (n + 32) else c.

(** [s.lower()] *)
Fixpoint lower (s : string) : string :=
  match s with
  | EmptyString => EmptyString
  | String c s' => String (lower_char c) (lower s')
  end.

(** ["".join(l)] *)
Definition join (l : list string) : string := fold_right String.append "" l.

(** Truth value of a [str]. *)
Definition truthy (s : string) : bool :=
  match s with EmptyString => false | _ => true end.

End PyStr.
Import PyStr.

(* ===================================================================== *)
(** ** Results and exceptions *)
(* ===================================================================== *)

(** Outcome of a call that may raise; the exception is kept as its text. *)
Inductive Res (A : Type) : Type :=
| Ok (a : A)
| Raise (e : string).
Arguments Ok {A} a.
Arguments Raise {A} e.

(** A computation over a state [S] that may raise. *)
Definition M (S A : Type) : Type := S -> Res A * S.

Definition ret {S A} (a : A) : M S A := fun s => (Ok a, s).

Definition bind {S A B} (m : M S A) (k : A -> M S B) : M S B :=
  fun s => match m s with
           | (Ok a, s') => k a s'
           | (Raise e, s') => (Raise e, s')
           end.

Definition raise {S A} (e : string) : M S A := fun s => (Raise e, s).

(** [try: m  except Exception as e: h e] *)
Definition catch {S A} (m : M S A) (h : string -> M S A) : M S A :=
  fun s => match m s with
           | (Ok a, s') => (Ok a, s')
           | (Raise e, s') => h e s'
           end.

Declare Scope py_scope.
Delimit Scope py_scope with py.
Notation "x <- m ;; k" := (bind m (fun x => k))
  (at level 100, m at next level, right associativity) : py_scope.
Notation "m ;;; k" := (bind m (fun _ => k))
  (at level 100, right associativity) : py_scope.

(* ===================================================================== *)
(** ** Track numbers *)
(* ===================================================================== *)

(** [_parse_track].  Each [int(...)] may raise [ValueError]; the source
    catches it and answers [(0, 0)]. *)
Definition int_or_raise (s : string) : Res Z :=
  match py_int s with
  | Some n => Ok n
  | None => Raise "ValueError"
  end.

Definition _parse_track (track_str : string) : Res (Z * Z) :=
  let track_str := strip track_str in
  if negb (truthy track_str) then Ok (0, 0)
  else if contains "/" track_str then
    match split_once "/" track_str with
    | Some (a, b) =>
        match int_or_raise (strip a), int_or_raise (strip b) with
        | Ok n, Ok m => Ok (n, m)
        | _, _ => Ok (0, 0)          (* except Exception *)
        end
    | None => Ok (0, 0)
    end
  else
    match int_or_raise track_str with
    | Ok n => Ok (n, 0)
    | Raise _ => Ok (0, 0)           (* except Exception *)
    end.

(* ===================================================================== *)
(** ** The progress stream of the encoder *)
(* ===================================================================== *)

Module Progress.

(** The second argument of [progress_cb]: the text shown while the encoder
    runs, or the text shown when it is done ("Klar"). *)
Inductive Phase := Running | Finished.

(** One call [progress_cb(pct, text)]. *)
Record ProgressEvent := { percent : option Q; phase : Phase }.

Definition qmin (a b : Q) : Q := if Qle_bool b a then b else a.
Definition qmax (a b : Q) : Q := if Qle_bool a b then b else a.

(** [max(0.0, min(100.0, (out_ms / total_ms) * 100.0))], in lowest terms. *)
Definition pct_of (out_ms total_ms : Z) : Q :=
  Qred (qmax 0 (qmin 100 ((inject_Z out_ms / inject_Z total_ms) * 100))).

(** The local variables of the loop over [p.stdout], the number of
    [time.time()] readings taken so far, and the calls made to the
    callback, oldest first. *)
Record PState := {
  total_ms : option Z;
  last_update : Q;
  reads : nat;
  delivered : list ProgressEvent
}.

Section Loop.
(** [clock k] is what the [k]-th call of [time.time()] returns (seconds);
    [has_cb] says whether a [progress_cb] was passed. *)
Variable clock : nat -> Q.
Variable has_cb : bool.

Definition set_total (t : option Z) (st : PState) : PState :=
  {| total_ms := t; last_update := last_update st;
     reads := reads st; delivered := delivered st |}.

Definition tick (st : PState) : PState :=
  {| total_ms := total_ms st; last_update := last_update st;
     reads := S (reads st); delivered := delivered st |}.

Definition call_cb (e : ProgressEvent) (st : PState) : PState :=
  {| total_ms := total_ms st; last_update := last_update st;
     reads := reads st; delivered := delivered st ++ [e] |}.

(** [last_update = time.time()] *)
Definition stamp (st : PState) : PState :=
  {| total_ms := total_ms st; last_update := clock (reads st);
     reads := S (reads st); delivered := delivered st |}.

(** The body of [if k == "out_time_ms":]. *)
Definition on_out_time (v : string) (st : PState) : PState :=
  let pct :=
    match total_ms st with
    | Some t =>
        if (negb (t =? 0)) && (0 <? t) then
          match py_int v with
          | Some out_ms => Some (pct_of out_ms t)
          | None => None
          end
        else None
    | None => None
    end in
  if has_cb then
    (* progress_cb and (time.time() - last_update) > 0.12 *)
    let now := clock (reads st) in
    let st := tick st in
    if negb (Qle_bool (now - last_update st) (12 # 100)) then
      stamp (call_cb {| percent := pct; phase := Running |} st)
    else st
  else st.

(** One iteration of [for line in p.stdout]. *)
Definition step (st : PState) (line : string) : PState :=
  let line := strip line in
  if negb (truthy line) || negb (contains "=" line) then st
  else
    match split_once "=" line with
    | None => st
    | Some (k, v) =>
        let k := strip k in
        let v := strip v in
        let st := if String.eqb k "duration_ms"
                  then set_total (py_int v) st else st in
        let st := if String.eqb k "out_time_ms"
                  then on_out_time v st else st in
        if String.eqb k "progress" && String.eqb v "end" then
          if has_cb
          then call_cb {| percent := Some 100%Q; phase := Finished |} st
          else st
        else st
    end.

(** [total_ms = None; last_update = time.time()] and then the loop. *)
Definition init : PState :=
  {| total_ms := None; last_update := clock 0%nat;
     reads := 1%nat; delivered := [] |}.

Definition run_from (st : PState) (lines : list string) : PState :=
  fold_left step lines st.

Definition parse_progress (lines : list string) : PState :=
  run_from init lines.

End Loop.

End Progress.

(* ===================================================================== *)
(** ** The file system and the encoder process *)
(* ===================================================================== *)

Module Sys.
Import Progress.

(** A [pathlib.Path] as the functions below use it: the text up to and
    including the last separator, the stem and the suffix of the name. *)
Record Path := { dir_prefix : string; stem : string; suffix : string }.

(** [str(p)] *)
Definition path_str (p : Path) : string := dir_prefix p ++ stem p ++ suffix p.

(** [str(p.with_name(n))], for a path [p] that has a name: for a path
    without one (stem and suffix both empty) [Path.with_name] raises
    [ValueError]. *)
Definition with_name (p : Path) (n : string) : string := dir_prefix p ++ n.

(** What a started encoder process does: the lines of its two streams, its
    exit code, and what it leaves at its output path ([None]: it creates
    nothing there). *)
Record Proc := {
  p_stdout : list string;
  p_stderr : list string;
  p_rc : Z;
  p_written : option string
}.

(** A call that reaches outside the program. *)
Inductive Op :=
| OpSpawn (cmd : list string)
| OpUnlink (p : string)
| OpRename (a b : string).

(** A journal entry: the call, whether it succeeded, and the files on disk
    right after it. *)
Record Entry := { op : Op; ok : bool; after : gmap string string }.

(** The world a run happens in.  [files] maps a path to the content of the
    file there.  [os_error k] is the error with which the operating system
    refuses the [k]-th unlink or rename of the run, if it does.  [encoder]
    answers [subprocess.Popen]: [Raise] when the process cannot be started.
    [clock] gives the readings of [time.time()].  [journal] and [progress]
    record, oldest first, the outside calls made and the callbacks
    delivered. *)
Record World := {
  files : gmap string string;
  os_error : nat -> option string;
  os_calls : nat;
  encoder : list string -> gmap string string -> Res Proc;
  clock : nat -> Q;
  journal : list Entry;
  progress : list ProgressEvent
}.

Definition set_files (f : gmap string string) (w : World) : World :=
  {| files := f; os_error := os_error w; os_calls := os_calls w;
     encoder := encoder w; clock := clock w; journal := journal w;
     progress := progress w |}.

Definition count_call (w : World) : World :=
  {| files := files w; os_error := os_error w; os_calls := S (os_calls w);
     encoder := encoder w; clock := clock w; journal := journal w;
     progress := progress w |}.

Definition record_op (o : Op) (good : bool) (w : World) : World :=
  {| files := files w; os_error := os_error w; os_calls := os_calls w;
     encoder := encoder w; clock := clock w;
     journal := journal w ++ [{| op := o; ok := good; after := files w |}];
     progress := progress w |}.

Definition deliver (evs : list ProgressEvent) (w : World) : World :=
  {| files := files w; os_error := os_error w; os_calls := os_calls w;
     encoder := encoder w; clock := clock w; journal := journal w;
     progress := progress w ++ evs |}.

(** [p.exists()] *)
Definition exists_ (p : string) : M World bool :=
  fun w => (Ok (bool_decide (is_Some (files w !! p))), w).

(** An unlink or a rename: refused by the operating system, or carried out
    on the files by [act]. *)
Definition os_call (o : Op)
    (act : gmap string string -> Res (gmap string string)) : M World unit :=
  fun w =>
    let k := os_calls w in
    let w := count_call w in
    match os_error w k with
    | Some e => (Raise e, record_op o false w)
    | None =>
        match act (files w) with
        | Ok f' => (Ok tt, record_op o true (set_files f' w))
        | Raise e => (Raise e, record_op o false w)
        end
    end.

(** [p.unlink(missing_ok=...)] *)
Definition unlink (missing_ok : bool) (p : string) : M World unit :=
  os_call (OpUnlink p) (fun f =>
    match f !! p with
    | Some _ => Ok (delete p f)
    | None => if missing_ok then Ok f else Raise "FileNotFoundError"
    end).

(** [a.rename(b)]: the file at [a] moves to [b], replacing what is there. *)
Definition rename (a b : string) : M World unit :=
  os_call (OpRename a b) (fun f =>
    match f !! a with
    | Some c => Ok (<[b := c]> (delete a f))
    | None => Raise "FileNotFoundError"
    end).

(** [l[-30:]] *)
Definition last30 {A} (l : list A) : list A := skipn (length l - 30) l.

Local Open Scope py_scope.

(** [run_ffmpeg_with_progress].  The encoder writes to the last argument of
    its command line. *)
Definition run_ffmpeg_with_progress (cmd : list string) (has_cb : bool)
  : M World (bool * string) :=
  fun w =>
    match encoder w cmd (files w) with
    | Raise e =>
        (Ok (false, "Kunde inte starta ffmpeg: " ++ e),
         record_op (OpSpawn cmd) false w)
    | Ok p =>
        let f := match p_written p with
                 | Some c => <[List.last cmd "" := c]> (files w)
                 | None => files w
                 end in
        let w := record_op (OpSpawn cmd) true (set_files f w) in
        let st := parse_progress (clock w) has_cb (p_stdout p) in
        let w := deliver (delivered st) w in
        if p_rc p =? 0 then (Ok (true, "OK"), w)
        else
          let tail := strip (join (last30 (p_stderr p))) in
          (Ok (false, if truthy tail then tail
                      else "ffmpeg misslyckades (ingen stderr)."), w)
    end.

(** The letter a-umlaut of the Swedish messages. *)
Definition a_uml : string := String (chr 228) "".

Definition tmp_path (src : Path) : string :=
  with_name src (stem src ++ ".__tmp__" ++ suffix src).

Definition backup_path (src : Path) : string :=
  with_name src (stem src ++ ".__bak__" ++ suffix src).

(** The clean-up after a failed encoder run:
    [try: if tmp.exists(): tmp.unlink()  except Exception: pass]. *)
Definition discard_tmp (tmp : string) : M World unit :=
  catch (e <- exists_ tmp ;; if e then unlink false tmp else ret tt)
        (fun _ => ret tt).

(** The replacement after a successful encoder run: the [try] block with
    the two renames, and its [except] clause. *)
Definition replace_original (src : Path) : M World (bool * string) :=
  catch
    (let backup := backup_path src in
     e <- exists_ backup ;;
     (if e then unlink false backup else ret tt) ;;;
     rename (path_str src) backup ;;;
     rename (tmp_path src) (path_str src) ;;;
     unlink true backup ;;;
     ret (true, "OK"))
    (fun e => ret (false, "Kunde inte ers" ++ a_uml
                          ++ "tta originalfilen: " ++ e)).

(** The command line of the genre rewrite. *)
Definition genre_cmd (ffmpeg : string) (src : Path) (genre_str : string)
  : list string :=
  [ffmpeg; "-y"; "-i"; path_str src; "-map"; "0"; "-c"; "copy";
   "-metadata"; "genre=" ++ genre_str;
   "-progress"; "pipe:1"; "-nostats"; tmp_path src].

(** [ffmpeg_write_genre_inplace].  [ffmpeg_path] is [None] for Python's
    [None]; the empty string is as false as [None]. *)
Definition ffmpeg_write_genre_inplace (ffmpeg_path : option string)
    (src : Path) (genre_str : string) (has_cb : bool) : M World (bool * string) :=
  match ffmpeg_path with
  | None | Some EmptyString => ret (false, "ffmpeg saknas i appen (tools/ffmpeg).")
  | Some ffmpeg =>
      r <- run_ffmpeg_with_progress (genre_cmd ffmpeg src genre_str) has_cb ;;
      let '(good, msg) := r in
      if negb good then discard_tmp (tmp_path src) ;;; ret (false, msg)
      else replace_original src
  end.

(** [ffmpeg_export] *)
Definition ffmpeg_export (ffmpeg_path : option string) (src dst : Path)
    (kind : string) (has_cb : bool) : M World (bool * string) :=
  match ffmpeg_path with
  | None | Some EmptyString => ret (false, "ffmpeg saknas i appen (tools/ffmpeg).")
  | Some ffmpeg =>
      let ext := lower (suffix dst) in
      if String.eqb kind "video" then
        run_ffmpeg_with_progress
          [ffmpeg; "-y"; "-i"; path_str src;
           "-map"; "0:v:0"; "-map"; "0:a?";
           "-c:v"; "libx264"; "-preset"; "veryfast"; "-crf"; "20";
           "-c:a"; "aac"; "-b:a"; "192k";
           "-progress"; "pipe:1"; "-nostats"; path_str dst] has_cb
      else if String.eqb ext ".m4a" then
        run_ffmpeg_with_progress
          [ffmpeg; "-y"; "-i"; path_str src; "-vn"; "-c:a"; "aac"; "-b:a"; "192k";
           "-progress"; "pipe:1"; "-nostats"; path_str dst] has_cb
      else if String.eqb ext ".mp3" then
        run_ffmpeg_with_progress
          [ffmpeg; "-y"; "-i"; path_str src; "-vn"; "-c:a"; "libmp3lame"; "-q:a"; "2";
           "-progress"; "pipe:1"; "-nostats"; path_str dst] has_cb
      else if String.eqb ext ".ogg" then
        run_ffmpeg_with_progress
          [ffmpeg; "-y"; "-i"; path_str src; "-vn"; "-c:a"; "libvorbis"; "-q:a"; "6";
           "-progress"; "pipe:1"; "-nostats"; path_str dst] has_cb
      else ret (false, "Ok" ++ a_uml ++ "nt ljudformat: " ++ ext)
  end.

End Sys.

(* ===================================================================== *)
(** ** Tags of MP3 and M4A files *)
(* ===================================================================== *)

Module Tags.

(** *** The tag library's data *)

(** An ID3 frame.  [FText] is one of the text frames (TIT2, TPE1, ...),
    [FOther] any frame this program never builds. *)
Inductive Frame :=
| FText (id : string) (encoding : Z) (text : list string)
| FComm (encoding : Z) (lang desc : string) (text : list string)
| FApic (encoding : Z) (mime : string) (type : Z) (desc : string) (data : string)
| FOther (id : string) (body : string).

Definition frame_id (f : Frame) : string :=
  match f with
  | FText id _ _ => id
  | FComm _ _ _ _ => "COMM"
  | FApic _ _ _ _ _ => "APIC"
  | FOther id _ => id
  end.

(** [getattr(fr, "text", None)] *)
Definition frame_text (f : Frame) : option (list string) :=
  match f with
  | FText _ _ t => Some t
  | FComm _ _ _ t => Some t
  | _ => None
  end.

(** An ID3 tag is the collection of its frames, in order. *)
Definition getall (fid : string) (tags : list Frame) : list Frame :=
  List.filter (fun f => String.eqb (frame_id f) fid) tags.

Definition delall (fid : string) (tags : list Frame) : list Frame :=
  List.filter (fun f => negb (String.eqb (frame_id f) fid)) tags.

Definition setall (fid : string) (fs : list Frame) (tags : list Frame) : list Frame :=
  delall fid tags ++ fs.

Definition add (f : Frame) (tags : list Frame) : list Frame := tags ++ [f].

Inductive ImageFormat := FORMAT_JPEG | FORMAT_PNG.

Record MP4Cover := { cover_data : string; imageformat : ImageFormat }.

(** The metadata atoms of an MP4 file: the text atoms by name, the track
    pair list and the cover list ([None]: the key is not in the tags). *)
Record MP4Tags := {
  text_atoms : gmap string (list string);
  trkn : option (list (Z * Z));
  covr : option (list MP4Cover)
}.

Definition no_tags : MP4Tags := {| text_atoms := ∅; trkn := None; covr := None |}.

(** Truth value of [m.tags] when it is not [None]: a non-empty mapping. *)
Definition has_atoms (t : MP4Tags) : bool :=
  negb (bool_decide (text_atoms t = ∅)) || bool_decide (is_Some (trkn t))
  || bool_decide (is_Some (covr t)).

(** The tagged files on disk.  An MP3 file holds the frames of its ID3
    tag, or [None] when it has no ID3 header; an M4A file holds [None]
    when it has no tags.  A path that is not in the map cannot be opened.
    The other fields are the tag library's part, which this program does
    not decide: which error, if any, it raises when asked to save;
    [id3_written tags], the frames that its save writes to the file for the
    tag [tags] it is given (in the order it chooses, leaving out the frames
    it does not write); and [id3_loaded frames], the tag that it builds
    from the frames of a file (where it may translate what it reads). *)
Record Store := {
  mp3 : gmap string (option (list Frame));
  mp4 : gmap string (option MP4Tags);
  id3_save_error : list Frame -> option string;
  mp4_save_error : MP4Tags -> option string;
  id3_written : list Frame -> list Frame;
  id3_loaded : list Frame -> list Frame
}.

Definition set_mp3 (m : gmap string (option (list Frame))) (st : Store) : Store :=
  {| mp3 := m; mp4 := mp4 st;
     id3_save_error := id3_save_error st; mp4_save_error := mp4_save_error st;
     id3_written := id3_written st; id3_loaded := id3_loaded st |}.

Definition set_mp4 (m : gmap string (option MP4Tags)) (st : Store) : Store :=
  {| mp3 := mp3 st; mp4 := m;
     id3_save_error := id3_save_error st; mp4_save_error := mp4_save_error st;
     id3_written := id3_written st; id3_loaded := id3_loaded st |}.

(** [ID3(str(path))], the tag that the library builds from the file:
    [Ok None] stands for [ID3NoHeaderError]. *)
Definition load_id3 (path : string) : M Store (option (list Frame)) :=
  fun st => match mp3 st !! path with
            | Some (Some frames) => (Ok (Some (id3_loaded st frames)), st)
            | Some None => (Ok None, st)
            | None => (Raise "cannot open file", st)
            end.

(** [tags.save(str(path))]: the file then holds what the library writes
    for [tags]. *)
Definition save_id3 (path : string) (tags : list Frame) : M Store unit :=
  fun st => match id3_save_error st tags with
            | Some e => (Raise e, st)
            | None =>
                (Ok tt,
                 set_mp3 (<[path := Some (id3_written st tags)]> (mp3 st)) st)
            end.

(** [MP4(str(path))], giving [m.tags]. *)
Definition load_mp4 (path : string) : M Store (option MP4Tags) :=
  fun st => match mp4 st !! path with
            | Some t => (Ok t, st)
            | None => (Raise "cannot open file", st)
            end.

(** [m.save()] *)
Definition save_mp4 (path : string) (tags : MP4Tags) : M Store unit :=
  fun st => match mp4_save_error st tags with
            | Some e => (Raise e, st)
            | None => (Ok tt, set_mp4 (<[path := Some tags]> (mp4 st)) st)
            end.

(** *** Arguments and results of the tag functions *)

(** The [fields] dictionary: [fields.get(k, "") or ""]. *)
Definition field (fields : gmap string string) (k : string) : string :=
  default "" (fields !! k).

(** The [cover] dictionary, by its three keys. *)
Record CoverArg := {
  action : option string;
  bytes : option string;
  mime : option string
}.

Definition is_action (c : CoverArg) (a : string) : bool :=
  match action c with Some x => String.eqb x a | None => false end.

(** [cover.get("mime") or "image/jpeg"] *)
Definition mime_or_jpeg (c : CoverArg) : string :=
  match mime c with
  | Some m => if truthy m then m else "image/jpeg"
  | None => "image/jpeg"
  end.

(** [img_bytes] when it is true, that is present and not empty. *)
Definition true_bytes (c : CoverArg) : option string :=
  match bytes c with
  | Some b => if truthy b then Some b else None
  | None => None
  end.

(** The dictionary that the read functions return. *)
Record TagsOut := {
  title : string;
  artist : string;
  album : string;
  track : string;
  year : string;
  genre : string;
  comment : string;
  has_cover : bool;
  cover_bytes : option string;
  cover_mime : option string
}.

Section Codec.
(** Whether the tag library could be imported. *)
Variable MUTAGEN_OK : bool.
(** [text_spec id s]: the list of text values that the library's frame
    [id] holds when it is built with [text=s]. *)
Variable text_spec : string -> string -> list string.

Local Open Scope py_scope.

(** *** MP3 *)

(** [str(fr.text[0]) if getattr(fr, "text", None) else ""] for the first
    frame of [tags.getall(frame_id)]. *)
Definition get_text (tags : list Frame) (fid : string) : string :=
  match getall fid tags with
  | [] => ""
  | fr :: _ =>
      match frame_text fr with
      | Some (t :: _) => t
      | _ => ""
      end
  end.

(** The dictionary [out] that [tags_read_mp3] fills from the tag it has
    loaded. *)
Definition read_id3_tag (tags : list Frame) : TagsOut :=
  let comm :=
    match getall "COMM" tags with
    | [] => ""
    | c :: _ => match frame_text c with
                | Some (t :: _) => t
                | _ => ""
                end
    end in
  let '(hc, cb, cm) :=
    match getall "APIC" tags with
    | [] => (false, None, None)
    | FApic _ m _ _ d :: _ => (true, Some d, Some m)
    | _ :: _ => (true, None, None)
    end in
  {| title := get_text tags "TIT2";
     artist := get_text tags "TPE1";
     album := get_text tags "TALB";
     track := get_text tags "TRCK";
     year := get_text tags "TDRC";
     genre := get_text tags "TCON";
     comment := comm;
     has_cover := hc; cover_bytes := cb; cover_mime := cm |}.

(** [tags_read_mp3]; [None] is the empty dictionary. *)
Definition tags_read_mp3 (st : Store) (path : string) : option TagsOut :=
  if negb MUTAGEN_OK then None
  else
    match mp3 st !! path with
    | None | Some None => None
    | Some (Some frames) => Some (read_id3_tag (id3_loaded st frames))
    end.

(** [TIT2(encoding=3, text=s)] and its siblings. *)
Definition text_frame (fid : string) (s : string) : Frame :=
  FText fid 3 (text_spec fid s).

Definition put (fid : string) (frame_obj : Frame) (value : string)
    (tags : list Frame) : list Frame :=
  let value := strip value in
  if truthy value then setall fid [frame_obj] tags else delall fid tags.

Definition put_field (fields : gmap string string) (fid key : string)
    (tags : list Frame) : list Frame :=
  put fid (text_frame fid (strip (field fields key))) (field fields key) tags.

Definition write_comment (fields : gmap string string)
    (tags : list Frame) : list Frame :=
  let comm_val := strip (field fields "comment") in
  if truthy comm_val
  then setall "COMM" [FComm 3 "eng" "" (text_spec "COMM" comm_val)] tags
  else delall "COMM" tags.

Definition write_cover_mp3 (cover : option CoverArg)
    (tags : list Frame) : list Frame :=
  match cover with
  | None => tags
  | Some c =>
      if is_action c "remove" then delall "APIC" tags
      else if is_action c "set" then
        match true_bytes c with
        | Some img => add (FApic 3 (mime_or_jpeg c) 3 "Cover" img)
                          (delall "APIC" tags)
        | None => tags
        end
      else tags
  end.

(** The frames after all the edits of [tags_write_mp3], before saving. *)
Definition edit_mp3 (fields : gmap string string) (cover : option CoverArg)
    (tags : list Frame) : list Frame :=
  let tags := put_field fields "TIT2" "title" tags in
  let tags := put_field fields "TPE1" "artist" tags in
  let tags := put_field fields "TALB" "album" tags in
  let tags := put_field fields "TRCK" "track" tags in
  let tags := put_field fields "TDRC" "year" tags in
  let tags := put_field fields "TCON" "genre" tags in
  let tags := write_comment fields tags in
  write_cover_mp3 cover tags.

(** [tags_write_mp3] *)
Definition tags_write_mp3 (path : string) (fields : gmap string string)
    (cover : option CoverArg) : M Store (bool * string) :=
  if negb MUTAGEN_OK then ret (false, "Mutagen saknas (pip install mutagen).")
  else
    catch
      (loaded <- load_id3 path ;;
       let tags := match loaded with Some t => t | None => [] end in
       save_id3 path (edit_mp3 fields cover tags) ;;;
       ret (true, "OK"))
      (fun e => ret (false, "Kunde inte skriva MP3-taggar: " ++ e)).

(** *** M4A *)

Definition copyright : string := String (chr 169) "".
Definition k_nam : string := copyright ++ "nam".
Definition k_ART : string := copyright ++ "ART".
Definition k_alb : string := copyright ++ "alb".
Definition k_day : string := copyright ++ "day".
Definition k_gen : string := copyright ++ "gen".
Definition k_cmt : string := copyright ++ "cmt".

Definition set_text_atoms (a : gmap string (list string)) (t : MP4Tags) : MP4Tags :=
  {| text_atoms := a; trkn := trkn t; covr := covr t |}.

Definition set_trkn (v : option (list (Z * Z))) (t : MP4Tags) : MP4Tags :=
  {| text_atoms := text_atoms t; trkn := v; covr := covr t |}.

Definition set_covr (v : option (list MP4Cover)) (t : MP4Tags) : MP4Tags :=
  {| text_atoms := text_atoms t; trkn := trkn t; covr := v |}.

(** [get1] of [tags_read_m4a]; [tags] is [m.tags]. *)
Definition get1 (tags : option MP4Tags) (key : string) : string :=
  match tags with
  | None => ""
  | Some t =>
      if negb (has_atoms t) then ""
      else match text_atoms t !! key with
           | Some (v :: _) => v
           | _ => ""
           end
  end.

(** [f"{tn}/{tt}" if tt else str(tn)] *)
Definition show_track (p : Z * Z) : string :=
  let (tn, tot) := p in
  if negb (tot =? 0) then str_of_int tn ++ "/" ++ str_of_int tot
  else str_of_int tn.

(** [tags_read_m4a]; [None] is the empty dictionary. *)
Definition tags_read_m4a (st : Store) (path : string) : option TagsOut :=
  if negb MUTAGEN_OK then None
  else
    match mp4 st !! path with
    | None => None
    | Some tags =>
        let live := match tags with
                    | Some t => if has_atoms t then Some t else None
                    | None => None
                    end in
        let trk :=
          match live with
          | Some t => match trkn t with
                      | Some (p :: _) => show_track p
                      | _ => ""
                      end
          | None => ""
          end in
        let '(hc, cb, cm) :=
          match live with
          | Some t =>
              match covr t with
              | Some (cov :: _) =>
                  (true, Some (cover_data cov),
                   Some (match imageformat cov with
                         | FORMAT_PNG => "image/png"
                         | FORMAT_JPEG => "image/jpeg"
                         end))
              | _ => (false, None, None)
              end
          | None => (false, None, None)
          end in
        Some {| title := get1 tags k_nam;
                artist := get1 tags k_ART;
                album := get1 tags k_alb;
                track := trk;
                year := get1 tags k_day;
                genre := get1 tags k_gen;
                comment := get1 tags k_cmt;
                has_cover := hc; cover_bytes := cb; cover_mime := cm |}
    end.

(** [put] of [tags_write_m4a]. *)
Definition put_atom (key val : string) (t : MP4Tags) : MP4Tags :=
  let val := strip val in
  if truthy val then set_text_atoms (<[key := [val]]> (text_atoms t)) t
  else if bool_decide (is_Some (text_atoms t !! key))
       then set_text_atoms (delete key (text_atoms t)) t
       else t.

(** The [trkn] part of [tags_write_m4a]. *)
Definition write_track (fields : gmap string string) (t : MP4Tags) : Res MP4Tags :=
  let tr := strip (field fields "track") in
  if truthy tr then
    match _parse_track tr with
    | Ok (tn, tot) => if negb (tn =? 0) then Ok (set_trkn (Some [(tn, tot)]) t)
                     else Ok t
    | Raise e => Raise e
    end
  else if bool_decide (is_Some (trkn t)) then Ok (set_trkn None t)
       else Ok t.

Definition write_cover_m4a (cover : option CoverArg) (t : MP4Tags) : MP4Tags :=
  match cover with
  | None => t
  | Some c =>
      if is_action c "remove" then
        if bool_decide (is_Some (covr t)) then set_covr None t else t
      else if is_action c "set" then
        match true_bytes c with
        | Some img =>
            if String.eqb (mime_or_jpeg c) "image/png"
            then set_covr (Some [{| cover_data := img; imageformat := FORMAT_PNG |}]) t
            else set_covr (Some [{| cover_data := img; imageformat := FORMAT_JPEG |}]) t
        | None => t
        end
      else t
  end.

(** The atoms after all the edits of [tags_write_m4a], before saving. *)
Definition edit_m4a (fields : gmap string string) (cover : option CoverArg)
    (t : MP4Tags) : Res MP4Tags :=
  let t := put_atom k_nam (field fields "title") t in
  let t := put_atom k_ART (field fields "artist") t in
  let t := put_atom k_alb (field fields "album") t in
  let t := put_atom k_day (field fields "year") t in
  let t := put_atom k_gen (field fields "genre") t in
  let t := put_atom k_cmt (field fields "comment") t in
  match write_track fields t with
  | Ok t => Ok (write_cover_m4a cover t)
  | Raise e => Raise e
  end.

(** [tags_write_m4a] *)
Definition tags_write_m4a (path : string) (fields : gmap string string)
    (cover : option CoverArg) : M Store (bool * string) :=
  if negb MUTAGEN_OK then ret (false, "Mutagen saknas (pip install mutagen).")
  else
    catch
      (loaded <- load_mp4 path ;;
       let t := match loaded with Some t => t | None => no_tags end in
       match edit_m4a fields cover t with
       | Ok t' => save_mp4 path t' ;;; ret (true, "OK")
       | Raise e => raise e
       end)
      (fun e => ret (false, "Kunde inte skriva M4A-taggar: " ++ e)).

End Codec.

End Tags.


(* ===================================================================== *)
(** ** What is observed of a run *)
(* ===================================================================== *)

Module Observe.
Import Progress Sys Tags.

(** The percentages of the delivered callbacks, oldest first. *)
Definition percents (st : PState) : list (option Q) :=
  map percent (delivered st).

(** The four lines of the specification's progress example. *)
Definition example_lines : list string :=
  ["duration_ms=10000"; "out_time_ms=2500"; "out_time_ms=7500"; "progress=end"].

(** The frames of the MP3 file at [path] (none when it has no header). *)
Definition frames_of (st : Store) (path : string) : list Frame :=
  match mp3 st !! path with
  | Some (Some t) => t
  | _ => []
  end.

(** The tag that [tags_write_mp3] starts from: what the library loads from
    the file at [path], or the empty tag when the file has no header. *)
Definition loaded_tag (st : Store) (path : string) : list Frame :=
  match mp3 st !! path with
  | Some (Some t) => id3_loaded st t
  | _ => []
  end.

(** The tag that a call of [tags_write_mp3] hands to the library's save. *)
Definition saved_tag (text_spec : string -> string -> list string)
    (fields : gmap string string) (cover : option CoverArg)
    (st : Store) (path : string) : list Frame :=
  edit_mp3 text_spec fields cover (loaded_tag st path).

(** The [trkn] atom of the M4A file at [path], if it has one. *)
Definition trkn_of (st : Store) (path : string) : option (list (Z * Z)) :=
  match mp4 st !! path with
  | Some (Some t) => trkn t
  | _ => None
  end.

(** The frame identifiers that [tags_write_mp3] sets or deletes from the
    [fields] dictionary. *)
Definition text_ids : list string :=
  ["TIT2"; "TPE1"; "TALB"; "TRCK"; "TDRC"; "TCON"; "COMM"].

Definition is_rename (o : Op) : bool :=
  match o with OpRename _ _ => true | _ => false end.

(** The journal entries that a run from [w] to [w'] added. *)
Definition entries_since (w w' : World) : list Entry :=
  drop (length (journal w)) (journal w').

(** The exit code of the encoder started with [cmd] in [w] and the files
    it leaves behind; [None] when it cannot be started. *)
Definition after_encoder (w : World) (cmd : list string)
  : option (Z * gmap string string) :=
  match encoder w cmd (files w) with
  | Ok p => Some (p_rc p,
                  match p_written p with
                  | Some c => <[List.last cmd "" := c]> (files w)
                  | None => files w
                  end)
  | Raise _ => None
  end.

(** What may be found at the path of [src] in the files [f] during a run
    of the genre rewrite started in [w] with original content [c0]: the
    original; or nothing, the original then being at the backup path; or
    what the temporary path held when the encoder exited with code 0. *)
Definition target_state (w : World) (ffmpeg_path : option string)
    (src : Path) (genre_str c0 : string) (f : gmap string string) : Prop :=
  f !! path_str src = Some c0
  \/ (f !! path_str src = None /\ f !! backup_path src = Some c0)
  \/ (exists ff f1 cn,
        ffmpeg_path = Some ff
        /\ after_encoder w (genre_cmd ff src genre_str) = Some (0, f1)
        /\ f1 !! tmp_path src = Some cn
        /\ f !! path_str src = Some cn).

(** The frame identifiers that a call of [tags_write_mp3] with this
    [cover] argument may set or delete. *)
Definition written_ids (cover : option CoverArg) : list string :=
  (text_ids ++ match cover with Some _ => ["APIC"] | None => [] end)%list.

Definition is_written (cover : option CoverArg) (f : Frame) : bool :=
  existsb (String.eqb (frame_id f)) (written_ids cover).

(** The frames of a tag that such a call has no business with, in order. *)
Definition other_frames (cover : option CoverArg) (tags : list Frame)
  : list Frame :=
  List.filter (fun f => negb (is_written cover f)) tags.

Definition first_text (l : list string) : string :=
  match l with t :: _ => t | [] => "" end.

(** What a text field written as [value] into frame [fid] reads back as:
    the first text of the frame built from the stripped value, or the
    empty string when the stripped value is empty. *)
Definition mp3_read_back (text_spec : string -> string -> list string)
    (fid value : string) : string :=
  if truthy (strip value) then first_text (text_spec fid (strip value)) else "".

(** The library's save and load keep the first text of each frame that
    [tags_write_mp3] writes from [fields]: loading what it wrote for [tag]
    gives frames that read as those of [tag] do. *)
Definition keeps_text (st : Store) (tag : list Frame) : Prop :=
  forall fid, In fid text_ids ->
    get_text (id3_loaded st (id3_written st tag)) fid = get_text tag fid.

(** The library's save and load keep the cover frames of [tag]. *)
Definition keeps_cover (st : Store) (tag : list Frame) : Prop :=
  getall "APIC" (id3_loaded st (id3_written st tag)) = getall "APIC" tag.

(** A delivered percentage is absent or lies between 0 and 100. *)
Definition in_range (e : ProgressEvent) : Prop :=
  match percent e with
  | Some p => (0 <= p /\ p <= 100)%Q
  | None => True
  end.

End Observe.
Import Progress Sys Tags Observe.

(* ===================================================================== *)
(** ** Concrete inputs used by the examples below *)
(* ===================================================================== *)

Module Demo.

(** A clock that stands still, and one that advances a second per reading. *)
Definition still_clock : nat -> Q := fun _ => 0%Q.
Definition slow_clock : nat -> Q := fun k => inject_Z (Z.of_nat k).

(** Frames that keep the text they are given as their only value. *)
Definition verbatim : string -> string -> list string := fun _ s => [s].

Definition old_atoms : MP4Tags :=
  {| text_atoms := {[ k_nam := ["Old title"] ]};
     trkn := Some [(5, 10)]; covr := None |}.

Definition old_frames : list Frame :=
  [FText "TIT2" 3 ["Old title"]; FOther "TXXX" "replaygain";
   FApic 3 "image/png" 3 "Cover" "PNGDATA"; FText "TPE2" 3 ["Band"]].

(** A shelf with one MP3 and one M4A file, and a tag library that saves
    without error, writes the frames it is given as they are and loads them
    as they are in the file. *)
Definition shelf : Store :=
  {| mp3 := {[ "a.mp3" := Some old_frames ]};
     mp4 := {[ "a.m4a" := Some old_atoms ]};
     id3_save_error := fun _ => None;
     mp4_save_error := fun _ => None;
     id3_written := fun tags => tags;
     id3_loaded := fun frames => frames |}.

(** A load that brings the year frame of the older tag version, TYER, up
    to date: it becomes a TDRC frame. *)
Definition upgrade (frames : list Frame) : list Frame :=
  List.map (fun f => match f with
                     | FText id enc t =>
                         if String.eqb id "TYER" then FText "TDRC" enc t else f
                     | _ => f
                     end) frames.

(** An MP3 file with a tag of the older version, and a library that
    upgrades it at load. *)
Definition attic : Store :=
  {| mp3 := {[ "old.mp3" := Some [FText "TIT2" 0 ["Old title"];
                                  FText "TYER" 0 ["1999"]] ]};
     mp4 := ∅;
     id3_save_error := fun _ => None;
     mp4_save_error := fun _ => None;
     id3_written := fun tags => tags;
     id3_loaded := upgrade |}.

(** A load that gives the genre number 17 its name. *)
Definition name_genres (frames : list Frame) : list Frame :=
  List.map (fun f => match f with
                     | FText id enc ["17"] =>
                         if String.eqb id "TCON" then FText id enc ["Rock"]
                         else f
                     | _ => f
                     end) frames.

(** The shelf, with a library that names genre numbers at load. *)
Definition jukebox : Store :=
  {| mp3 := mp3 shelf; mp4 := mp4 shelf;
     id3_save_error := id3_save_error shelf;
     mp4_save_error := mp4_save_error shelf;
     id3_written := fun tags => tags;
     id3_loaded := name_genres |}.

Definition song : Path := {| dir_prefix := "/m/"; stem := "a"; suffix := ".mp4" |}.

(** An encoder that writes "NEW" and exits with code 0. *)
Definition enc_ok : list string -> gmap string string -> Res Proc :=
  fun _ _ => Ok {| p_stdout := []; p_stderr := []; p_rc := 0;
                   p_written := Some "NEW" |}.

(** A disk holding the song, and a stray backup when [stray] is set; the
    operating system refuses the calls that [err] names. *)
Definition disk (stray : bool) (err : nat -> option string) : World :=
  {| files := if stray
              then {[ "/m/a.mp4" := "OLD"; "/m/a.__bak__.mp4" := "STRAY" ]}
              else {[ "/m/a.mp4" := "OLD" ]};
     os_error := err; os_calls := 0%nat; encoder := enc_ok;
     clock := still_clock; journal := []; progress := [] |}.

Definition no_error : nat -> option string := fun _ => None.

(** The [k]-th unlink or rename is refused. *)
Definition refuse_call (k : nat) : nat -> option string :=
  fun i => if Nat.eqb i k then Some "EPERM" else None.

(** An encoder that leaves a partial file and exits with code 1. *)
Definition enc_crash : list string -> gmap string string -> Res Proc :=
  fun _ _ => Ok {| p_stdout := []; p_stderr := ["boom"]; p_rc := 1;
                   p_written := Some "PARTIAL" |}.

Definition crash_disk : World :=
  {| files := {[ "/m/a.mp4" := "OLD" ]};
     os_error := no_error; os_calls := 0%nat; encoder := enc_crash;
     clock := still_clock; journal := []; progress := [] |}.

(** The genre rewrite of the song on a given disk. *)
Definition rewrite_on (w : World) : Res (bool * string) * World :=
  ffmpeg_write_genre_inplace (Some "ffmpeg") song "Rock" true w.

Definition plain_disk : World := disk false no_error.
(** The rename of the original to the backup name is refused. *)
Definition step1_refused : World := disk false (refuse_call 0).
(** The rename of the temporary file onto the original path is refused. *)
Definition step2_refused : World := disk false (refuse_call 1).

End Demo.
Import Demo.


(* ===================================================================== *)
(** ** Removing all tags, and picking a cover *)
(* ===================================================================== *)

Module TagsMore.
Import Tags.

Section Remove.
(** Whether the tag library could be imported. *)
Variable MUTAGEN_OK : bool.
(** [id3_delete_error path]: the error, if any, that the library raises
    when asked to delete the tag of the file at [path]. *)
Variable id3_delete_error : string -> option string.

Local Open Scope py_scope.

(** [tags.delete(str(path))]: the file is left without an ID3 header. *)
Definition delete_id3 (path : string) : M Store unit :=
  fun st => match id3_delete_error path with
            | Some e => (Raise e, st)
            | None => (Ok tt, set_mp3 (<[path := None]> (mp3 st)) st)
            end.

(** [tags_remove_all_mp3] *)
Definition tags_remove_all_mp3 (path : string) : M Store (bool * string) :=
  if negb MUTAGEN_OK then ret (false, "Mutagen saknas (pip install mutagen).")
  else
    catch
      (loaded <- load_id3 path ;;
       match loaded with
       | Some _ => delete_id3 path ;;; ret (true, "OK")
       | None =>                       (* except ID3NoHeaderError *)
           ret (true, "Ingen ID3 fanns (redan tomt).")
       end)
      (fun e => ret (false, "Kunde inte radera ID3: " ++ e)).

(** [tags_remove_all_m4a] *)
Definition tags_remove_all_m4a (path : string) : M Store (bool * string) :=
  if negb MUTAGEN_OK then ret (false, "Mutagen saknas (pip install mutagen).")
  else
    catch
      (loaded <- load_mp4 path ;;
       match loaded with
       | Some t =>
           if has_atoms t
           then save_mp4 path no_tags ;;; ret (true, "OK")   (* clear, save *)
           else ret (true, "OK")
       | None => ret (true, "OK")
       end)
      (fun e => ret (false, "Kunde inte radera M4A-taggar: " ++ e)).

End Remove.

(** [guess_mime_from_ext] *)
Definition guess_mime_from_ext (p : Sys.Path) : string :=
  let ext := lower (Sys.suffix p) in
  if String.eqb ext ".png" then "image/png" else "image/jpeg".

(** The pending cover action that [on_cover_pick] sets for the picked
    file [p] with content [b]; [None] when it refuses the file and leaves
    the pending action as it was. *)
Definition on_cover_pick (p : Sys.Path) (b : string) : option CoverArg :=
  let ext := lower (Sys.suffix p) in
  if negb (String.eqb ext ".jpg" || String.eqb ext ".jpeg" || String.eqb ext ".png")
  then None
  else Some {| action := Some "set"; bytes := Some b;
               mime := Some (guess_mime_from_ext p) |}.

(** The text atoms and the cover atom of the M4A file at [path]. *)
Definition text_of (st : Store) (path : string) : gmap string (list string) :=
  match mp4 st !! path with
  | Some (Some t) => text_atoms t
  | _ => ∅
  end.

Definition covr_of (st : Store) (path : string) : option (list MP4Cover) :=
  match mp4 st !! path with
  | Some (Some t) => covr t
  | _ => None
  end.

(** The atom names that [tags_write_m4a] sets or deletes from [fields]. *)
Definition text_keys : list string := [k_nam; k_ART; k_alb; k_day; k_gen; k_cmt].

(** The frame and the dictionary key of each text field of an MP3 tag. *)
Definition mp3_fields : list (string * string) :=
  [("TIT2", "title"); ("TPE1", "artist"); ("TALB", "album");
   ("TRCK", "track"); ("TDRC", "year"); ("TCON", "genre")].

End TagsMore.
Import TagsMore.

(* ===================================================================== *)
(** ** File names and genre strings *)
(* ===================================================================== *)

Module Names.

(** Whether every character of [s] satisfies [f]. *)
Fixpoint all_chars (f : ascii -> bool) (s : string) : bool :=
  match s with
  | EmptyString => true
  | String c s' => f c && all_chars f s'
  end.

(** Whether [s] begins with a white space character. *)
Definition starts_space (s : string) : bool :=
  match s with
  | EmptyString => false
  | String c _ => is_space c
  end.

(** The characters of the class that [safe_filename] replaces: slash,
    colon, star, question mark, double quote (code 34), angle brackets and
    bar.  The backslashes of the pattern only escape the next character. *)
Definition forbidden (c : ascii) : bool :=
  existsb (Ascii.eqb c) ["/"; ":"; "*"; "?"; chr 34; "<"; ">"; "|"]%char.

(** [re.sub] of that class by one blank. *)
Fixpoint blank_forbidden (s : string) : string :=
  match s with
  | EmptyString => EmptyString
  | String c s' =>
      String (if forbidden c then " "%char else c) (blank_forbidden s')
  end.

(** [re.sub] of every maximal run of white space by one blank; [in_run]
    tells that the character before [s] was white space, so that the run
    which [s] may continue is replaced already. *)
Fixpoint squeeze (in_run : bool) (s : string) : string :=
  match s with
  | EmptyString => EmptyString
  | String c s' =>
      if is_space c
      then if in_run then squeeze true s' else String " " (squeeze true s')
      else String c (squeeze false s')
  end.

(** Whether every white space character of [s] is a blank that no white
    space follows. *)
Fixpoint single_spaced (s : string) : bool :=
  match s with
  | EmptyString => true
  | String c s' =>
      (if is_space c then Ascii.eqb c " " && negb (starts_space s') else true)
      && single_spaced s'
  end.

(** [safe_filename] *)
Definition safe_filename (name : string) : string :=
  let name := strip name in
  let name := blank_forbidden name in
  strip (squeeze false name).

(** The separators of the class [[;,/]]. *)
Definition is_sep (c : ascii) : bool :=
  Ascii.eqb c ";" || Ascii.eqb c "," || Ascii.eqb c "/".

(** [re.split] at [[;,/]+]: the parts of [s] between the maximal runs of
    separators; [in_run] tells that the character before [s] was a
    separator.  The first element of the result is the part [s] begins
    with. *)
Fixpoint re_split (in_run : bool) (s : string) : list string :=
  match s with
  | EmptyString => [EmptyString]
  | String c s' =>
      if is_sep c
      then if in_run then re_split true s' else EmptyString :: re_split true s'
      else match re_split false s' with
           | p :: ps => String c p :: ps
           | [] => [String c EmptyString]
           end
  end.

(** [_parse_genre_string] *)
Definition _parse_genre_string (s : option string) : list string :=
  match s with
  | None => []
  | Some s =>
      if negb (truthy s) then []
      else
        let parts := re_split false s in
        List.map strip (List.filter (fun p => truthy (strip p)) parts)
  end.

(** [sep.join(l)] *)
Fixpoint join_with (sep : string) (l : list string) : string :=
  match l with
  | [] => EmptyString
  | [x] => x
  | x :: l' => x ++ sep ++ join_with sep l'
  end.

(** Order of [str]: by code points, a proper prefix first. *)
Definition str_le (a b : string) : Prop := Stdlib.Strings.String.leb a b = true.

#[global] Instance str_le_dec (a b : string) : Decision (str_le a b) :=
  decide (Stdlib.Strings.String.leb a b = true).

(** [sorted(genres)] for a set of [str]. *)
Definition sorted (genres : gset string) : list string :=
  merge_sort str_le (elements genres).

(** [_genre_string] *)
Definition _genre_string (genres : gset string) : string :=
  join_with "; " (sorted genres).

(** A genre name as the application keeps it: not empty, without
    surrounding white space and without a separator. *)
Definition clean_genre (g : string) : Prop :=
  g <> "" /\ strip g = g /\ all_chars (fun c => negb (is_sep c)) g = true.

(** The number a decimal numeral stands for, read from the left, after
    digits worth [acc]. *)
Fixpoint uint_val (acc : Z) (d : Decimal.uint) : Z :=
  match d with
  | Decimal.Nil => acc
  | Decimal.D0 d => uint_val (10 * acc + 0) d
  | Decimal.D1 d => uint_val (10 * acc + 1) d
  | Decimal.D2 d => uint_val (10 * acc + 2) d
  | Decimal.D3 d => uint_val (10 * acc + 3) d
  | Decimal.D4 d => uint_val (10 * acc + 4) d
  | Decimal.D5 d => uint_val (10 * acc + 5) d
  | Decimal.D6 d => uint_val (10 * acc + 6) d
  | Decimal.D7 d => uint_val (10 * acc + 7) d
  | Decimal.D8 d => uint_val (10 * acc + 8) d
  | Decimal.D9 d => uint_val (10 * acc + 9) d
  end.

(** Neither white space nor a slash. *)
Definition plain (c : ascii) : bool := negb (is_space c) && negb (Ascii.eqb c "/").

End Names.
Import Names.

(* ===================================================================== *)
(** ** Lines that end the progress stream *)
(* ===================================================================== *)

Module ProgressMore.

(** Whether the line reads [progress=end], white space apart. *)
Definition is_end_line (line : string) : bool :=
  match split_once "=" (strip line) with
  | Some (k, v) => String.eqb (strip k) "progress" && String.eqb (strip v) "end"
  | None => false
  end.

(** The call [progress_cb(100.0, "Klar")]. *)
Definition klar : ProgressEvent := {| percent := Some 100%Q; phase := Finished |}.

End ProgressMore.
Import ProgressMore.

(* ===================================================================== *)
(** ** The workers that write and delete tags for a selection *)
(* ===================================================================== *)

Module Batch.
Import Tags TagsMore.

(** A [FileItem], as far as the tag workers read it. *)
Record FileItem := { path : Sys.Path; kind : string }.

(** [path.name] *)
Definition name (p : Sys.Path) : string := Sys.stem p ++ Sys.suffix p.

(** What a worker puts on [work_q]. *)
Inductive Msg :=
| Log (text : string)
| OverallProgress (done total : nat)
| Done.

(** The tagged files and the queue. *)
Definition Work : Type := Store * list Msg.

(** A call of a tag function, which does not see the queue. *)
Definition on_store {A} (m : M Store A) : M Work A :=
  fun w => let (r, st') := m w.1 in (r, (st', w.2)).

(** [self.work_q.put(msg)] *)
Definition put_msg (msg : Msg) : M Work unit :=
  fun w => (Ok tt, (w.1, (w.2 ++ [msg])%list)).

Definition is_progress (m : Msg) : bool :=
  match m with OverallProgress _ _ => true | _ => false end.

Section Workers.
Variable MUTAGEN_OK : bool.
Variable text_spec : string -> string -> list string.
Variable id3_delete_error : string -> option string.
(** [self.item_by_iid] *)
Variable item_by_iid : gmap string FileItem.

Local Open Scope py_scope.

(** Whether the loop handles the item: an audio file whose lower-cased
    suffix is .mp3 or .m4a. *)
Definition handled (it : FileItem) : bool :=
  String.eqb (kind it) "audio"
  && (String.eqb (lower (Sys.suffix (path it))) ".mp3"
      || String.eqb (lower (Sys.suffix (path it))) ".m4a").

(** [for iid in sel: ...], the loop that both workers run: [op_mp3] and
    [op_m4a] are the calls they make for an .mp3 and for an .m4a file,
    [ok_text] and [err_text] the beginnings of their log lines.  The result
    is the final [done]. *)
Fixpoint tag_loop (op_mp3 op_m4a : string -> M Store (bool * string))
    (ok_text err_text : string) (total : nat) (sel : list string)
    (done : nat) : M Work nat :=
  match sel with
  | [] => ret done
  | iid :: rest =>
      match item_by_iid !! iid with
      | None => tag_loop op_mp3 op_m4a ok_text err_text total rest done
      | Some it =>
          if negb (String.eqb (kind it) "audio")
          then tag_loop op_mp3 op_m4a ok_text err_text total rest done
          else
            let ext := lower (Sys.suffix (path it)) in
            if negb (String.eqb ext ".mp3" || String.eqb ext ".m4a")
            then tag_loop op_mp3 op_m4a ok_text err_text total rest done
            else
              r <- on_store (if String.eqb ext ".mp3"
                             then op_mp3 (Sys.path_str (path it))
                             else op_m4a (Sys.path_str (path it))) ;;
              (if r.1
               then put_msg (Log (ok_text ++ name (path it)))
               else put_msg (Log (err_text ++ name (path it) ++ ": " ++ r.2))) ;;;
              put_msg (OverallProgress (S done) total) ;;;
              tag_loop op_mp3 op_m4a ok_text err_text total rest (S done)
      end
  end.

(** [worker] of [on_tags_write_selected], for the form's [fields] and the
    pending cover action. *)
Definition write_worker (fields : gmap string string)
    (cover_action : option CoverArg) (sel : list string) : M Work unit :=
  tag_loop (fun p => tags_write_mp3 MUTAGEN_OK text_spec p fields cover_action)
           (fun p => tags_write_m4a MUTAGEN_OK p fields cover_action)
           "[OK] Taggar skrev: " "[FEL] Taggar: "
           (length sel) sel 0%nat ;;;
  put_msg Done.

(** [worker] of [on_tags_delete_selected]. *)
Definition delete_worker (sel : list string) : M Work unit :=
  tag_loop (tags_remove_all_mp3 MUTAGEN_OK id3_delete_error)
           (tags_remove_all_m4a MUTAGEN_OK)
           "[OK] Taggar raderade: " "[FEL] Radera taggar: "
           (length sel) sel 0%nat ;;;
  put_msg Done.

(** The paths of the selected items that the loop handles, in the order
    of the selection. *)
Definition targets (sel : list string) : list string :=
  flat_map (fun iid => match item_by_iid !! iid with
                       | Some it => if handled it
                                    then [Sys.path_str (path it)] else []
                       | None => []
                       end) sel.

End Workers.

(** The call the loop makes for a handled item. *)
Definition op_for (op_mp3 op_m4a : string -> M Store (bool * string))
    (it : FileItem) : M Store (bool * string) :=
  if String.eqb (lower (Sys.suffix (path it))) ".mp3"
  then op_mp3 (Sys.path_str (path it))
  else op_m4a (Sys.path_str (path it)).

(** The log line for an item and the answer of the tag function. *)
Definition log_line (ok_text err_text : string) (it : FileItem)
    (r : bool * string) : Msg :=
  if r.1 then Log (ok_text ++ name (path it))
  else Log (err_text ++ name (path it) ++ ": " ++ r.2).

(** The progress messages [(first, total)], [(first + 1, total)], ...:
    [n] of them. *)
Definition progress_from (first n total : nat) : list Msg :=
  List.map (fun k => OverallProgress k total) (seq first n).

(** The stores [a] and [b] hold the same tags for the file at [p]. *)
Definition same_file (p : string) (a b : Store) : Prop :=
  mp3 a !! p = mp3 b !! p /\ mp4 a !! p = mp4 b !! p.

(** The tag library behaves in [a] as it does in [b]. *)
Definition same_library (a b : Store) : Prop :=
  id3_save_error a = id3_save_error b /\ mp4_save_error a = mp4_save_error b
  /\ id3_written a = id3_written b /\ id3_loaded a = id3_loaded b.

(** A tag function that answers with a result, changes the tags of no
    file but the one it is called for, and whose answer and effect on that
    file depend on no other file. *)
Definition local_op (op : string -> M Store (bool * string)) : Prop :=
  forall p st,
    (exists good msg, (op p st).1 = Ok (good, msg))
    /\ (forall q, q <> p -> same_file q (op p st).2 st)
    /\ same_library (op p st).2 st
    /\ (forall st1, same_file p st1 st -> same_library st1 st ->
          (op p st1).1 = (op p st).1
          /\ same_file p (op p st1).2 (op p st).2).

End Batch.

(* ===================================================================== *)
(** ** Track parsing: properties *)
(* ===================================================================== *)

Lemma parse_track_never_raises (s : string) : exists p, _parse_track s = Ok p.
Proof.
  unfold _parse_track, int_or_raise.
  repeat case_match; eauto.
Qed.

Lemma parse_track_plain (s : string) (n : Z) :
  contains "/" (strip s) = false ->
  py_int (strip s) = Some n ->
  _parse_track s = Ok (n, 0).
Proof.
  intros Hc Hn. unfold _parse_track, int_or_raise.
  rewrite Hc, Hn.
  destruct (strip s) eqn:E; [ discriminate Hn | reflexivity ].
Qed.

Lemma split_once_contains (sep : ascii) (s a b : string) :
  split_once sep s = Some (a, b) -> contains sep s = true /\ truthy s = true.
Proof.
  intros H. unfold contains. rewrite H. split; [ reflexivity | ].
  destruct s; [ discriminate H | reflexivity ].
Qed.

Lemma parse_track_pair (s a b : string) (n m : Z) :
  split_once "/" (strip s) = Some (a, b) ->
  py_int (strip a) = Some n ->
  py_int (strip b) = Some m ->
  _parse_track s = Ok (n, m).
Proof.
  intros Hs Ha Hb. destruct (split_once_contains _ _ _ _ Hs) as [Hc Ht].
  unfold _parse_track, int_or_raise.
  rewrite Ht, Hc, Hs, Ha, Hb. reflexivity.
Qed.

Lemma parse_track_malformed_plain (s : string) :
  contains "/" (strip s) = false ->
  py_int (strip s) = None ->
  _parse_track s = Ok (0, 0).
Proof.
  intros Hc Hn. unfold _parse_track, int_or_raise.
  rewrite Hc, Hn. destruct (negb (truthy (strip s))); reflexivity.
Qed.

Lemma parse_track_malformed_pair (s a b : string) :
  split_once "/" (strip s) = Some (a, b) ->
  py_int (strip a) = None \/ py_int (strip b) = None ->
  _parse_track s = Ok (0, 0).
Proof.
  intros Hs Hab. destruct (split_once_contains _ _ _ _ Hs) as [Hc Ht].
  unfold _parse_track, int_or_raise. rewrite Ht, Hc, Hs. simpl.
  destruct Hab as [H | H]; rewrite H; [ reflexivity | ].
  destruct (py_int (strip a)); reflexivity.
Qed.

(** *** The [trkn] atom across a write *)

Lemma put_atom_trkn (key val : string) (t : MP4Tags) :
  trkn (put_atom key val t) = trkn t.
Proof. unfold put_atom. repeat case_match; reflexivity. Qed.

Lemma put_atom_covr (key val : string) (t : MP4Tags) :
  covr (put_atom key val t) = covr t.
Proof. unfold put_atom. repeat case_match; reflexivity. Qed.

Lemma write_cover_m4a_trkn (cover : option CoverArg) (t : MP4Tags) :
  trkn (write_cover_m4a cover t) = trkn t.
Proof. unfold write_cover_m4a. repeat case_match; reflexivity. Qed.

Lemma write_cover_m4a_text (cover : option CoverArg) (t : MP4Tags) :
  text_atoms (write_cover_m4a cover t) = text_atoms t.
Proof. unfold write_cover_m4a. repeat case_match; reflexivity. Qed.

Lemma write_track_zero (fields : gmap string string) (t : MP4Tags) (tot : Z) :
  truthy (strip (field fields "track")) = true ->
  _parse_track (strip (field fields "track")) = Ok (0, tot) ->
  write_track fields t = Ok t.
Proof.
  intros Ht Hp. unfold write_track. rewrite Ht, Hp. reflexivity.
Qed.

Lemma edit_m4a_zero_track (fields : gmap string string)
    (cover : option CoverArg) (t : MP4Tags) (tot : Z) :
  truthy (strip (field fields "track")) = true ->
  _parse_track (strip (field fields "track")) = Ok (0, tot) ->
  exists t', edit_m4a fields cover t = Ok t' /\ trkn t' = trkn t.
Proof.
  intros Ht Hp. unfold edit_m4a.
  rewrite (write_track_zero _ _ _ Ht Hp).
  eexists; split; [ reflexivity | ].
  rewrite write_cover_m4a_trkn. by rewrite !put_atom_trkn.
Qed.

Lemma tags_write_m4a_never_raises (ok : bool) (path : string)
    (fields : gmap string string) (cover : option CoverArg) (st : Store) :
  exists good msg, (tags_write_m4a ok path fields cover st).1 = Ok (good, msg).
Proof.
  unfold tags_write_m4a, catch, bind, ret, raise, load_mp4, save_mp4.
  repeat case_match; simplify_eq/=; eauto.
Qed.

Lemma tags_write_m4a_zero_track (ok : bool) (path : string)
    (fields : gmap string string) (cover : option CoverArg) (st : Store) (tot : Z) :
  truthy (strip (field fields "track")) = true ->
  _parse_track (strip (field fields "track")) = Ok (0, tot) ->
  trkn_of (tags_write_m4a ok path fields cover st).2 path = trkn_of st path.
Proof.
  intros Ht Hp.
  unfold tags_write_m4a, catch, bind, ret, raise, load_mp4, save_mp4.
  destruct ok; simpl; [ | reflexivity ].
  destruct (mp4 st !! path) as [loaded|] eqn:Hl; simpl; [ | reflexivity ].
  destruct (edit_m4a_zero_track fields cover
              (match loaded with Some t => t | None => no_tags end) tot Ht Hp)
    as (t' & He & Htr).
  rewrite He.
  destruct (mp4_save_error st t'); simpl; [ reflexivity | ].
  unfold trkn_of. simpl. rewrite lookup_insert_eq, Hl, Htr.
  destruct loaded; reflexivity.
Qed.

(** [_parse_track] reads the forms "N" and "N/M", answers [(0, 0)] for
    every other string (so for "abc"), and never raises; and when a non-empty
    track string parses to track number 0, [tags_write_m4a] assigns no [trkn]
    atom: the file's [trkn] entry is what it was before the call (none, if it
    had none), and the call itself returns a result instead of raising. *)
Theorem parse_track_forms_and_omission :
  (forall s n, contains "/" (strip s) = false -> py_int (strip s) = Some n ->
               _parse_track s = Ok (n, 0))
  /\ (forall s a b n m, split_once "/" (strip s) = Some (a, b) ->
        py_int (strip a) = Some n -> py_int (strip b) = Some m ->
        _parse_track s = Ok (n, m))
  /\ (forall s, contains "/" (strip s) = false -> py_int (strip s) = None ->
                _parse_track s = Ok (0, 0))
  /\ (forall s a b, split_once "/" (strip s) = Some (a, b) ->
        py_int (strip a) = None \/ py_int (strip b) = None ->
        _parse_track s = Ok (0, 0))
  /\ _parse_track "abc" = Ok (0, 0)
  /\ (forall s, exists p, _parse_track s = Ok p)
  /\ (forall ok path fields cover st tot,
        truthy (strip (field fields "track")) = true ->
        _parse_track (strip (field fields "track")) = Ok (0, tot) ->
        trkn_of (tags_write_m4a ok path fields cover st).2 path = trkn_of st path
        /\ exists good msg,
             (tags_write_m4a ok path fields cover st).1 = Ok (good, msg)).
Proof.
  split; [ exact parse_track_plain | ].
  split; [ exact parse_track_pair | ].
  split; [ exact parse_track_malformed_plain | ].
  split; [ exact parse_track_malformed_pair | ].
  split; [ reflexivity | ].
  split; [ exact parse_track_never_raises | ].
  intros ok path fields cover st tot Ht Hp. split.
  - by eapply tags_write_m4a_zero_track.
  - apply tags_write_m4a_never_raises.
Qed.

Lemma parse_track_forms_and_omission_witness :
  _parse_track " 3 / 12 " = Ok (3, 12)
  /\ _parse_track "7" = Ok (7, 0)
  /\ trkn_of (tags_write_m4a true "a.m4a" {[ "track" := "abc" ]} None shelf).2 "a.m4a"
     = trkn_of shelf "a.m4a".
Proof.
  destruct parse_track_forms_and_omission as (H1 & H2 & _ & _ & _ & _ & H7).
  split; [ | split ].
  - apply (H2 " 3 / 12 " "3 " " 12"); reflexivity.
  - apply H1; reflexivity.
  - apply (H7 true "a.m4a" {[ "track" := "abc" ]} None shelf 0); reflexivity.
Defined.

(** C8, the code at the failing input.  The track text "abc" parses to
    (0, 0).  Written to a file whose track atom is (5, 10), it is answered
    with success and the atom is still in the file, read back as "5/10":
    the branch for a track number 0 assigns nothing and deletes nothing.
    The sibling branch, for an empty track text, does delete the atom. *)
Theorem malformed_track_keeps_old_trkn :
  _parse_track "abc" = Ok (0, 0)
  /\ trkn_of shelf "a.m4a" = Some [(5, 10)]
  /\ (tags_write_m4a true "a.m4a" {[ "track" := "abc" ]} None shelf).1
     = Ok (true, "OK")
  /\ trkn_of (tags_write_m4a true "a.m4a" {[ "track" := "abc" ]} None shelf).2
       "a.m4a"
     = Some [(5, 10)]
  /\ track <$> tags_read_m4a true
                 (tags_write_m4a true "a.m4a" {[ "track" := "abc" ]} None
                    shelf).2 "a.m4a"
     = Some "5/10"
  /\ trkn_of (tags_write_m4a true "a.m4a" {[ "track" := "" ]} None shelf).2
       "a.m4a"
     = None.
Proof. repeat split; vm_compute; reflexivity. Qed.

(* ===================================================================== *)
(** ** The progress stream: properties *)
(* ===================================================================== *)

Lemma Qle_bool_false (a b : Q) : (b < a)%Q -> Qle_bool a b = false.
Proof.
  intros H. destruct (Qle_bool a b) eqn:E; [ | reflexivity ].
  apply Qle_bool_iff in E. exfalso. exact (Qlt_not_le _ _ H E).
Qed.

Lemma pct_of_clamp (out_ms total : Z) :
  (pct_of out_ms total
   == qmax 0 (qmin 100 ((inject_Z out_ms / inject_Z total) * 100)))%Q.
Proof. unfold pct_of. apply Qred_correct. Qed.

Lemma pct_of_range (out_ms total : Z) :
  (0 <= pct_of out_ms total /\ pct_of out_ms total <= 100)%Q.
Proof.
  rewrite pct_of_clamp. unfold qmax, qmin.
  set (x := (inject_Z out_ms / inject_Z total * 100)%Q).
  destruct (Qle_bool x 100) eqn:E1.
  - apply Qle_bool_iff in E1.
    destruct (Qle_bool 0 x) eqn:E2.
    + apply Qle_bool_iff in E2. split; assumption.
    + split; [ apply Qle_refl | discriminate ].
  - destruct (Qle_bool 0 100) eqn:E2.
    + split; [ discriminate | apply Qle_refl ].
    + discriminate E2.
Qed.

Lemma not_self_snoc {A} (l : list A) (x : A) : l <> (l ++ [x])%list.
Proof.
  intros H. apply (f_equal length) in H.
  rewrite length_app in H. simpl in H. lia.
Qed.

Section StepFacts.
Variable clock : nat -> Q.
Variable has_cb : bool.

Lemma on_out_time_total (v : string) (st : PState) :
  total_ms (on_out_time clock has_cb v st) = total_ms st.
Proof.
  unfold on_out_time. destruct has_cb; [ | reflexivity ].
  destruct (negb _); reflexivity.
Qed.

Lemma on_out_time_in_range (v : string) (st : PState) :
  Forall in_range (delivered st) ->
  Forall in_range (delivered (on_out_time clock has_cb v st)).
Proof.
  intros H. unfold on_out_time.
  destruct has_cb; [ | exact H ].
  destruct (negb _); simpl; [ | exact H ].
  apply Forall_app; split; [ exact H | ].
  constructor; [ | constructor ].
  unfold in_range; simpl.
  repeat case_match; try exact I; simplify_eq; apply pct_of_range.
Qed.

Lemma step_in_range (st : PState) (line : string) :
  Forall in_range (delivered st) ->
  Forall in_range (delivered (step clock has_cb st line)).
Proof.
  intros H. unfold step.
  destruct (negb (truthy (strip line)) || negb (contains "=" (strip line)));
    [ exact H | ].
  destruct (split_once "=" (strip line)) as [[k v]|]; [ | exact H ].
  set (st1 := if String.eqb (strip k) "duration_ms" then _ else st).
  assert (H1 : Forall in_range (delivered st1)).
  { subst st1. destruct (String.eqb (strip k) "duration_ms"); exact H. }
  set (st2 := if String.eqb (strip k) "out_time_ms" then _ else st1).
  assert (H2 : Forall in_range (delivered st2)).
  { subst st2. destruct (String.eqb (strip k) "out_time_ms");
      [ by apply on_out_time_in_range | exact H1 ]. }
  destruct (String.eqb (strip k) "progress" && String.eqb (strip v) "end");
    [ | exact H2 ].
  destruct has_cb; [ | exact H2 ].
  simpl. apply Forall_app; split; [ exact H2 | ].
  constructor; [ | constructor ].
  unfold in_range; simpl. split; discriminate.
Qed.

Lemma run_from_in_range (lines : list string) (st : PState) :
  Forall in_range (delivered st) ->
  Forall in_range (delivered (run_from clock has_cb st lines)).
Proof.
  revert st. induction lines as [|l ls IH]; intros st H; simpl; [ exact H | ].
  apply IH. by apply step_in_range.
Qed.

(** A [duration_ms] line sets the reference to what its value parses to. *)
Lemma step_duration (st : PState) (line k v : string) :
  split_once "=" (strip line) = Some (k, v) ->
  strip k = "duration_ms" ->
  total_ms (step clock has_cb st line) = py_int (strip v).
Proof.
  intros Hs Hk. destruct (split_once_contains _ _ _ _ Hs) as [Hc Ht].
  unfold step. rewrite Ht, Hc, Hs, Hk. reflexivity.
Qed.

(** Any other line leaves the reference as it is. *)
Lemma step_other (st : PState) (line : string) :
  (forall k v, split_once "=" (strip line) = Some (k, v) ->
               strip k <> "duration_ms") ->
  total_ms (step clock has_cb st line) = total_ms st.
Proof.
  intros Hk. unfold step.
  destruct (negb (truthy (strip line)) || negb (contains "=" (strip line)));
    [ reflexivity | ].
  destruct (split_once "=" (strip line)) as [[k v]|] eqn:Hs; [ | reflexivity ].
  specialize (Hk k v eq_refl). apply String.eqb_neq in Hk. rewrite Hk.
  set (st2 := if String.eqb (strip k) "out_time_ms" then _ else st).
  assert (H2 : total_ms st2 = total_ms st).
  { subst st2. destruct (String.eqb (strip k) "out_time_ms");
      [ apply on_out_time_total | reflexivity ]. }
  destruct (String.eqb (strip k) "progress" && String.eqb (strip v) "end");
    [ destruct has_cb | ]; exact H2.
Qed.

(** The percentage reported at an [out_time_ms] line is computed from the
    reference current at that line. *)
Lemma on_out_time_percent (v : string) (st : PState) (e : ProgressEvent) :
  delivered (on_out_time clock has_cb v st) = (delivered st ++ [e])%list ->
  percent e = match total_ms st with
              | Some t => if 0 <? t
                          then (fun o => pct_of o t) <$> py_int v
                          else None
              | None => None
              end.
Proof.
  unfold on_out_time. intros H.
  destruct has_cb; [ | exfalso; by eapply not_self_snoc ].
  destruct (negb _); simpl in H.
  - apply app_inv_head in H. injection H as <-. simpl.
    destruct (total_ms st) as [t|]; [ | reflexivity ].
    destruct (0 <? t) eqn:E; [ | by rewrite andb_false_r ].
    assert ((t =? 0) = false) as -> by lia. simpl.
    destruct (py_int v); reflexivity.
  - exfalso. by eapply not_self_snoc.
Qed.

Lemma on_out_time_fires (v : string) (st : PState) (t o : Z) :
  has_cb = true ->
  total_ms st = Some t -> 0 < t -> py_int v = Some o ->
  (12 # 100 < clock (reads st) - last_update st)%Q ->
  on_out_time clock has_cb v st
  = stamp clock (call_cb {| percent := Some (pct_of o t); phase := Running |}
                         (tick st)).
Proof.
  intros -> Ht Hpos Ho Hc. unfold on_out_time.
  rewrite Ht, Ho.
  assert ((t =? 0) = false) as -> by lia.
  assert ((0 <? t) = true) as -> by lia.
  simpl. rewrite (Qle_bool_false _ _ Hc). reflexivity.
Qed.

End StepFacts.

Lemma example_run_spaced (clock : nat -> Q) :
  (12 # 100 < clock 1%nat - clock 0%nat)%Q ->
  (12 # 100 < clock 3%nat - clock 2%nat)%Q ->
  delivered (parse_progress clock true example_lines)
  = [ {| percent := Some 25%Q; phase := Running |};
      {| percent := Some 75%Q; phase := Running |};
      {| percent := Some 100%Q; phase := Finished |} ].
Proof.
  intros H1 H2.
  unfold parse_progress, run_from, example_lines. simpl fold_left.
  change (step clock true (init clock) "duration_ms=10000")
    with (set_total (Some 10000) (init clock)).
  set (s1 := set_total (Some 10000) (init clock)).
  change (step clock true s1 "out_time_ms=2500")
    with (on_out_time clock true "2500" s1).
  rewrite (on_out_time_fires clock true "2500" s1 10000 2500)
    by (try reflexivity; exact H1).
  set (s2 := stamp clock _).
  change (step clock true s2 "out_time_ms=7500")
    with (on_out_time clock true "7500" s2).
  rewrite (on_out_time_fires clock true "7500" s2 10000 7500)
    by (try reflexivity; exact H2).
  reflexivity.
Qed.

Section RateLimit.
Variable clock : nat -> Q.

Lemma step_out_time (st : PState) (line k v : string) :
  split_once "=" (strip line) = Some (k, v) ->
  strip k = "out_time_ms" ->
  step clock true st line = on_out_time clock true (strip v) st.
Proof.
  intros Hs Hk. destruct (split_once_contains _ _ _ _ Hs) as [Hc Ht].
  unfold step. rewrite Ht, Hc, Hs, Hk. reflexivity.
Qed.

Lemma step_end (st : PState) (line k v : string) :
  split_once "=" (strip line) = Some (k, v) ->
  strip k = "progress" -> strip v = "end" ->
  step clock true st line = call_cb klar st.
Proof.
  intros Hs Hk Hv. destruct (split_once_contains _ _ _ _ Hs) as [Hc Ht].
  unfold step. rewrite Ht, Hc, Hs, Hk, Hv. reflexivity.
Qed.

(** An [out_time_ms] line handled within 0.12 s of the last delivery (or of
    the start) delivers nothing and leaves the time of that delivery as it
    is. *)
Lemma out_time_withheld (st : PState) (line k v : string) :
  split_once "=" (strip line) = Some (k, v) ->
  strip k = "out_time_ms" ->
  (clock (reads st) - last_update st <= 12 # 100)%Q ->
  delivered (step clock true st line) = delivered st
  /\ last_update (step clock true st line) = last_update st.
Proof.
  intros Hs Hk Hq. rewrite (step_out_time _ _ _ _ Hs Hk).
  unfold on_out_time.
  assert (E : Qle_bool (clock (reads st) - last_update (tick st)) (12 # 100)
              = true) by (by apply Qle_bool_iff).
  rewrite E. by split.
Qed.

(** Handled later than that, it delivers one running event, and the next
    clock reading becomes the time of the last delivery. *)
Lemma out_time_delivered (st : PState) (line k v : string) :
  split_once "=" (strip line) = Some (k, v) ->
  strip k = "out_time_ms" ->
  (12 # 100 < clock (reads st) - last_update st)%Q ->
  exists e,
    delivered (step clock true st line) = (delivered st ++ [e])%list
    /\ phase e = Running
    /\ last_update (step clock true st line) = clock (S (reads st)).
Proof.
  intros Hs Hk Hq. rewrite (step_out_time _ _ _ _ Hs Hk).
  unfold on_out_time.
  assert (E : Qle_bool (clock (reads st) - last_update (tick st)) (12 # 100)
              = false) by (by apply Qle_bool_false).
  rewrite E. simpl. eexists. by repeat split.
Qed.

End RateLimit.

(** C4, as the code has it.  The example stream delivers 25, 75, 100 in that
    order when each [out_time_ms] line is handled more than 0.12 s after the
    last delivery (or the start); the percentage is the clamp of
    out_time_ms / duration_ms * 100 to [0, 100]; on every stream, with any
    clock, each delivered percentage is absent or lies in [0, 100].  An
    [out_time_ms] line handled within 0.12 s of the last delivery delivers
    nothing; handled later, it delivers one running event; and a
    "progress=end" line always delivers 100 with the text for done. *)
Theorem progress_example_when_spaced :
  (forall clock : nat -> Q,
      (12 # 100 < clock 1%nat - clock 0%nat)%Q ->
      (12 # 100 < clock 3%nat - clock 2%nat)%Q ->
      delivered (parse_progress clock true example_lines)
      = [ {| percent := Some 25%Q; phase := Running |};
          {| percent := Some 75%Q; phase := Running |};
          {| percent := Some 100%Q; phase := Finished |} ])
  /\ (forall out_ms total : Z,
        (pct_of out_ms total
         == qmax 0 (qmin 100 ((inject_Z out_ms / inject_Z total) * 100)))%Q)
  /\ (forall (clock : nat -> Q) (has_cb : bool) (lines : list string),
        Forall in_range (delivered (parse_progress clock has_cb lines)))
  /\ (forall (clock : nat -> Q) (st : PState) (line k v : string),
        split_once "=" (strip line) = Some (k, v) ->
        strip k = "out_time_ms" ->
        (clock (reads st) - last_update st <= 12 # 100)%Q ->
        delivered (step clock true st line) = delivered st
        /\ last_update (step clock true st line) = last_update st)
  /\ (forall (clock : nat -> Q) (st : PState) (line k v : string),
        split_once "=" (strip line) = Some (k, v) ->
        strip k = "out_time_ms" ->
        (12 # 100 < clock (reads st) - last_update st)%Q ->
        exists e,
          delivered (step clock true st line) = (delivered st ++ [e])%list
          /\ phase e = Running
          /\ last_update (step clock true st line) = clock (S (reads st)))
  /\ (forall (clock : nat -> Q) (st : PState) (line k v : string),
        split_once "=" (strip line) = Some (k, v) ->
        strip k = "progress" -> strip v = "end" ->
        delivered (step clock true st line) = (delivered st ++ [klar])%list).
Proof.
  split; [ exact example_run_spaced | ].
  split; [ exact pct_of_clamp | ].
  split.
  { intros clock has_cb lines. unfold parse_progress.
    apply run_from_in_range. constructor. }
  split; [ exact out_time_withheld | ].
  split; [ exact out_time_delivered | ].
  intros clock st line k v Hs Hk Hv.
  by rewrite (step_end clock _ _ _ _ Hs Hk Hv).
Qed.

Lemma progress_example_when_spaced_witness :
  delivered (parse_progress slow_clock true example_lines)
  = [ {| percent := Some 25%Q; phase := Running |};
      {| percent := Some 75%Q; phase := Running |};
      {| percent := Some 100%Q; phase := Finished |} ]
  /\ delivered (step still_clock true
                  {| total_ms := Some 10000; last_update := 0; reads := 1%nat;
                     delivered := [] |} "out_time_ms=2500") = []
  /\ delivered (step still_clock true
                  {| total_ms := Some 10000; last_update := 0; reads := 1%nat;
                     delivered := [] |} " progress = end ") = [klar].
Proof.
  destruct progress_example_when_spaced as (H & _ & _ & Hw & _ & He).
  split; [ apply (H slow_clock); reflexivity | ].
  split.
  - destruct (Hw still_clock
                {| total_ms := Some 10000; last_update := 0; reads := 1%nat;
                   delivered := [] |}
                "out_time_ms=2500" "out_time_ms" "2500") as [Hd _];
      [ reflexivity | reflexivity | vm_compute; discriminate | exact Hd ].
  - apply (He still_clock
             {| total_ms := Some 10000; last_update := 0; reads := 1%nat;
                delivered := [] |}
             " progress = end " "progress " " end"); reflexivity.
Defined.

(** C4, counterexample.  When the four lines are handled at one instant the
    two running events are withheld and only 100 is delivered; and a stream
    whose [out_time_ms] goes back delivers 75 and then 25. *)
Lemma progress_example_suppressed_and_regressing :
  percents (parse_progress still_clock true example_lines) = [Some 100%Q]
  /\ percents (parse_progress slow_clock true
                 ["duration_ms=10000"; "out_time_ms=7500"; "out_time_ms=2500"])
     = [Some 75%Q; Some 25%Q]
  /\ (25 < 75)%Q.
Proof. repeat split. Qed.

(** C5, as the code has it.  Every [duration_ms] line replaces the reference
    by what its value parses to (nothing, when it is malformed); every other
    line leaves the reference as it is; and a percentage is computed from the
    reference current at its [out_time_ms] line. *)
Theorem duration_follows_latest_line :
  (forall (clock : nat -> Q) (has_cb : bool) (st : PState) (line k v : string),
      split_once "=" (strip line) = Some (k, v) ->
      strip k = "duration_ms" ->
      total_ms (step clock has_cb st line) = py_int (strip v))
  /\ (forall (clock : nat -> Q) (has_cb : bool) (st : PState) (line : string),
        (forall k v, split_once "=" (strip line) = Some (k, v) ->
                     strip k <> "duration_ms") ->
        total_ms (step clock has_cb st line) = total_ms st)
  /\ (forall (clock : nat -> Q) (has_cb : bool) (v : string) (st : PState)
             (e : ProgressEvent),
        delivered (on_out_time clock has_cb v st) = (delivered st ++ [e])%list ->
        percent e = match total_ms st with
                    | Some t => if 0 <? t
                                then (fun o => pct_of o t) <$> py_int v
                                else None
                    | None => None
                    end).
Proof.
  split; [ exact step_duration | ].
  split; [ exact step_other | exact on_out_time_percent ].
Qed.

Lemma duration_follows_latest_line_witness :
  total_ms (step slow_clock true
              {| total_ms := Some 10000; last_update := 0; reads := 1%nat;
                 delivered := [] |} " duration_ms = 20000 ")
  = Some 20000
  /\ total_ms (step slow_clock true
              {| total_ms := Some 10000; last_update := 0; reads := 1%nat;
                 delivered := [] |} "duration_ms=N/A")
  = None.
Proof.
  destruct duration_follows_latest_line as (H & _).
  split.
  - apply (H slow_clock true _ " duration_ms = 20000 " "duration_ms " " 20000");
      reflexivity.
  - apply (H slow_clock true _ "duration_ms=N/A" "duration_ms" "N/A");
      reflexivity.
Defined.

(** C5, counterexample.  After 10000 a second [duration_ms] line of 20000
    makes 5000 ms report 25 percent, not the 50 of the first value; and a
    malformed second line leaves no reference, so no percentage. *)
Lemma duration_not_latched :
  percents (parse_progress slow_clock true
              ["duration_ms=10000"; "duration_ms=20000"; "out_time_ms=5000"])
  = [Some 25%Q]
  /\ pct_of 5000 10000 = 50%Q
  /\ total_ms (parse_progress slow_clock true
                 ["duration_ms=10000"; "duration_ms=20000"]) = Some 20000
  /\ percents (parse_progress slow_clock true
                 ["duration_ms=10000"; "duration_ms=abc"; "out_time_ms=5000"])
     = [None]
  /\ total_ms (parse_progress slow_clock true
                 ["duration_ms=10000"; "duration_ms=abc"]) = None.
Proof. repeat split. Qed.

(* ===================================================================== *)
(** ** Export: properties *)
(* ===================================================================== *)

Lemma export_unknown_ext (ffmpeg_path : option string) (src dst : Path)
    (kind : string) (has_cb : bool) (w : World) :
  kind <> "video" ->
  ~ In (lower (suffix dst)) [".m4a"; ".mp3"; ".ogg"] ->
  exists msg,
    ffmpeg_export ffmpeg_path src dst kind has_cb w = (Ok (false, msg), w)
    /\ (forall ff, ffmpeg_path = Some ff -> ff <> "" ->
          msg = "Ok" ++ a_uml ++ "nt ljudformat: " ++ lower (suffix dst)).
Proof.
  intros Hk Hext. simpl in Hext.
  assert (H1 : String.eqb (lower (suffix dst)) ".m4a" = false)
    by (apply String.eqb_neq; intros E; apply Hext; auto).
  assert (H2 : String.eqb (lower (suffix dst)) ".mp3" = false)
    by (apply String.eqb_neq; intros E; apply Hext; auto).
  assert (H3 : String.eqb (lower (suffix dst)) ".ogg" = false)
    by (apply String.eqb_neq; intros E; apply Hext; auto).
  apply String.eqb_neq in Hk.
  unfold ffmpeg_export.
  destruct ffmpeg_path as [[|c ff]|].
  - eexists; split; [ reflexivity | ]. intros ff [= <-] Hne. by destruct Hne.
  - rewrite Hk, H1, H2, H3. eexists; split; [ reflexivity | ]. reflexivity.
  - eexists; split; [ reflexivity | ]. intros ff [=].
Qed.

Lemma export_known_ext (ff : string) (src dst : Path) (kind : string)
    (has_cb : bool) :
  ff <> "" -> kind <> "video" ->
  (lower (suffix dst) = ".m4a" ->
   ffmpeg_export (Some ff) src dst kind has_cb
   = run_ffmpeg_with_progress
       [ff; "-y"; "-i"; path_str src; "-vn"; "-c:a"; "aac"; "-b:a"; "192k";
        "-progress"; "pipe:1"; "-nostats"; path_str dst] has_cb)
  /\ (lower (suffix dst) = ".mp3" ->
      ffmpeg_export (Some ff) src dst kind has_cb
      = run_ffmpeg_with_progress
          [ff; "-y"; "-i"; path_str src; "-vn"; "-c:a"; "libmp3lame"; "-q:a"; "2";
           "-progress"; "pipe:1"; "-nostats"; path_str dst] has_cb)
  /\ (lower (suffix dst) = ".ogg" ->
      ffmpeg_export (Some ff) src dst kind has_cb
      = run_ffmpeg_with_progress
          [ff; "-y"; "-i"; path_str src; "-vn"; "-c:a"; "libvorbis"; "-q:a"; "6";
           "-progress"; "pipe:1"; "-nostats"; path_str dst] has_cb).
Proof.
  intros Hff Hk. apply String.eqb_neq in Hk.
  unfold ffmpeg_export. destruct ff as [|c ff]; [ by destruct Hff | ].
  rewrite Hk. repeat split; intros ->; reflexivity.
Qed.

(** C7.  An export whose kind is not "video" and whose lower-cased
    destination suffix is none of .m4a, .mp3, .ogg returns a failure and
    leaves the world as it was: no process is started (the journal is
    unchanged) and no file is touched; with a usable encoder path the
    message is the unknown-format one.  For the three known suffixes the
    encoder is started with the aac, libmp3lame and libvorbis codec. *)
Theorem export_rejects_unknown_audio_extension :
  (forall ffmpeg_path src dst kind has_cb w,
      kind <> "video" ->
      ~ In (lower (suffix dst)) [".m4a"; ".mp3"; ".ogg"] ->
      exists msg,
        ffmpeg_export ffmpeg_path src dst kind has_cb w = (Ok (false, msg), w)
        /\ (forall ff, ffmpeg_path = Some ff -> ff <> "" ->
              msg = "Ok" ++ a_uml ++ "nt ljudformat: " ++ lower (suffix dst)))
  /\ (forall ff src dst kind has_cb,
        ff <> "" -> kind <> "video" ->
        (lower (suffix dst) = ".m4a" ->
         ffmpeg_export (Some ff) src dst kind has_cb
         = run_ffmpeg_with_progress
             [ff; "-y"; "-i"; path_str src; "-vn"; "-c:a"; "aac"; "-b:a"; "192k";
              "-progress"; "pipe:1"; "-nostats"; path_str dst] has_cb)
        /\ (lower (suffix dst) = ".mp3" ->
            ffmpeg_export (Some ff) src dst kind has_cb
            = run_ffmpeg_with_progress
                [ff; "-y"; "-i"; path_str src; "-vn"; "-c:a"; "libmp3lame";
                 "-q:a"; "2"; "-progress"; "pipe:1"; "-nostats"; path_str dst]
                has_cb)
        /\ (lower (suffix dst) = ".ogg" ->
            ffmpeg_export (Some ff) src dst kind has_cb
            = run_ffmpeg_with_progress
                [ff; "-y"; "-i"; path_str src; "-vn"; "-c:a"; "libvorbis";
                 "-q:a"; "6"; "-progress"; "pipe:1"; "-nostats"; path_str dst]
                has_cb)).
Proof.
  split; [ exact export_unknown_ext | exact export_known_ext ].
Qed.

Lemma export_rejects_unknown_audio_extension_witness :
  (exists msg,
     ffmpeg_export (Some "ffmpeg") song
       {| dir_prefix := "/out/"; stem := "a"; suffix := ".WAV" |}
       "audio" true (disk false no_error)
     = (Ok (false, msg), disk false no_error))
  /\ ffmpeg_export (Some "ffmpeg") song
       {| dir_prefix := "/out/"; stem := "a"; suffix := ".MP3" |} "audio" true
     = run_ffmpeg_with_progress
         ["ffmpeg"; "-y"; "-i"; "/m/a.mp4"; "-vn"; "-c:a"; "libmp3lame";
          "-q:a"; "2"; "-progress"; "pipe:1"; "-nostats"; "/out/a.MP3"] true.
Proof.
  destruct export_rejects_unknown_audio_extension as (H1 & H2).
  split.
  - destruct (H1 (Some "ffmpeg") song
                {| dir_prefix := "/out/"; stem := "a"; suffix := ".WAV" |}
                "audio" true (disk false no_error)) as (msg & Hm & _).
    + discriminate.
    + simpl. intros [H | [H | [H | []]]]; discriminate H.
    + exists msg. exact Hm.
  - destruct (H2 "ffmpeg" song
                {| dir_prefix := "/out/"; stem := "a"; suffix := ".MP3" |}
                "audio" true) as (_ & Hmp3 & _).
    + discriminate.
    + discriminate.
    + apply Hmp3. reflexivity.
Defined.

(* ===================================================================== *)
(** ** In-place genre rewrite: properties *)
(* ===================================================================== *)

Lemma append_inj_l (p a b : string) : p ++ a = p ++ b -> a = b.
Proof.
  induction p as [|c p IH]; simpl; intros H; [ exact H | ].
  injection H as H. auto.
Qed.

Lemma length_append (a b : string) :
  String.length (a ++ b) = (String.length a + String.length b)%nat.
Proof. induction a; simpl; auto. Qed.

(** The three paths of a rewrite are pairwise distinct. *)
Lemma tmp_ne_src (src : Path) : tmp_path src <> path_str src.
Proof.
  unfold tmp_path, with_name, path_str. intros H.
  do 2 apply append_inj_l in H.
  apply (f_equal String.length) in H. rewrite length_append in H.
  simpl in H. lia.
Qed.

Lemma bak_ne_src (src : Path) : backup_path src <> path_str src.
Proof.
  unfold backup_path, with_name, path_str. intros H.
  do 2 apply append_inj_l in H.
  apply (f_equal String.length) in H. rewrite length_append in H.
  simpl in H. lia.
Qed.

Lemma tmp_ne_bak (src : Path) : tmp_path src <> backup_path src.
Proof.
  unfold tmp_path, backup_path, with_name. intros H.
  do 2 apply append_inj_l in H. discriminate H.
Qed.

(** Symbolic execution of the rewrite: one goal per way the encoder and
    the operating system can answer. *)
Ltac exec_inplace :=
  unfold ffmpeg_write_genre_inplace, run_ffmpeg_with_progress, discard_tmp,
    replace_original, catch, bind, ret, exists_, unlink, rename, os_call;
  simpl;
  repeat (case_match; simpl in *; simplify_eq).

Ltac path_facts src :=
  pose proof (tmp_ne_src src); pose proof (bak_ne_src src);
  pose proof (tmp_ne_bak src).

Ltac decided :=
  repeat match goal with
         | H : bool_decide _ = false |- _ => apply bool_decide_eq_false in H
         | H : bool_decide _ = true |- _ => apply bool_decide_eq_true in H
         end.

Ltac new_entries :=
  unfold entries_since in *; simpl in *;
  rewrite <- ?app_assoc in *; simpl in *;
  rewrite ?drop_app_length, ?drop_all in *.

(** Every rename of a rewrite that found a file at the backup path comes
    after a successful unlink of that path. *)
Lemma renames_follow_backup_unlink :
  forall ffmpeg_path src genre_str has_cb w c r w',
    files w !! backup_path src = Some c ->
    ffmpeg_write_genre_inplace ffmpeg_path src genre_str has_cb w = (r, w') ->
    (forall i e,
        entries_since w w' !! i = Some e -> is_rename (op e) = true ->
        exists j u, (j < i)%nat /\ entries_since w w' !! j = Some u
                    /\ op u = OpUnlink (backup_path src) /\ ok u = true
                    /\ after u !! backup_path src = None)
    /\ (forall msg, r = Ok (true, msg) ->
          msg = "OK" /\ files w' !! backup_path src = None).
Proof.
  intros ffmpeg_path src genre_str has_cb w c r w' Hc Hrun.
  path_facts src. revert Hrun. exec_inplace; intros; simplify_eq.
  all: decided; simplify_map_eq.
  all: try (exfalso;
            match goal with
            | H : ~ is_Some _ |- _ => apply H; rewrite Hc; by eexists
            end).
  all: split; [ intros idx ent Hidx Hent | intros msg [= <-] ].
  all: try (split; [ reflexivity | by simplify_map_eq ]).
  all: new_entries.
  all: try (rewrite lookup_nil in Hidx; discriminate).
  all: repeat (destruct idx as [|idx]; simpl in *; simplify_eq;
               try discriminate).
  all: try (rewrite lookup_nil in Hidx; discriminate).
  all: exists 1%nat; eexists; split; [ lia | ]; split; [ reflexivity | ];
       simpl; repeat split; by simplify_map_eq.
Qed.


(** Once the encoder has exited with code 0, the first call that follows
    is the unlink of the file at the backup path. *)
Lemma backup_unlink_follows_encoder :
  forall ff src genre_str has_cb w c f1 r w',
    ff <> "" ->
    files w !! backup_path src = Some c ->
    after_encoder w (genre_cmd ff src genre_str) = Some (0, f1) ->
    ffmpeg_write_genre_inplace (Some ff) src genre_str has_cb w = (r, w') ->
    exists u,
      entries_since w w' !! 1%nat = Some u
      /\ op u = OpUnlink (backup_path src)
      /\ (os_error w (os_calls w) = None ->
          ok u = true /\ after u !! backup_path src = None)
      /\ (forall e, os_error w (os_calls w) = Some e ->
            ok u = false /\ (exists msg, r = Ok (false, msg))
            /\ files w' !! backup_path src = Some c).
Proof.
  intros ff src genre_str has_cb w c f1 r w' Hff Hc Ha Hrun.
  assert (Hgood : exists p, encoder w (genre_cmd ff src genre_str) (files w)
                            = Ok p /\ p_rc p = 0).
  { unfold after_encoder in Ha.
    destruct (encoder w (genre_cmd ff src genre_str) (files w)) as [p|];
      [ | discriminate Ha ].
    exists p. split; [ reflexivity | ]. by injection Ha as -> _. }
  clear Ha. destruct Hgood as (p0 & Hp0 & Hrc0).
  path_facts src. revert Hrun. exec_inplace; intros; simplify_eq.
  all: try (by destruct Hff).
  all: try match goal with
           | Hz : Z.eqb (p_rc _) 0 = false |- _ =>
               apply Z.eqb_neq in Hz; contradiction
           end.
  all: decided; simplify_map_eq.
  all: try (exfalso;
            match goal with
            | Hn : ~ is_Some _ |- _ => apply Hn; rewrite Hc; by eexists
            end).
  all: new_entries.
  all: eexists; split; [ reflexivity | ]; simpl.
  all: split; [ reflexivity | ].
  all: split;
    [ intros Hnone;
      first [ discriminate Hnone
            | split; [ reflexivity | by simplify_map_eq ] ]
    | intros err Herr;
      first [ discriminate Herr
            | split; [ reflexivity | ];
              split; [ by eexists | by simplify_map_eq ] ] ].
Qed.

(** C9.  When a file is at the backup path as the rewrite starts and the
    encoder exits with code 0, the first call after the encoder is the
    unlink of that file: unless the operating system refuses it, no file
    is left at the backup path, whatever its content was, and the renames
    follow; when it is refused the rewrite answers failure and the file
    stays.  Every rename the rewrite performs comes after a successful
    unlink of the backup path, and a run that succeeds answers a plain "OK"
    with no file left there. *)
Theorem stray_backup_removed_before_renames :
  forall ffmpeg_path src genre_str has_cb w c r w',
    files w !! backup_path src = Some c ->
    ffmpeg_write_genre_inplace ffmpeg_path src genre_str has_cb w = (r, w') ->
    (forall ff f1,
        ffmpeg_path = Some ff -> ff <> "" ->
        after_encoder w (genre_cmd ff src genre_str) = Some (0, f1) ->
        exists u,
          entries_since w w' !! 1%nat = Some u
          /\ op u = OpUnlink (backup_path src)
          /\ (os_error w (os_calls w) = None ->
              ok u = true /\ after u !! backup_path src = None)
          /\ (forall e, os_error w (os_calls w) = Some e ->
                ok u = false /\ (exists msg, r = Ok (false, msg))
                /\ files w' !! backup_path src = Some c))
    /\ (forall i e,
          entries_since w w' !! i = Some e -> is_rename (op e) = true ->
          exists j u, (j < i)%nat /\ entries_since w w' !! j = Some u
                      /\ op u = OpUnlink (backup_path src) /\ ok u = true
                      /\ after u !! backup_path src = None)
    /\ (forall msg, r = Ok (true, msg) ->
          msg = "OK" /\ files w' !! backup_path src = None).
Proof.
  intros ffmpeg_path src genre_str has_cb w c r w' Hc Hrun. split.
  - intros ff f1 -> Hff Ha.
    by apply (backup_unlink_follows_encoder ff src genre_str has_cb w c f1).
  - by apply (renames_follow_backup_unlink ffmpeg_path src genre_str has_cb w c).
Qed.

Lemma stray_backup_removed_before_renames_witness :
  (exists u,
      entries_since (disk true no_error) (rewrite_on (disk true no_error)).2
        !! 1%nat = Some u
      /\ op u = OpUnlink "/m/a.__bak__.mp4" /\ ok u = true
      /\ after u !! "/m/a.__bak__.mp4" = None)
  /\ exists j u, (j < 2)%nat
       /\ entries_since (disk true no_error) (rewrite_on (disk true no_error)).2
            !! j = Some u
       /\ op u = OpUnlink "/m/a.__bak__.mp4" /\ ok u = true
       /\ after u !! "/m/a.__bak__.mp4" = None.
Proof.
  destruct (stray_backup_removed_before_renames (Some "ffmpeg") song "Rock"
              true (disk true no_error) "STRAY"
              (rewrite_on (disk true no_error)).1
              (rewrite_on (disk true no_error)).2) as (H1 & H2 & _).
  - vm_compute; reflexivity.
  - vm_compute; reflexivity.
  - split.
    + destruct (H1 "ffmpeg" {[ "/m/a.mp4" := "OLD"; "/m/a.__bak__.mp4" := "STRAY";
                              "/m/a.__tmp__.mp4" := "NEW" ]})
        as (u & Hu & Ho & Hk & _);
        [ reflexivity | discriminate | vm_compute; reflexivity | ].
      exists u. destruct (Hk eq_refl) as [Hok Haf].
      split; [ exact Hu | ]. split; [ exact Ho | ]. by split.
    + apply (H2 2%nat
               {| op := OpRename "/m/a.mp4" "/m/a.__bak__.mp4"; ok := true;
                  after := {[ "/m/a.__tmp__.mp4" := "NEW";
                              "/m/a.__bak__.mp4" := "OLD" ]} |}).
      * vm_compute. reflexivity.
      * reflexivity.
Defined.

(** C1, as the code has it.  The rewrite never renames the backup back to
    the original path.  When the rename of the temporary file onto the
    original path fails, that is the last outside call of the run: the
    function answers failure, the files stay as that failed call left them,
    the original path holds no file and the original content is at the
    backup path. *)
Theorem no_restore_after_failed_replacement :
  forall ffmpeg_path src genre_str has_cb w r w',
    ffmpeg_write_genre_inplace ffmpeg_path src genre_str has_cb w = (r, w') ->
    (forall i e, entries_since w w' !! i = Some e ->
                 op e <> OpRename (backup_path src) (path_str src))
    /\ (forall i e,
          entries_since w w' !! i = Some e ->
          op e = OpRename (tmp_path src) (path_str src) -> ok e = false ->
          entries_since w w' !! S i = None
          /\ files w' = after e
          /\ (exists msg, r = Ok (false, msg))
          /\ files w' !! path_str src = None
          /\ exists c0, files w !! path_str src = Some c0
                        /\ files w' !! backup_path src = Some c0).
Proof.
  intros ffmpeg_path src genre_str has_cb w r w' Hrun.
  path_facts src. revert Hrun. exec_inplace; intros; simplify_eq.
  all: decided; simplify_map_eq.
  all: split; intros idx ent Hidx; [ | intros Hop Hok ].
  all: new_entries.
  all: try (rewrite lookup_nil in Hidx; discriminate).
  all: repeat (destruct idx as [|idx]; simpl in *; simplify_eq;
               try discriminate).
  all: try (rewrite lookup_nil in Hidx; discriminate).
  all: try (simpl; congruence).
  all: simpl in *; try discriminate; try (exfalso; congruence);
       repeat split; eauto.
Qed.

Lemma no_restore_after_failed_replacement_witness :
  entries_since step2_refused (rewrite_on step2_refused).2 !! 3%nat = None
  /\ (exists msg, (rewrite_on step2_refused).1 = Ok (false, msg))
  /\ files (rewrite_on step2_refused).2 !! "/m/a.mp4" = None
  /\ files (rewrite_on step2_refused).2 !! "/m/a.__bak__.mp4" = Some "OLD".
Proof.
  destruct (no_restore_after_failed_replacement (Some "ffmpeg") song "Rock"
              true step2_refused (rewrite_on step2_refused).1
              (rewrite_on step2_refused).2) as [_ H].
  - vm_compute; reflexivity.
  - destruct (H 2%nat
                {| op := OpRename "/m/a.__tmp__.mp4" "/m/a.mp4"; ok := false;
                   after := {[ "/m/a.__tmp__.mp4" := "NEW";
                               "/m/a.__bak__.mp4" := "OLD" ]} |})
      as (A & _ & C & D & c0 & E & F).
    + vm_compute; reflexivity.
    + reflexivity.
    + reflexivity.
    + split; [ exact A | ]. split; [ exact C | ]. split; [ exact D | ].
      assert (c0 = "OLD") as <- by (vm_compute in E; congruence).
      exact F.
Defined.

(** C1, counterexample.  The second rename is refused: the journal ends
    with that failed call, no call restores the backup, the function
    answers failure, and the original path is left without a file while
    the original content sits at the backup path. *)
Lemma failed_replacement_is_not_rolled_back :
  map (fun e => (op e, ok e)) (journal (rewrite_on step2_refused).2)
  = [ (OpSpawn (genre_cmd "ffmpeg" song "Rock"), true);
      (OpRename "/m/a.mp4" "/m/a.__bak__.mp4", true);
      (OpRename "/m/a.__tmp__.mp4" "/m/a.mp4", false) ]
  /\ (exists msg, (rewrite_on step2_refused).1 = Ok (false, msg))
  /\ files (rewrite_on step2_refused).2 !! "/m/a.mp4" = None
  /\ files (rewrite_on step2_refused).2 !! "/m/a.__bak__.mp4" = Some "OLD".
Proof.
  split; [ vm_compute; reflexivity | ].
  split; [ eexists; vm_compute; reflexivity | ].
  split; vm_compute; reflexivity.
Qed.

(** C2, as the code has it.  At every point of a rewrite the original path
    holds the original content, or no file while the original content is
    at the backup path, or the content that the temporary path held when
    the encoder exited with code 0; so it never holds the output of an
    encoder that failed. *)
Theorem target_holds_original_nothing_or_replacement :
  forall ffmpeg_path src genre_str has_cb w c0 r w',
    files w !! path_str src = Some c0 ->
    ffmpeg_write_genre_inplace ffmpeg_path src genre_str has_cb w = (r, w') ->
    (forall i e, entries_since w w' !! i = Some e ->
                 target_state w ffmpeg_path src genre_str c0 (after e))
    /\ target_state w ffmpeg_path src genre_str c0 (files w').
Proof.
  intros ffmpeg_path src genre_str has_cb w c0 r w' Hc Hrun.
  path_facts src. revert Hrun. exec_inplace; intros; simplify_eq.
  all: decided; simplify_map_eq.
  all: split; [ intros idx ent Hidx | ].
  all: new_entries.
  all: try (rewrite lookup_nil in Hidx; discriminate).
  all: repeat (destruct idx as [|idx]; simpl in *; simplify_eq;
               try discriminate).
  all: try (rewrite lookup_nil in Hidx; discriminate).
  all: unfold target_state, after_encoder; simpl.
  all: try (left; by simplify_map_eq).
  all: try (right; left; split; by simplify_map_eq).
  all: right; right;
       match goal with
       | H : encoder _ _ _ = Ok _, Hrc : Z.eqb (p_rc _) 0 = true |- _ =>
           eexists _, _, _; split; [ reflexivity | ];
           rewrite H; apply Z.eqb_eq in Hrc; rewrite Hrc;
           split; [ reflexivity | ];
           repeat match goal with Hw : p_written _ = _ |- _ => rewrite Hw; clear Hw end;
           split; simplify_map_eq; eauto
       end.
Qed.

Lemma target_holds_original_nothing_or_replacement_witness :
  target_state plain_disk (Some "ffmpeg") song "Rock" "OLD"
    (files (rewrite_on plain_disk).2).
Proof.
  destruct (target_holds_original_nothing_or_replacement (Some "ffmpeg") song
              "Rock" true plain_disk "OLD" (rewrite_on plain_disk).1
              (rewrite_on plain_disk).2) as [_ H].
  - vm_compute; reflexivity.
  - vm_compute; reflexivity.
  - exact H.
Defined.

(** C2, counterexample.  In a run where nothing fails, the original path
    holds no file right after the first rename. *)
Lemma target_path_is_empty_between_renames :
  (rewrite_on plain_disk).1 = Ok (true, "OK")
  /\ map (fun e => (op e, after e !! "/m/a.mp4"))
         (journal (rewrite_on plain_disk).2)
     = [ (OpSpawn (genre_cmd "ffmpeg" song "Rock"), Some "OLD");
         (OpRename "/m/a.mp4" "/m/a.__bak__.mp4", None);
         (OpRename "/m/a.__tmp__.mp4" "/m/a.mp4", Some "NEW");
         (OpUnlink "/m/a.__bak__.mp4", Some "NEW") ].
Proof. split; vm_compute; reflexivity. Qed.

(** C6, the code at the failing inputs.  When a rename of the replacement
    phase is refused the function answers failure and the temporary file
    is still on disk; when the encoder fails, the sibling path removes it. *)
Lemma rename_failure_keeps_temporary_file :
  (exists msg, (rewrite_on step1_refused).1 = Ok (false, msg))
  /\ files (rewrite_on step1_refused).2 !! "/m/a.__tmp__.mp4" = Some "NEW"
  /\ (exists msg, (rewrite_on step2_refused).1 = Ok (false, msg))
  /\ files (rewrite_on step2_refused).2 !! "/m/a.__tmp__.mp4" = Some "NEW"
  /\ (rewrite_on crash_disk).1 = Ok (false, "boom")
  /\ files (rewrite_on crash_disk).2 !! "/m/a.__tmp__.mp4" = None.
Proof.
  split; [ eexists; vm_compute; reflexivity | ].
  split; [ vm_compute; reflexivity | ].
  split; [ eexists; vm_compute; reflexivity | ].
  repeat split; vm_compute; reflexivity.
Qed.

(* ===================================================================== *)
(** ** Tags: properties *)
(* ===================================================================== *)

(** *** MP3: frames across the edits of a write *)

Lemma getall_app fid l l' : getall fid (l ++ l') = (getall fid l ++ getall fid l')%list.
Proof. unfold getall. apply List.filter_app. Qed.

Lemma getall_delall_ne fid fid' l : fid <> fid' -> getall fid (delall fid' l) = getall fid l.
Proof.
  intros Hne. unfold getall, delall. induction l as [|f l IH]; simpl; [ reflexivity | ].
  destruct (String.eqb (frame_id f) fid') eqn:E1; simpl.
  - apply String.eqb_eq in E1.
    destruct (String.eqb (frame_id f) fid) eqn:E2; [ | exact IH ].
    apply String.eqb_eq in E2. congruence.
  - destruct (String.eqb (frame_id f) fid); by rewrite IH.
Qed.

Lemma getall_delall_eq fid l : getall fid (delall fid l) = [].
Proof.
  unfold getall, delall. induction l as [|f l IH]; simpl; [ reflexivity | ].
  destruct (String.eqb (frame_id f) fid) eqn:E; simpl; [ exact IH | ].
  by rewrite E.
Qed.

Lemma getall_single_eq fid f : frame_id f = fid -> getall fid [f] = [f].
Proof. intros <-. unfold getall. simpl. by rewrite String.eqb_refl. Qed.

Lemma getall_single_ne fid f : frame_id f <> fid -> getall fid [f] = [].
Proof. intros H. unfold getall. simpl. apply String.eqb_neq in H. by rewrite H. Qed.

Section Mp3Facts.
Variable text_spec : string -> string -> list string.

Lemma getall_put_ne fid fid' fr v l :
  frame_id fr = fid' -> fid <> fid' ->
  getall fid (put fid' fr v l) = getall fid l.
Proof.
  intros Hf Hne. unfold put, setall.
  destruct (truthy (strip v)).
  - rewrite getall_app, getall_delall_ne by done.
    rewrite getall_single_ne by congruence. apply app_nil_r.
  - by apply getall_delall_ne.
Qed.

Lemma getall_put_eq fid fr v l :
  frame_id fr = fid ->
  getall fid (put fid fr v l) = if truthy (strip v) then [fr] else [].
Proof.
  intros Hf. unfold put, setall.
  destruct (truthy (strip v)).
  - by rewrite getall_app, getall_delall_eq, getall_single_eq.
  - apply getall_delall_eq.
Qed.

Lemma getall_put_field_ne fields fid fid' key l :
  fid <> fid' -> getall fid (put_field text_spec fields fid' key l) = getall fid l.
Proof. intros. by apply getall_put_ne. Qed.

Lemma getall_put_field_eq fields fid key l :
  getall fid (put_field text_spec fields fid key l)
  = if truthy (strip (field fields key))
    then [FText fid 3 (text_spec fid (strip (field fields key)))] else [].
Proof. unfold put_field. by rewrite getall_put_eq. Qed.

Lemma getall_write_comment_ne fields fid l :
  fid <> "COMM" -> getall fid (write_comment text_spec fields l) = getall fid l.
Proof.
  intros Hne. unfold write_comment, setall.
  destruct (truthy _).
  - rewrite getall_app, getall_delall_ne by done.
    rewrite getall_single_ne by (simpl; congruence). apply app_nil_r.
  - by apply getall_delall_ne.
Qed.

Lemma getall_write_comment_eq fields l :
  getall "COMM" (write_comment text_spec fields l)
  = if truthy (strip (field fields "comment"))
    then [FComm 3 "eng" "" (text_spec "COMM" (strip (field fields "comment")))]
    else [].
Proof.
  unfold write_comment, setall.
  destruct (truthy _).
  - by rewrite getall_app, getall_delall_eq, getall_single_eq.
  - apply getall_delall_eq.
Qed.

Lemma getall_write_cover_ne cover fid l :
  fid <> "APIC" -> getall fid (write_cover_mp3 cover l) = getall fid l.
Proof.
  intros Hne. unfold write_cover_mp3, add.
  repeat case_match; try reflexivity.
  - by apply getall_delall_ne.
  - rewrite getall_app, getall_delall_ne by done.
    rewrite getall_single_ne by (simpl; congruence). apply app_nil_r.
Qed.

Lemma get_text_edit_mp3 fields cover l fid key :
  In (fid, key) [("TIT2", "title"); ("TPE1", "artist"); ("TALB", "album");
                 ("TRCK", "track"); ("TDRC", "year"); ("TCON", "genre")] ->
  get_text (edit_mp3 text_spec fields cover l) fid
  = mp3_read_back text_spec fid (field fields key).
Proof.
  intros Hin. unfold get_text, edit_mp3, mp3_read_back.
  simpl in Hin.
  destruct Hin as [H|[H|[H|[H|[H|[H|[]]]]]]]; injection H as <- <-;
    rewrite getall_write_cover_ne, getall_write_comment_ne by done;
    rewrite ?getall_put_field_ne by done;
    rewrite getall_put_field_eq;
    destruct (truthy _); try reflexivity;
    simpl; by destruct (text_spec _ _).
Qed.

Lemma comment_edit_mp3 fields cover l :
  get_text (edit_mp3 text_spec fields cover l) "COMM"
  = mp3_read_back text_spec "COMM" (field fields "comment").
Proof.
  unfold get_text, edit_mp3, mp3_read_back.
  rewrite getall_write_cover_ne, getall_write_comment_eq by done.
  destruct (truthy _); reflexivity.
Qed.

Lemma other_frames_delall cover fid l :
  In fid (written_ids cover) ->
  other_frames cover (delall fid l) = other_frames cover l.
Proof.
  intros Hin. unfold other_frames, delall.
  induction l as [|f l IH]; simpl; [ reflexivity | ].
  destruct (String.eqb (frame_id f) fid) eqn:E; simpl.
  - apply String.eqb_eq in E.
    assert (is_written cover f = true) as ->.
    { unfold is_written. apply existsb_exists. exists fid.
      split; [ exact Hin | by apply String.eqb_eq ]. }
    exact IH.
  - by rewrite IH.
Qed.

Lemma other_frames_snoc cover f l :
  In (frame_id f) (written_ids cover) ->
  other_frames cover (l ++ [f]) = other_frames cover l.
Proof.
  intros Hin. unfold other_frames. rewrite List.filter_app. simpl.
  assert (is_written cover f = true) as ->.
  { unfold is_written. apply existsb_exists. exists (frame_id f).
    split; [ exact Hin | apply String.eqb_refl ]. }
  apply app_nil_r.
Qed.

Lemma other_frames_put cover fid fr v l :
  frame_id fr = fid -> In fid (written_ids cover) ->
  other_frames cover (put fid fr v l) = other_frames cover l.
Proof.
  intros Hf Hin. unfold put, setall. destruct (truthy _).
  - rewrite other_frames_snoc by (by rewrite Hf). by apply other_frames_delall.
  - by apply other_frames_delall.
Qed.

Lemma text_id_written cover fid : In fid text_ids -> In fid (written_ids cover).
Proof. intros H. unfold written_ids. apply in_or_app. by left. Qed.

Lemma other_frames_put_field cover fields fid key l :
  In fid text_ids ->
  other_frames cover (put_field text_spec fields fid key l) = other_frames cover l.
Proof.
  intros H. unfold put_field. apply other_frames_put; [ reflexivity | ].
  by apply text_id_written.
Qed.

Lemma other_frames_write_comment cover fields l :
  other_frames cover (write_comment text_spec fields l) = other_frames cover l.
Proof.
  assert (In "COMM" (written_ids cover))
    by (apply text_id_written; simpl; tauto).
  unfold write_comment, setall. destruct (truthy _).
  - rewrite other_frames_snoc by done. by apply other_frames_delall.
  - by apply other_frames_delall.
Qed.

Lemma other_frames_write_cover cover l :
  other_frames cover (write_cover_mp3 cover l) = other_frames cover l.
Proof.
  unfold write_cover_mp3, add. destruct cover as [c|]; [ | reflexivity ].
  assert (In "APIC" (written_ids (Some c))) by (simpl; tauto).
  repeat case_match; try reflexivity.
  - by apply other_frames_delall.
  - rewrite other_frames_snoc by done. by apply other_frames_delall.
Qed.

Lemma other_frames_edit_mp3 fields cover l :
  other_frames cover (edit_mp3 text_spec fields cover l) = other_frames cover l.
Proof.
  unfold edit_mp3.
  rewrite other_frames_write_cover, other_frames_write_comment.
  rewrite !other_frames_put_field by (simpl; tauto). reflexivity.
Qed.

Lemma getall_other_frames cover fid l :
  ~ In fid (written_ids cover) ->
  getall fid (other_frames cover l) = getall fid l.
Proof.
  intros Hn. unfold getall, other_frames.
  induction l as [|f l IH]; simpl; [ reflexivity | ].
  destruct (is_written cover f) eqn:E; simpl.
  - destruct (String.eqb (frame_id f) fid) eqn:E2; [ | exact IH ].
    apply String.eqb_eq in E2. exfalso. apply Hn.
    unfold is_written in E. apply existsb_exists in E as (x & Hx & Hex).
    apply String.eqb_eq in Hex. congruence.
  - by rewrite IH.
Qed.

Lemma saved_tag_other_frames fields cover st path :
  other_frames cover (saved_tag text_spec fields cover st path)
  = other_frames cover (loaded_tag st path).
Proof. apply other_frames_edit_mp3. Qed.

Lemma saved_tag_getall fields cover st path fid :
  ~ In fid (written_ids cover) ->
  getall fid (saved_tag text_spec fields cover st path)
  = getall fid (loaded_tag st path).
Proof.
  intros Hn.
  rewrite <- (getall_other_frames cover fid _ Hn), saved_tag_other_frames.
  by apply getall_other_frames.
Qed.

(** A successful write has loaded the file, edited the tag and had it
    saved without error. *)
Lemma write_mp3_saved ok path fields cover st msg st' :
  tags_write_mp3 ok text_spec path fields cover st = (Ok (true, msg), st') ->
  ok = true /\ msg = "OK"
  /\ is_Some (mp3 st !! path)
  /\ id3_save_error st (saved_tag text_spec fields cover st path) = None
  /\ st' = set_mp3
             (<[path := Some (id3_written st
                                (saved_tag text_spec fields cover st path))]>
                (mp3 st)) st.
Proof.
  unfold tags_write_mp3, saved_tag, loaded_tag, catch, bind, ret, load_id3,
    save_id3.
  destruct ok; simpl; [ | discriminate ].
  destruct (mp3 st !! path) as [[frames|]|] eqn:Hl; simpl; [ | | discriminate ].
  all: destruct (id3_save_error st _) eqn:He; simpl; [ discriminate | ].
  all: intros [= <- <-]; repeat split; by eexists.
Qed.

Lemma write_mp3_failed ok path fields cover st msg st' :
  tags_write_mp3 ok text_spec path fields cover st = (Ok (false, msg), st') ->
  st' = st.
Proof.
  unfold tags_write_mp3, catch, bind, ret, load_id3, save_id3.
  destruct ok; simpl; [ | by intros [= _ <-] ].
  destruct (mp3 st !! path) as [[frames|]|]; simpl; [ | | by intros [= _ <-] ].
  all: destruct (id3_save_error st _); simpl; [ by intros [= _ <-] | ].
  all: discriminate.
Qed.

Lemma write_mp3_never_raises ok path fields cover st :
  exists good msg,
    (tags_write_mp3 ok text_spec path fields cover st).1 = Ok (good, msg).
Proof.
  unfold tags_write_mp3, catch, bind, ret, load_id3, save_id3.
  repeat case_match; simplify_eq/=; eauto.
Qed.

Lemma write_mp3_other_files ok path fields cover st p :
  p <> path ->
  mp3 (tags_write_mp3 ok text_spec path fields cover st).2 !! p = mp3 st !! p.
Proof.
  intros Hne.
  unfold tags_write_mp3, catch, bind, ret, load_id3, save_id3.
  repeat case_match; simplify_eq/=; by rewrite ?lookup_insert_ne.
Qed.

Lemma write_mp3_mp4 ok path fields cover st :
  mp4 (tags_write_mp3 ok text_spec path fields cover st).2 = mp4 st.
Proof.
  unfold tags_write_mp3, catch, bind, ret, load_id3, save_id3.
  repeat case_match; simplify_eq/=; reflexivity.
Qed.

(** What a read finds after a successful write: the dictionary of the tag
    that the library loads from what it has written. *)
Lemma read_after_write_mp3 ok path fields cover st msg st' :
  tags_write_mp3 ok text_spec path fields cover st = (Ok (true, msg), st') ->
  tags_read_mp3 ok st' path
  = Some (read_id3_tag
            (id3_loaded st
               (id3_written st (saved_tag text_spec fields cover st path)))).
Proof.
  intros H. apply write_mp3_saved in H as (-> & _ & _ & _ & ->).
  unfold tags_read_mp3. simpl. by rewrite lookup_insert_eq.
Qed.

Lemma read_id3_tag_text (tags : list Frame) :
  title (read_id3_tag tags) = get_text tags "TIT2"
  /\ artist (read_id3_tag tags) = get_text tags "TPE1"
  /\ album (read_id3_tag tags) = get_text tags "TALB"
  /\ track (read_id3_tag tags) = get_text tags "TRCK"
  /\ year (read_id3_tag tags) = get_text tags "TDRC"
  /\ genre (read_id3_tag tags) = get_text tags "TCON"
  /\ comment (read_id3_tag tags) = get_text tags "COMM".
Proof.
  unfold read_id3_tag.
  destruct (match getall "APIC" tags with
            | [] => (false, None, None)
            | FApic _ m _ _ d :: _ => (true, Some d, Some m)
            | _ :: _ => (true, None, None)
            end) as [[hc cb] cm].
  by repeat split.
Qed.

Lemma saved_tag_text fields cover st path :
  let tag := saved_tag text_spec fields cover st path in
  get_text tag "TIT2" = mp3_read_back text_spec "TIT2" (field fields "title")
  /\ get_text tag "TPE1" = mp3_read_back text_spec "TPE1" (field fields "artist")
  /\ get_text tag "TALB" = mp3_read_back text_spec "TALB" (field fields "album")
  /\ get_text tag "TRCK" = mp3_read_back text_spec "TRCK" (field fields "track")
  /\ get_text tag "TDRC" = mp3_read_back text_spec "TDRC" (field fields "year")
  /\ get_text tag "TCON" = mp3_read_back text_spec "TCON" (field fields "genre")
  /\ get_text tag "COMM"
     = mp3_read_back text_spec "COMM" (field fields "comment").
Proof.
  unfold saved_tag.
  rewrite !(get_text_edit_mp3 fields cover _ _ _) by (simpl; eauto 10).
  repeat split; try reflexivity.
  apply comment_edit_mp3.
Qed.

Lemma write_mp3_read_back ok path fields cover st msg st' :
  tags_write_mp3 ok text_spec path fields cover st = (Ok (true, msg), st') ->
  keeps_text st (saved_tag text_spec fields cover st path) ->
  exists out,
    tags_read_mp3 ok st' path = Some out
    /\ title out = mp3_read_back text_spec "TIT2" (field fields "title")
    /\ artist out = mp3_read_back text_spec "TPE1" (field fields "artist")
    /\ album out = mp3_read_back text_spec "TALB" (field fields "album")
    /\ track out = mp3_read_back text_spec "TRCK" (field fields "track")
    /\ year out = mp3_read_back text_spec "TDRC" (field fields "year")
    /\ genre out = mp3_read_back text_spec "TCON" (field fields "genre")
    /\ comment out = mp3_read_back text_spec "COMM" (field fields "comment").
Proof.
  intros Hw Hk. eexists. split; [ by apply read_after_write_mp3 in Hw | ].
  destruct (read_id3_tag_text
              (id3_loaded st
                 (id3_written st (saved_tag text_spec fields cover st path))))
    as (R1 & R2 & R3 & R4 & R5 & R6 & R7).
  destruct (saved_tag_text fields cover st path)
    as (T1 & T2 & T3 & T4 & T5 & T6 & T7).
  rewrite R1, R2, R3, R4, R5, R6, R7.
  rewrite !Hk by (simpl; tauto).
  by repeat split.
Qed.
End Mp3Facts.

(** *** M4A: what a write stores and a read finds *)
Lemma put_atom_lookup_eq key val t :
  text_atoms (put_atom key val t) !! key
  = if truthy (strip val) then Some [strip val] else None.
Proof.
  unfold put_atom. destruct (truthy (strip val)); simpl.
  - apply lookup_insert_eq.
  - case_bool_decide as H; simpl.
    + apply lookup_delete_eq.
    + destruct (text_atoms t !! key) eqn:E; [ | reflexivity ].
      exfalso. apply H. by eexists.
Qed.

Lemma put_atom_lookup_ne key key' val t :
  key <> key' ->
  text_atoms (put_atom key' val t) !! key = text_atoms t !! key.
Proof.
  intros Hne. unfold put_atom. destruct (truthy (strip val)); simpl.
  - by apply lookup_insert_ne.
  - case_bool_decide; simpl; [ by apply lookup_delete_ne | reflexivity ].
Qed.

Lemma write_track_text fields t t' :
  write_track fields t = Ok t' -> text_atoms t' = text_atoms t /\ covr t' = covr t.
Proof.
  unfold write_track. intros H.
  repeat case_match; simplify_eq; done.
Qed.

Lemma get1_stored t key val :
  text_atoms t !! key = (if truthy (strip val) then Some [strip val] else None) ->
  get1 (Some t) key = strip val.
Proof.
  intros H. unfold get1.
  destruct (has_atoms t) eqn:Ha; simpl.
  - rewrite H. by destruct (strip val).
  - unfold has_atoms in Ha.
    apply orb_false_elim in Ha as [Ha _]. apply orb_false_elim in Ha as [Ha _].
    apply negb_false_iff, bool_decide_eq_true in Ha.
    rewrite Ha, lookup_empty in H. by destruct (strip val).
Qed.

Lemma edit_m4a_text fields cover t t' :
  edit_m4a fields cover t = Ok t' ->
  text_atoms t' !! k_nam = (let v := field fields "title" in
      if truthy (strip v) then Some [strip v] else None)
  /\ text_atoms t' !! k_ART = (let v := field fields "artist" in
      if truthy (strip v) then Some [strip v] else None)
  /\ text_atoms t' !! k_alb = (let v := field fields "album" in
      if truthy (strip v) then Some [strip v] else None)
  /\ text_atoms t' !! k_day = (let v := field fields "year" in
      if truthy (strip v) then Some [strip v] else None)
  /\ text_atoms t' !! k_gen = (let v := field fields "genre" in
      if truthy (strip v) then Some [strip v] else None)
  /\ text_atoms t' !! k_cmt = (let v := field fields "comment" in
      if truthy (strip v) then Some [strip v] else None).
Proof.
  unfold edit_m4a. intros H.
  destruct (write_track fields _) as [wt|] eqn:Hw; [ | discriminate ].
  injection H as <-.
  apply write_track_text in Hw as [Hw _].
  rewrite write_cover_m4a_text, Hw. cbv zeta.
  repeat split;
    rewrite ?put_atom_lookup_ne by (intros E; discriminate E);
    apply put_atom_lookup_eq.
Qed.

Lemma edit_m4a_track fields cover t t' :
  edit_m4a fields cover t = Ok t' ->
  (strip (field fields "track") = "" -> trkn t' = None)
  /\ (forall tn tot,
        _parse_track (strip (field fields "track")) = Ok (tn, tot) ->
        tn <> 0 -> trkn t' = Some [(tn, tot)]).
Proof.
  unfold edit_m4a. intros H.
  destruct (write_track fields _) as [wt|] eqn:Hw; [ | discriminate ].
  injection H as <-. rewrite write_cover_m4a_trkn.
  unfold write_track in Hw. split.
  - intros He. rewrite He in Hw. simpl in Hw.
    case_bool_decide as Hd; injection Hw as <-; [ reflexivity | ].
    rewrite !put_atom_trkn in *.
    destruct (trkn t); [ exfalso; apply Hd; by eexists | reflexivity ].
  - intros tn tot Hp Hn. rewrite Hp in Hw.
    destruct (truthy (strip (field fields "track"))) eqn:Ht.
    + assert ((tn =? 0) = false) as E by lia. rewrite E in Hw.
      simpl in Hw. by injection Hw as <-.
    + exfalso. destruct (strip (field fields "track")); [ | discriminate Ht ].
      vm_compute in Hp. congruence.
Qed.

Lemma write_m4a_read_back ok path fields cover st msg st' :
  tags_write_m4a ok path fields cover st = (Ok (true, msg), st') ->
  exists out,
    tags_read_m4a ok st' path = Some out
    /\ title out = strip (field fields "title")
    /\ artist out = strip (field fields "artist")
    /\ album out = strip (field fields "album")
    /\ year out = strip (field fields "year")
    /\ genre out = strip (field fields "genre")
    /\ comment out = strip (field fields "comment")
    /\ (strip (field fields "track") = "" -> track out = "")
    /\ (forall tn tot,
          _parse_track (strip (field fields "track")) = Ok (tn, tot) ->
          tn <> 0 -> track out = show_track (tn, tot)).
Proof.
  unfold tags_write_m4a, catch, bind, ret, raise, load_mp4, save_mp4.
  destruct ok; simpl; [ | discriminate ].
  destruct (mp4 st !! path) as [loaded|] eqn:Hl; simpl; [ | discriminate ].
  destruct (edit_m4a fields cover _) as [t'|] eqn:He; simpl; [ | discriminate ].
  destruct (mp4_save_error st t'); simpl; [ discriminate | ].
  intros [= <- <-].
  unfold tags_read_m4a. simpl. rewrite lookup_insert_eq.
  destruct (edit_m4a_text _ _ _ _ He) as (T1 & T2 & T3 & T4 & T5 & T6).
  destruct (edit_m4a_track _ _ _ _ He) as (K1 & K2).
  set (cov := match (if has_atoms t' then Some t' else None) with
              | Some t => _ | None => _ end).
  destruct cov as [[hc cb] cm].
  eexists; split; [ reflexivity | ].
  cbn [title artist album track year genre comment].
  rewrite !(get1_stored t' _ _) by eassumption.
  repeat split; try reflexivity.
  - intros Hs. destruct (has_atoms t'); [ rewrite (K1 Hs) | ]; reflexivity.
  - intros tn tot Hp Hn.
    assert (has_atoms t' = true) as ->.
    { unfold has_atoms. rewrite (K2 tn tot Hp Hn). simpl.
      by rewrite orb_true_r. }
    by rewrite (K2 tn tot Hp Hn).
Qed.

(** C10, as the code has it.  [tags_write_mp3] edits the tag that the
    library loads from the file and hands the result to the library's save:
    on success the file holds what the library writes for that tag.  In the
    tag handed over, the frames whose identifier is none of TIT2, TPE1,
    TALB, TRCK, TDRC, TCON, COMM and, when a cover argument is given, APIC,
    are the frames of the loaded tag, in the same order; with no cover
    argument the APIC frames are among them.  A write that answers failure
    leaves the file as it was, and no other file is touched. *)
Theorem write_mp3_touches_only_its_frames :
  forall ok text_spec path fields cover st,
    (forall msg st',
        tags_write_mp3 ok text_spec path fields cover st
        = (Ok (true, msg), st') ->
        mp3 st' !! path
        = Some (Some (id3_written st
                        (saved_tag text_spec fields cover st path))))
    /\ other_frames cover (saved_tag text_spec fields cover st path)
       = other_frames cover (loaded_tag st path)
    /\ (forall fid,
          ~ In fid (written_ids cover) ->
          getall fid (saved_tag text_spec fields cover st path)
          = getall fid (loaded_tag st path))
    /\ (cover = None ->
        getall "APIC" (saved_tag text_spec fields cover st path)
        = getall "APIC" (loaded_tag st path))
    /\ (forall msg st',
          tags_write_mp3 ok text_spec path fields cover st
          = (Ok (false, msg), st') ->
          st' = st)
    /\ (forall p, p <> path ->
          mp3 (tags_write_mp3 ok text_spec path fields cover st).2 !! p
          = mp3 st !! p)
    /\ mp4 (tags_write_mp3 ok text_spec path fields cover st).2 = mp4 st.
Proof.
  intros ok text_spec path fields cover st.
  split.
  { intros msg st' Hw.
    apply write_mp3_saved in Hw as (_ & _ & _ & _ & ->).
    simpl. apply lookup_insert_eq. }
  split; [ apply saved_tag_other_frames | ].
  split; [ intros fid Hn; by apply saved_tag_getall | ].
  split.
  { intros ->. apply saved_tag_getall. simpl. intuition discriminate. }
  split; [ intros msg st'; apply write_mp3_failed | ].
  split; [ intros p Hp; by apply write_mp3_other_files
         | apply write_mp3_mp4 ].
Qed.

Lemma write_mp3_touches_only_its_frames_witness :
  getall "APIC" (saved_tag verbatim {[ "title" := "New" ]} None shelf "a.mp3")
  = [FApic 3 "image/png" 3 "Cover" "PNGDATA"]
  /\ getall "TXXX"
       (saved_tag verbatim {[ "title" := "New" ]}
          (Some {| action := Some "remove"; bytes := None; mime := None |})
          shelf "a.mp3")
     = [FOther "TXXX" "replaygain"].
Proof.
  split.
  - destruct (write_mp3_touches_only_its_frames true verbatim "a.mp3"
                {[ "title" := "New" ]} None shelf) as (_ & _ & _ & H & _).
    rewrite (H eq_refl). vm_compute; reflexivity.
  - destruct (write_mp3_touches_only_its_frames true verbatim "a.mp3"
                {[ "title" := "New" ]}
                (Some {| action := Some "remove"; bytes := None; mime := None |})
                shelf) as (_ & _ & H & _).
    rewrite (H "TXXX"); [ vm_compute; reflexivity | ].
    simpl. intuition discriminate.
Defined.

(** C10, counterexample.  The file holds a year frame of the older tag
    version, TYER, which is none of the frames that [tags_write_mp3] names.
    The library loads it as TDRC; a write that sets the title only, with an
    empty year, succeeds and deletes TDRC, and the file it leaves has
    neither frame: the TYER frame that was in the file is gone. *)
Lemma other_frame_of_file_is_lost :
  getall "TYER" (frames_of attic "old.mp3") = [FText "TYER" 0 ["1999"]]
  /\ (tags_write_mp3 true verbatim "old.mp3" {[ "title" := "New" ]} None
        attic).1 = Ok (true, "OK")
  /\ getall "TYER"
       (frames_of (tags_write_mp3 true verbatim "old.mp3"
                     {[ "title" := "New" ]} None attic).2 "old.mp3")
     = []
  /\ frames_of (tags_write_mp3 true verbatim "old.mp3"
                  {[ "title" := "New" ]} None attic).2 "old.mp3"
     = [FText "TIT2" 3 ["New"]].
Proof. repeat split; vm_compute; reflexivity. Qed.

Lemma mp3_read_back_verbatim (text_spec : string -> string -> list string)
    (fid value : string) :
  text_spec fid (strip value) = [strip value] ->
  mp3_read_back text_spec fid value = strip value.
Proof.
  intros H. unfold mp3_read_back. rewrite H.
  by destruct (strip value).
Qed.

(** C3, as the code has it.  A successful [tags_write_mp3] hands to the
    library's save a tag in which each text field reads as the written value
    stripped of surrounding white space - as the frame built from it holds
    it, which is that very text for a frame that keeps its text as given -
    and as the empty string when the stripped value is empty, whatever the
    file held before.  A read of the file then returns the dictionary of the
    tag that the library loads from what it has written, so it returns these
    values whenever the library's save and load keep the first text of these
    frames.  For M4A a read after a successful write gives the stripped
    values; the track reads back empty when it was written empty, and as
    "N" or "N/M" when the written text parses to a track number N other
    than 0. *)
Theorem written_tags_read_back_stripped :
  (forall ok text_spec path fields cover st msg st',
      tags_write_mp3 ok text_spec path fields cover st = (Ok (true, msg), st') ->
      let tag := saved_tag text_spec fields cover st path in
      (get_text tag "TIT2" = mp3_read_back text_spec "TIT2" (field fields "title")
       /\ get_text tag "TPE1"
          = mp3_read_back text_spec "TPE1" (field fields "artist")
       /\ get_text tag "TALB"
          = mp3_read_back text_spec "TALB" (field fields "album")
       /\ get_text tag "TRCK"
          = mp3_read_back text_spec "TRCK" (field fields "track")
       /\ get_text tag "TDRC"
          = mp3_read_back text_spec "TDRC" (field fields "year")
       /\ get_text tag "TCON"
          = mp3_read_back text_spec "TCON" (field fields "genre")
       /\ get_text tag "COMM"
          = mp3_read_back text_spec "COMM" (field fields "comment"))
      /\ mp3 st' !! path = Some (Some (id3_written st tag))
      /\ tags_read_mp3 ok st' path
         = Some (read_id3_tag (id3_loaded st (id3_written st tag)))
      /\ (keeps_text st tag ->
          exists out,
            tags_read_mp3 ok st' path = Some out
            /\ title out
               = mp3_read_back text_spec "TIT2" (field fields "title")
            /\ artist out
               = mp3_read_back text_spec "TPE1" (field fields "artist")
            /\ album out
               = mp3_read_back text_spec "TALB" (field fields "album")
            /\ track out
               = mp3_read_back text_spec "TRCK" (field fields "track")
            /\ year out
               = mp3_read_back text_spec "TDRC" (field fields "year")
            /\ genre out
               = mp3_read_back text_spec "TCON" (field fields "genre")
            /\ comment out
               = mp3_read_back text_spec "COMM" (field fields "comment")))
  /\ (forall text_spec fid value,
        text_spec fid (strip value) = [strip value] ->
        mp3_read_back text_spec fid value = strip value)
  /\ (forall ok path fields cover st msg st',
        tags_write_m4a ok path fields cover st = (Ok (true, msg), st') ->
        exists out,
          tags_read_m4a ok st' path = Some out
          /\ title out = strip (field fields "title")
          /\ artist out = strip (field fields "artist")
          /\ album out = strip (field fields "album")
          /\ year out = strip (field fields "year")
          /\ genre out = strip (field fields "genre")
          /\ comment out = strip (field fields "comment")
          /\ (strip (field fields "track") = "" -> track out = "")
          /\ (forall tn tot,
                _parse_track (strip (field fields "track")) = Ok (tn, tot) ->
                tn <> 0 -> track out = show_track (tn, tot))).
Proof.
  split; [ | split; [ exact mp3_read_back_verbatim | exact write_m4a_read_back ] ].
  intros ok text_spec path fields cover st msg st' Hw tag.
  split; [ apply saved_tag_text | ].
  split.
  { apply write_mp3_saved in Hw as (_ & _ & _ & _ & ->).
    simpl. apply lookup_insert_eq. }
  split; [ by apply read_after_write_mp3 in Hw | ].
  intros Hk. by apply (write_mp3_read_back text_spec _ _ _ _ _ _ _ Hw).
Qed.

Lemma written_tags_read_back_stripped_witness :
  title <$> tags_read_mp3 true
              (tags_write_mp3 true verbatim "a.mp3"
                 {[ "title" := " New "; "year" := "1999" ]} None shelf).2 "a.mp3"
  = Some "New"
  /\ track <$> tags_read_m4a true
                 (tags_write_m4a true "a.m4a" {[ "track" := " 07/12 " ]} None
                    shelf).2 "a.m4a"
     = Some "7/12".
Proof.
  destruct written_tags_read_back_stripped as (H1 & H2 & H3).
  split.
  - destruct (H1 true verbatim "a.mp3"
                {[ "title" := " New "; "year" := "1999" ]} None shelf "OK"
                (tags_write_mp3 true verbatim "a.mp3"
                   {[ "title" := " New "; "year" := "1999" ]} None shelf).2)
      as (_ & _ & _ & Hk); [ vm_compute; reflexivity | ].
    destruct Hk as (out & Hr & Ht & _); [ intros fid _; reflexivity | ].
    rewrite Hr. simpl. rewrite Ht.
    rewrite (H2 verbatim "TIT2"); [ vm_compute; reflexivity | reflexivity ].
  - destruct (H3 true "a.m4a" {[ "track" := " 07/12 " ]} None shelf "OK"
                (tags_write_m4a true "a.m4a" {[ "track" := " 07/12 " ]} None
                   shelf).2)
      as (out & Hr & _ & _ & _ & _ & _ & _ & _ & Hk);
      [ vm_compute; reflexivity | ].
    rewrite Hr. simpl. rewrite (Hk 7 12); [ | vm_compute; reflexivity | lia ].
    vm_compute; reflexivity.
Defined.

(** C3, counterexample.  A title written with surrounding blanks reads
    back without them, and a title of blanks only reads back empty; an M4A
    track written as "abc" over a file whose track was 5/10 is written with
    success and reads back as "5/10"; and with a library that names genre
    numbers at load, an MP3 genre written as "17" reads back as "Rock". *)
Lemma tags_not_read_back_as_written :
  title <$> tags_read_mp3 true
              (tags_write_mp3 true verbatim "a.mp3" {[ "title" := " New " ]}
                 None shelf).2 "a.mp3"
  = Some "New"
  /\ title <$> tags_read_m4a true
                 (tags_write_m4a true "a.m4a" {[ "title" := "  " ]} None
                    shelf).2 "a.m4a"
     = Some ""
  /\ (tags_write_m4a true "a.m4a" {[ "track" := "abc" ]} None shelf).1
     = Ok (true, "OK")
  /\ track <$> tags_read_m4a true
                 (tags_write_m4a true "a.m4a" {[ "track" := "abc" ]} None
                    shelf).2 "a.m4a"
     = Some "5/10"
  /\ genre <$> tags_read_mp3 true
                 (tags_write_mp3 true verbatim "a.mp3" {[ "genre" := "17" ]}
                    None jukebox).2 "a.mp3"
     = Some "Rock".
Proof. repeat split; vm_compute; reflexivity. Qed.


(* ===================================================================== *)
(** ** The encoder run and the two drivers: further properties *)
(* ===================================================================== *)

Lemma run_from_no_callback (clock : nat -> Q) (lines : list string) (st : PState) :
  delivered (run_from clock false st lines) = delivered st.
Proof.
  revert st. induction lines as [|l ls IH]; intros st; simpl; [ reflexivity | ].
  rewrite IH. unfold step.
  destruct (negb (truthy (strip l)) || negb (contains "=" (strip l)));
    [ reflexivity | ].
  destruct (split_once "=" (strip l)) as [[k v]|]; [ | reflexivity ].
  destruct (String.eqb (strip k) "duration_ms");
    destruct (String.eqb (strip k) "out_time_ms");
    destruct (String.eqb (strip k) "progress" && String.eqb (strip v) "end");
    reflexivity.
Qed.

(** The encoder run never raises: it answers success exactly when the
    process could be started and exited with code 0, a failure always
    carries a message - the one for a process that could not be started, or
    the stripped end of the error stream, or a fixed text when that is
    empty - and without a callback nothing is delivered. *)
Theorem encoder_run_outcome :
  forall cmd has_cb w,
    exists good msg,
      (run_ffmpeg_with_progress cmd has_cb w).1 = Ok (good, msg)
      /\ (good = true <->
          exists p, encoder w cmd (files w) = Ok p /\ p_rc p = 0)
      /\ (good = true -> msg = "OK")
      /\ (good = false -> msg <> "")
      /\ (forall e, encoder w cmd (files w) = Raise e ->
            msg = "Kunde inte starta ffmpeg: " ++ e)
      /\ (forall p, encoder w cmd (files w) = Ok p -> p_rc p <> 0 ->
            msg = (if truthy (strip (join (last30 (p_stderr p))))
                   then strip (join (last30 (p_stderr p)))
                   else "ffmpeg misslyckades (ingen stderr)."))
      /\ (has_cb = false ->
          progress (run_ffmpeg_with_progress cmd has_cb w).2 = progress w).
Proof.
  intros cmd has_cb w. unfold run_ffmpeg_with_progress.
  destruct (encoder w cmd (files w)) as [p|e] eqn:He.
  - destruct (p_rc p =? 0) eqn:Hrc.
    + exists true, "OK". simpl. split; [ reflexivity | ].
      split; [ split; [ intros _; exists p; split; [ reflexivity | lia ]
                      | reflexivity ] | ].
      split; [ reflexivity | ].
      split; [ discriminate | ].
      split; [ discriminate | ].
      split; [ intros p' [= <-] Hn; lia | ].
      intros ->. unfold parse_progress. rewrite run_from_no_callback.
      simpl. apply app_nil_r.
    + eexists false, _. simpl. split; [ reflexivity | ].
      split; [ split; [ discriminate | intros (p' & [= <-] & H0); lia ] | ].
      split; [ discriminate | ].
      split; [ intros _; by destruct (strip _) | ].
      split; [ discriminate | ].
      split; [ intros p' [= <-] _; reflexivity | ].
      intros ->. unfold parse_progress. rewrite run_from_no_callback.
      simpl. apply app_nil_r.
  - eexists false, _. simpl. split; [ reflexivity | ].
    split; [ split; [ discriminate | intros (p' & [=] & _) ] | ].
    split; [ discriminate | ].
    split; [ discriminate | ].
    split; [ by intros e' [= <-] | ].
    split; [ discriminate | reflexivity ].
Qed.

(** The only paths whose file the genre rewrite can change are the
    original path and its two siblings, the temporary and the backup path;
    with no usable encoder path it answers failure without any outside
    call; and for a source path that has a name it answers with a result,
    whatever the encoder and the operating system do.  (For a path without
    a name the source's [with_name] raises before anything is run.) *)
Theorem inplace_touches_three_paths_only :
  forall ffmpeg_path src genre_str has_cb w,
    (forall p,
        p <> path_str src -> p <> tmp_path src -> p <> backup_path src ->
        files (ffmpeg_write_genre_inplace ffmpeg_path src genre_str has_cb w).2
          !! p = files w !! p)
    /\ (ffmpeg_path = None \/ ffmpeg_path = Some "" ->
        ffmpeg_write_genre_inplace ffmpeg_path src genre_str has_cb w
        = (Ok (false, "ffmpeg saknas i appen (tools/ffmpeg)."), w))
    /\ (stem src ++ suffix src <> "" ->
        exists good msg,
          (ffmpeg_write_genre_inplace ffmpeg_path src genre_str has_cb w).1
          = Ok (good, msg)).
Proof.
  intros ffmpeg_path src genre_str has_cb w.
  destruct (ffmpeg_write_genre_inplace ffmpeg_path src genre_str has_cb w)
    as [r w'] eqn:Hrun.
  revert Hrun. exec_inplace; intros; simplify_eq.
  all: split; [ intros p Hs Ht Hb; simpl; by simplify_map_eq | ].
  all: split; [ try reflexivity; intros [Hnone | Hnone]; discriminate Hnone
              | intros _; by eexists _, _ ].
Qed.


(** A rewrite that answers success says "OK"; the original path then
    holds what the temporary path held when the encoder exited with code
    0, and neither the temporary nor the backup file is left. *)
Theorem inplace_success_replaces_original :
  forall ffmpeg_path src genre_str has_cb w msg w',
    ffmpeg_write_genre_inplace ffmpeg_path src genre_str has_cb w
    = (Ok (true, msg), w') ->
    msg = "OK"
    /\ is_Some (files w !! path_str src)
    /\ (exists ff f1 cn,
          ffmpeg_path = Some ff
          /\ after_encoder w (genre_cmd ff src genre_str) = Some (0, f1)
          /\ f1 !! tmp_path src = Some cn
          /\ files w' !! path_str src = Some cn)
    /\ files w' !! tmp_path src = None
    /\ files w' !! backup_path src = None.
Proof.
  intros ffmpeg_path src genre_str has_cb w msg w' Hrun.
  path_facts src. revert Hrun. exec_inplace; intros; simplify_eq.
  all: decided; simplify_map_eq.
  all: split; [ reflexivity | ].
  all: split; [ by eexists | ].
  all: split; [ | split; simpl; by simplify_map_eq ].
  all: match goal with
       | H : encoder _ _ _ = Ok _, Hrc : Z.eqb (p_rc _) 0 = true |- _ =>
           eexists _, _, _; split; [ reflexivity | ];
           unfold after_encoder; rewrite H;
           apply Z.eqb_eq in Hrc; rewrite Hrc;
           split; [ reflexivity | ];
           repeat match goal with
                  | Hw : p_written _ = _ |- _ => rewrite Hw; clear Hw
                  end;
           split; simpl; simplify_map_eq; eauto
       end.
Qed.

Lemma inplace_success_replaces_original_witness :
  files (rewrite_on plain_disk).2 !! "/m/a.mp4" = Some "NEW"
  /\ files (rewrite_on plain_disk).2 !! "/m/a.__tmp__.mp4" = None
  /\ files (rewrite_on plain_disk).2 !! "/m/a.__bak__.mp4" = None.
Proof.
  destruct (inplace_success_replaces_original (Some "ffmpeg") song "Rock" true
              plain_disk "OK" (rewrite_on plain_disk).2)
    as (_ & _ & (ff & f1 & cn & Hff & Ha & Hf & Hs) & Ht & Hb).
  - vm_compute; reflexivity.
  - split; [ | split; assumption ].
    injection Hff as <-.
    vm_compute in Ha. injection Ha as <-.
    vm_compute in Hf. injection Hf as <-. exact Hs.
Defined.

(** When the encoder cannot be started or exits with another code than
    0, the rewrite answers failure, renames nothing, leaves the original
    and the backup path as they were, and removes the temporary file
    unless the operating system refuses that. *)
Theorem inplace_encoder_failure_keeps_original :
  forall ff src genre_str has_cb w r w',
    ff <> "" ->
    (forall f1, after_encoder w (genre_cmd ff src genre_str) <> Some (0, f1)) ->
    ffmpeg_write_genre_inplace (Some ff) src genre_str has_cb w = (r, w') ->
    (exists msg, r = Ok (false, msg))
    /\ files w' !! path_str src = files w !! path_str src
    /\ files w' !! backup_path src = files w !! backup_path src
    /\ (forall i e, entries_since w w' !! i = Some e -> is_rename (op e) = false)
    /\ (os_error w (os_calls w) = None -> files w' !! tmp_path src = None).
Proof.
  intros ff src genre_str has_cb w r w' Hff Hfail Hrun.
  assert (Hbad : forall p, encoder w (genre_cmd ff src genre_str) (files w)
                           = Ok p -> p_rc p <> 0).
  { intros p Hp Hz. eapply Hfail. unfold after_encoder.
    rewrite Hp, Hz. reflexivity. }
  clear Hfail.
  path_facts src. revert Hrun. exec_inplace; intros; simplify_eq.
  all: try match goal with
           | Hrc : Z.eqb (p_rc ?p) 0 = true |- _ =>
               apply Z.eqb_eq in Hrc; by destruct (Hbad p eq_refl)
           end.
  all: decided; simplify_map_eq.
  all: repeat match goal with
              | Hn : ~ is_Some _ |- _ => apply eq_None_not_Some in Hn
              end; simplify_eq.
  all: split; [ by eexists | ].
  all: split; [ simpl; by simplify_map_eq | ].
  all: split; [ simpl; by simplify_map_eq | ].
  all: split; [ intros idx ent Hidx
              | simpl; intros; simplify_map_eq; try done; congruence ].
  all: new_entries.
  all: repeat (destruct idx as [|idx]; simpl in *; simplify_eq;
               try discriminate).
  all: try reflexivity.
  all: rewrite lookup_nil in Hidx; discriminate.
Qed.

Lemma inplace_encoder_failure_keeps_original_witness :
  files (rewrite_on crash_disk).2 !! "/m/a.mp4" = Some "OLD"
  /\ files (rewrite_on crash_disk).2 !! "/m/a.__tmp__.mp4" = None.
Proof.
  destruct (inplace_encoder_failure_keeps_original "ffmpeg" song "Rock" true
              crash_disk (rewrite_on crash_disk).1 (rewrite_on crash_disk).2)
    as (_ & Hs & _ & _ & Ht).
  - discriminate.
  - intros f1. vm_compute. discriminate.
  - vm_compute; reflexivity.
  - split; [ etransitivity; [ exact Hs | vm_compute; reflexivity ]
           | apply Ht; reflexivity ].
Defined.


(** Once the temporary file has been renamed onto the original path, the
    original path keeps the new content and the temporary path is empty.
    The run then succeeds, or, when the closing unlink of the backup is
    refused, answers failure although the replacement is complete, the
    original content staying at the backup path. *)
Theorem inplace_failure_after_replacement :
  forall ffmpeg_path src genre_str has_cb w c0 r w',
    files w !! path_str src = Some c0 ->
    ffmpeg_write_genre_inplace ffmpeg_path src genre_str has_cb w = (r, w') ->
    forall i e,
      entries_since w w' !! i = Some e ->
      op e = OpRename (tmp_path src) (path_str src) -> ok e = true ->
      files w' !! path_str src = after e !! path_str src
      /\ is_Some (after e !! path_str src)
      /\ files w' !! tmp_path src = None
      /\ (r = Ok (true, "OK")
          \/ (exists msg, r = Ok (false, msg))
             /\ files w' !! backup_path src = Some c0
             /\ exists u, entries_since w w' !! S i = Some u
                          /\ op u = OpUnlink (backup_path src)
                          /\ ok u = false).
Proof.
  intros ffmpeg_path src genre_str has_cb w c0 r w' Hc Hrun idx ent Hidx.
  path_facts src. revert Hrun Hidx. exec_inplace; intros; simplify_eq.
  all: decided; simplify_map_eq.
  all: new_entries.
  all: try (rewrite lookup_nil in Hidx; discriminate).
  all: repeat (destruct idx as [|idx]; simpl in *; simplify_eq;
               try discriminate).
  all: try (rewrite lookup_nil in Hidx; discriminate).
  all: simpl in *; try discriminate; try (exfalso; congruence).
  all: split; [ by simplify_map_eq | ].
  all: split; [ simplify_map_eq; by eexists | ].
  all: split; [ by simplify_map_eq | ].
  all: first [ left; reflexivity
             | right; split; [ by eexists | ];
               split; [ by simplify_map_eq | ];
               eexists; split; [ reflexivity | ]; split; reflexivity ].
Qed.

Lemma inplace_failure_after_replacement_witness :
  files (rewrite_on (disk false (refuse_call 2))).2 !! "/m/a.mp4" = Some "NEW"
  /\ (exists msg, (rewrite_on (disk false (refuse_call 2))).1 = Ok (false, msg))
  /\ files (rewrite_on (disk false (refuse_call 2))).2 !! "/m/a.__bak__.mp4"
     = Some "OLD".
Proof.
  destruct (inplace_failure_after_replacement (Some "ffmpeg") song "Rock" true
              (disk false (refuse_call 2)) "OLD"
              (rewrite_on (disk false (refuse_call 2))).1
              (rewrite_on (disk false (refuse_call 2))).2)
    with (i := 2%nat)
         (e := {| op := OpRename "/m/a.__tmp__.mp4" "/m/a.mp4"; ok := true;
                  after := {[ "/m/a.mp4" := "NEW";
                              "/m/a.__bak__.mp4" := "OLD" ]} |})
    as (Hs & _ & _ & [Hok | (Hmsg & Hb & _)]).
  - vm_compute; reflexivity.
  - vm_compute; reflexivity.
  - vm_compute; reflexivity.
  - reflexivity.
  - reflexivity.
  - vm_compute in Hok. discriminate Hok.
  - split; [ etransitivity; [ exact Hs | vm_compute; reflexivity ] | ].
    split; assumption.
Defined.

(** An export starts the encoder at most once and makes no other outside
    call: it unlinks and renames nothing, so whatever the encoder left at
    the destination stays there also when the export fails, and no other
    path changes.  A video export takes any destination suffix. *)
Theorem export_only_runs_the_encoder :
  forall ffmpeg_path src dst kind has_cb w,
    (forall i e,
        entries_since w (ffmpeg_export ffmpeg_path src dst kind has_cb w).2 !! i
        = Some e ->
        i = 0%nat
        /\ (exists cmd, op e = OpSpawn cmd /\ List.last cmd "" = path_str dst)
        /\ files (ffmpeg_export ffmpeg_path src dst kind has_cb w).2 = after e)
    /\ (forall p, p <> path_str dst ->
          files (ffmpeg_export ffmpeg_path src dst kind has_cb w).2 !! p
          = files w !! p)
    /\ (forall ff, ffmpeg_path = Some ff -> ff <> "" -> kind = "video" ->
          ffmpeg_export ffmpeg_path src dst kind has_cb
          = run_ffmpeg_with_progress
              [ff; "-y"; "-i"; path_str src;
               "-map"; "0:v:0"; "-map"; "0:a?";
               "-c:v"; "libx264"; "-preset"; "veryfast"; "-crf"; "20";
               "-c:a"; "aac"; "-b:a"; "192k";
               "-progress"; "pipe:1"; "-nostats"; path_str dst] has_cb).
Proof.
  intros ffmpeg_path src dst kind has_cb w.
  split; [ | split ].
  - intros idx ent.
    unfold ffmpeg_export, run_ffmpeg_with_progress, ret.
    repeat (case_match; simpl in *; simplify_eq); intros Hidx; new_entries.
    all: try (rewrite lookup_nil in Hidx; discriminate).
    all: destruct idx as [|idx]; simpl in *; simplify_eq;
         try (rewrite lookup_nil in Hidx; discriminate).
    all: split; [ reflexivity | ]; split; [ by eexists | reflexivity ].
  - intros p Hp.
    unfold ffmpeg_export, run_ffmpeg_with_progress, ret.
    repeat (case_match; simpl in *; simplify_eq); by simplify_map_eq.
  - intros ff -> Hff ->. unfold ffmpeg_export.
    destruct ff; [ by destruct Hff | reflexivity ].
Qed.

(* ===================================================================== *)
(** ** Covers, removal and the atoms a write leaves alone *)
(* ===================================================================== *)


(* ===================================================================== *)
(** ** Tags: further properties *)
(* ===================================================================== *)

Section CoverMp3.
Variable text_spec : string -> string -> list string.

Lemma getall_apic_before_cover fields l :
  getall "APIC"
    (write_comment text_spec fields
       (put_field text_spec fields "TCON" "genre"
       (put_field text_spec fields "TDRC" "year"
       (put_field text_spec fields "TRCK" "track"
       (put_field text_spec fields "TALB" "album"
       (put_field text_spec fields "TPE1" "artist"
       (put_field text_spec fields "TIT2" "title" l)))))))
  = getall "APIC" l.
Proof.
  rewrite getall_write_comment_ne by done.
  by rewrite !getall_put_field_ne by done.
Qed.

Lemma is_action_set_not_remove c :
  is_action c "set" = true -> is_action c "remove" = false.
Proof.
  unfold is_action. destruct (action c) as [a|]; [ | discriminate ].
  intros H. apply String.eqb_eq in H. by subst a.
Qed.

Lemma getall_apic_edit_mp3 fields cover l :
  getall "APIC" (edit_mp3 text_spec fields cover l)
  = match cover with
    | None => getall "APIC" l
    | Some c =>
        if is_action c "remove" then []
        else if is_action c "set" then
          match true_bytes c with
          | Some b => [FApic 3 (mime_or_jpeg c) 3 "Cover" b]
          | None => getall "APIC" l
          end
        else getall "APIC" l
    end.
Proof.
  unfold edit_mp3, write_cover_mp3, add.
  destruct cover as [c|]; [ | apply getall_apic_before_cover ].
  destruct (is_action c "remove"); [ apply getall_delall_eq | ].
  destruct (is_action c "set"); [ | apply getall_apic_before_cover ].
  destruct (true_bytes c); [ | apply getall_apic_before_cover ].
  by rewrite getall_app, getall_delall_eq, getall_single_eq.
Qed.

Lemma saved_tag_cover fields cover st path :
  getall "APIC" (saved_tag text_spec fields cover st path)
  = match cover with
    | None => getall "APIC" (loaded_tag st path)
    | Some c =>
        if is_action c "remove" then []
        else if is_action c "set" then
          match true_bytes c with
          | Some b => [FApic 3 (mime_or_jpeg c) 3 "Cover" b]
          | None => getall "APIC" (loaded_tag st path)
          end
        else getall "APIC" (loaded_tag st path)
    end.
Proof. unfold saved_tag. apply getall_apic_edit_mp3. Qed.

Lemma read_id3_tag_cover (tags : list Frame) :
  (has_cover (read_id3_tag tags), cover_bytes (read_id3_tag tags),
   cover_mime (read_id3_tag tags))
  = match getall "APIC" tags with
    | [] => (false, None, None)
    | FApic _ m _ _ d :: _ => (true, Some d, Some m)
    | _ :: _ => (true, None, None)
    end.
Proof.
  unfold read_id3_tag.
  destruct (match getall "APIC" tags with
            | [] => (false, None, None)
            | FApic _ m _ _ d :: _ => (true, Some d, Some m)
            | _ :: _ => (true, None, None)
            end) as [[hc cb] cm].
  reflexivity.
Qed.

(** The cover that a read finds after a successful write, when the library
    keeps the cover frames of the tag it was handed. *)
Lemma read_cover_after_write ok path fields cover st msg st' :
  tags_write_mp3 ok text_spec path fields cover st = (Ok (true, msg), st') ->
  keeps_cover st (saved_tag text_spec fields cover st path) ->
  exists out,
    tags_read_mp3 ok st' path = Some out
    /\ (has_cover out, cover_bytes out, cover_mime out)
       = match getall "APIC" (saved_tag text_spec fields cover st path) with
         | [] => (false, None, None)
         | FApic _ m _ _ d :: _ => (true, Some d, Some m)
         | _ :: _ => (true, None, None)
         end.
Proof.
  intros Hw Hk. eexists. split; [ by apply read_after_write_mp3 in Hw | ].
  rewrite read_id3_tag_cover. unfold keeps_cover in Hk. by rewrite Hk.
Qed.

End CoverMp3.

(** A successful [tags_write_mp3] with a cover argument hands to the
    library's save a tag in which, for action "remove", there is no APIC
    frame; for action "set" with non-empty bytes, exactly one APIC frame,
    whatever number the loaded tag had, holding these bytes and the given
    mime type, or image/jpeg when none is given; and for action "set" with
    no or empty bytes, or any other action, the APIC frames of the loaded
    tag.  When the library's save and load keep the cover frames of that
    tag, a read of the file finds no cover after "remove", and the bytes
    and the mime type after "set". *)
Theorem mp3_cover_actions :
  forall ok text_spec path fields c st msg st',
    tags_write_mp3 ok text_spec path fields (Some c) st = (Ok (true, msg), st') ->
    let tag := saved_tag text_spec fields (Some c) st path in
    mp3 st' !! path = Some (Some (id3_written st tag))
    /\ (is_action c "remove" = true -> getall "APIC" tag = [])
    /\ (forall b, is_action c "set" = true -> true_bytes c = Some b ->
          getall "APIC" tag = [FApic 3 (mime_or_jpeg c) 3 "Cover" b])
    /\ (is_action c "remove" = false ->
        is_action c "set" = false \/ true_bytes c = None ->
        getall "APIC" tag = getall "APIC" (loaded_tag st path))
    /\ (keeps_cover st tag ->
        exists out,
          tags_read_mp3 ok st' path = Some out
          /\ (is_action c "remove" = true ->
              has_cover out = false /\ cover_bytes out = None)
          /\ (forall b, is_action c "set" = true -> true_bytes c = Some b ->
                has_cover out = true /\ cover_bytes out = Some b
                /\ cover_mime out = Some (mime_or_jpeg c))).
Proof.
  intros ok text_spec path fields c st msg st' Hw tag.
  pose proof (saved_tag_cover text_spec fields (Some c) st path) as Hc.
  fold tag in Hc. cbv iota in Hc.
  split.
  { apply write_mp3_saved in Hw as (_ & _ & _ & _ & ->).
    simpl. apply lookup_insert_eq. }
  split; [ intros Hrem; by rewrite Hrem in Hc | ].
  split.
  { intros b Hset Hb.
    by rewrite (is_action_set_not_remove _ Hset), Hset, Hb in Hc. }
  split.
  { intros Hrem [Hset | Hb]; rewrite Hrem in Hc.
    - by rewrite Hset in Hc.
    - rewrite Hb in Hc. by destruct (is_action c "set"). }
  intros Hk.
  destruct (read_cover_after_write text_spec _ _ _ _ _ _ _ Hw Hk)
    as (out & Ho & Hr).
  fold tag in Hr. exists out. split; [ exact Ho | ]. split.
  - intros Hrem. rewrite Hrem in Hc. rewrite Hc in Hr.
    injection Hr as -> -> _. by split.
  - intros b Hset Hb.
    rewrite (is_action_set_not_remove _ Hset), Hset, Hb in Hc.
    rewrite Hc in Hr. injection Hr as -> -> ->. by repeat split.
Qed.

Lemma mp3_cover_actions_witness :
  getall "APIC"
    (saved_tag verbatim ∅
       (Some {| action := Some "set"; bytes := Some "JPGDATA"; mime := None |})
       shelf "a.mp3")
  = [FApic 3 "image/jpeg" 3 "Cover" "JPGDATA"].
Proof.
  destruct (mp3_cover_actions true verbatim "a.mp3" ∅
              {| action := Some "set"; bytes := Some "JPGDATA"; mime := None |}
              shelf "OK"
              (tags_write_mp3 true verbatim "a.mp3" ∅
                 (Some {| action := Some "set"; bytes := Some "JPGDATA";
                          mime := None |}) shelf).2) as (_ & _ & H & _).
  - vm_compute; reflexivity.
  - apply (H "JPGDATA"); reflexivity.
Defined.


(** *** M4A: covers, other atoms, repeated writes *)

Lemma write_m4a_success ok path fields cover st msg st' :
  tags_write_m4a ok path fields cover st = (Ok (true, msg), st') ->
  ok = true /\ msg = "OK"
  /\ exists loaded t',
       mp4 st !! path = Some loaded
       /\ edit_m4a fields cover (default no_tags loaded) = Ok t'
       /\ mp4_save_error st t' = None
       /\ st' = set_mp4 (<[path := Some t']> (mp4 st)) st.
Proof.
  unfold tags_write_m4a, catch, bind, ret, raise, load_mp4, save_mp4.
  destruct ok; simpl; [ | discriminate ].
  destruct (mp4 st !! path) as [loaded|] eqn:Hl; simpl; [ | discriminate ].
  assert (Hd : match loaded with Some t => t | None => no_tags end
               = default no_tags loaded) by (by destruct loaded).
  rewrite Hd.
  destruct (edit_m4a fields cover _) as [t'|] eqn:He; simpl; [ | discriminate ].
  destruct (mp4_save_error st t') eqn:Hs; simpl; [ discriminate | ].
  intros [= <- <-]. repeat split. by exists loaded, t'.
Qed.

Lemma edit_m4a_covr fields cover t t' :
  edit_m4a fields cover t = Ok t' ->
  covr t'
  = match cover with
    | None => covr t
    | Some c =>
        if is_action c "remove" then None
        else if is_action c "set" then
          match true_bytes c with
          | Some b =>
              Some [{| cover_data := b;
                       imageformat := if String.eqb (mime_or_jpeg c) "image/png"
                                      then FORMAT_PNG else FORMAT_JPEG |}]
          | None => covr t
          end
        else covr t
    end.
Proof.
  unfold edit_m4a. intros H.
  destruct (write_track fields _) as [wt|] eqn:Hw; [ | discriminate ].
  injection H as <-.
  apply write_track_text in Hw as [_ Hw].
  rewrite !put_atom_covr in Hw.
  unfold write_cover_m4a. destruct cover as [c|]; [ | exact Hw ].
  destruct (is_action c "remove").
  - case_bool_decide as Hd; [ reflexivity | ].
    destruct (covr wt); [ exfalso; apply Hd; by eexists | reflexivity ].
  - destruct (is_action c "set"); [ | exact Hw ].
    destruct (true_bytes c); [ | exact Hw ].
    by destruct (String.eqb (mime_or_jpeg c) "image/png").
Qed.

Lemma read_m4a_cover ok st path out :
  tags_read_m4a ok st path = Some out ->
  (has_cover out, cover_bytes out, cover_mime out)
  = match covr_of st path with
    | Some (cov :: _) =>
        (true, Some (cover_data cov),
         Some (match imageformat cov with
               | FORMAT_PNG => "image/png"
               | FORMAT_JPEG => "image/jpeg"
               end))
    | _ => (false, None, None)
    end.
Proof.
  unfold tags_read_m4a, covr_of.
  destruct ok; simpl; [ | discriminate ].
  destruct (mp4 st !! path) as [[t|]|]; try discriminate.
  - destruct (has_atoms t) eqn:Ha.
    + destruct (covr t) as [[|cov l]|]; intros [= <-]; reflexivity.
    + assert (covr t = None) as ->.
      { unfold has_atoms in Ha. apply orb_false_elim in Ha as [_ Ha].
        apply bool_decide_eq_false in Ha.
        destruct (covr t); [ exfalso; apply Ha; by eexists | reflexivity ]. }
      intros [= <-]; reflexivity.
  - intros [= <-]; reflexivity.
Qed.

Lemma write_m4a_covr ok path fields cover st msg st' :
  tags_write_m4a ok path fields cover st = (Ok (true, msg), st') ->
  covr_of st' path
  = match cover with
    | None => covr_of st path
    | Some c =>
        if is_action c "remove" then None
        else if is_action c "set" then
          match true_bytes c with
          | Some b =>
              Some [{| cover_data := b;
                       imageformat := if String.eqb (mime_or_jpeg c) "image/png"
                                      then FORMAT_PNG else FORMAT_JPEG |}]
          | None => covr_of st path
          end
        else covr_of st path
    end.
Proof.
  intros H.
  apply write_m4a_success in H as (_ & _ & loaded & t' & Hl & He & _ & ->).
  unfold covr_of. simpl. rewrite lookup_insert_eq, Hl.
  rewrite (edit_m4a_covr _ _ _ _ He). by destruct loaded.
Qed.

Lemma read_m4a_after_write ok path fields cover st msg st' :
  tags_write_m4a ok path fields cover st = (Ok (true, msg), st') ->
  exists out, tags_read_m4a ok st' path = Some out.
Proof.
  intros H. destruct (write_m4a_read_back _ _ _ _ _ _ _ H) as (out & Ho & _).
  by exists out.
Qed.

(** After a successful [tags_write_m4a] with a cover argument: action
    "remove" leaves no cover atom; action "set" with non-empty bytes
    leaves one cover holding these bytes, read back as image/png when the
    mime type given is image/png and as image/jpeg for every other or no
    mime type; otherwise the cover atom is as it was. *)
Theorem m4a_cover_actions :
  forall ok path fields c st msg st',
    tags_write_m4a ok path fields (Some c) st = (Ok (true, msg), st') ->
    (is_action c "remove" = true ->
       covr_of st' path = None
       /\ exists out, tags_read_m4a ok st' path = Some out
                      /\ has_cover out = false /\ cover_bytes out = None)
    /\ (forall b, is_action c "set" = true -> true_bytes c = Some b ->
          exists out,
            tags_read_m4a ok st' path = Some out
            /\ has_cover out = true /\ cover_bytes out = Some b
            /\ cover_mime out
               = Some (if String.eqb (mime_or_jpeg c) "image/png"
                       then "image/png" else "image/jpeg"))
    /\ (is_action c "remove" = false ->
        is_action c "set" = false \/ true_bytes c = None ->
        covr_of st' path = covr_of st path).
Proof.
  intros ok path fields c st msg st' Hw.
  pose proof (write_m4a_covr _ _ _ _ _ _ _ Hw) as Hc. simpl in Hc.
  destruct (read_m4a_after_write _ _ _ _ _ _ _ Hw) as (out & Ho).
  pose proof (read_m4a_cover _ _ _ _ Ho) as Hr.
  split; [ | split ].
  - intros Hrem. rewrite Hrem in Hc. split; [ exact Hc | ].
    exists out. rewrite Hc in Hr. injection Hr as -> -> _. by repeat split.
  - intros b Hset Hb.
    rewrite (is_action_set_not_remove _ Hset), Hset, Hb in Hc.
    exists out. rewrite Hc in Hr. simpl in Hr. injection Hr as -> -> ->.
    repeat split; try done.
    by destruct (String.eqb (mime_or_jpeg c) "image/png").
  - intros Hrem [Hset | Hb]; rewrite Hrem in Hc.
    + by rewrite Hset in Hc.
    + rewrite Hb in Hc. by destruct (is_action c "set").
Qed.

Lemma m4a_cover_actions_witness :
  exists out,
    tags_read_m4a true
      (tags_write_m4a true "a.m4a" ∅
         (Some {| action := Some "set"; bytes := Some "GIFDATA";
                  mime := Some "image/gif" |}) shelf).2 "a.m4a" = Some out
    /\ has_cover out = true /\ cover_bytes out = Some "GIFDATA"
    /\ cover_mime out = Some "image/jpeg".
Proof.
  destruct (m4a_cover_actions true "a.m4a" ∅
              {| action := Some "set"; bytes := Some "GIFDATA";
                 mime := Some "image/gif" |}
              shelf "OK"
              (tags_write_m4a true "a.m4a" ∅
                 (Some {| action := Some "set"; bytes := Some "GIFDATA";
                          mime := Some "image/gif" |}) shelf).2) as (_ & H & _).
  - vm_compute; reflexivity.
  - destruct (H "GIFDATA") as (out & Ho & H1 & H2 & H3);
      [ reflexivity | reflexivity | ].
    exists out. repeat split; assumption.
Defined.

Lemma mime_of_picked (p : Sys.Path) (b : string) (c : CoverArg) :
  on_cover_pick p b = Some c ->
  action c = Some "set" /\ bytes c = Some b
  /\ mime_or_jpeg c = guess_mime_from_ext p
  /\ (guess_mime_from_ext p = "image/png" \/ guess_mime_from_ext p = "image/jpeg").
Proof.
  unfold on_cover_pick. destruct (negb _); [ discriminate | ].
  intros [= <-]. unfold mime_or_jpeg, guess_mime_from_ext. simpl.
  destruct (String.eqb (lower (suffix p)) ".png"); simpl; auto.
Qed.

(** A cover picked from a non-empty image file and then written to an MP3
    or an M4A file is read back from it with the bytes of the picked file
    and the mime type guessed from its suffix - for MP3, when the library's
    save and load keep the cover frame of the tag it was handed. *)
Theorem picked_cover_reads_back :
  forall p b c,
    on_cover_pick p b = Some c -> b <> "" ->
    (forall ok text_spec path fields st msg st',
        tags_write_mp3 ok text_spec path fields (Some c) st
        = (Ok (true, msg), st') ->
        keeps_cover st (saved_tag text_spec fields (Some c) st path) ->
        exists out, tags_read_mp3 ok st' path = Some out
                    /\ has_cover out = true /\ cover_bytes out = Some b
                    /\ cover_mime out = Some (guess_mime_from_ext p))
    /\ (forall ok path fields st msg st',
          tags_write_m4a ok path fields (Some c) st = (Ok (true, msg), st') ->
          exists out, tags_read_m4a ok st' path = Some out
                      /\ has_cover out = true /\ cover_bytes out = Some b
                      /\ cover_mime out = Some (guess_mime_from_ext p)).
Proof.
  intros p b c Hp Hb.
  destruct (mime_of_picked _ _ _ Hp) as (Ha & Hby & Hm & Hg).
  assert (Hset : is_action c "set" = true) by (unfold is_action; by rewrite Ha).
  assert (Htb : true_bytes c = Some b).
  { unfold true_bytes. rewrite Hby. destruct b; [ by destruct Hb | reflexivity ]. }
  split.
  - intros ok text_spec path fields st msg st' Hw Hk.
    pose proof (saved_tag_cover text_spec fields (Some c) st path) as Hc.
    cbv iota in Hc.
    rewrite (is_action_set_not_remove _ Hset), Hset, Htb in Hc.
    destruct (read_cover_after_write text_spec _ _ _ _ _ _ _ Hw Hk)
      as (out & Ho & Hr).
    exists out. rewrite Hc in Hr. injection Hr as -> -> ->.
    by rewrite Hm.
  - intros ok path fields st msg st' Hw.
    pose proof (write_m4a_covr _ _ _ _ _ _ _ Hw) as Hc. simpl in Hc.
    rewrite (is_action_set_not_remove _ Hset), Hset, Htb in Hc.
    destruct (read_m4a_after_write _ _ _ _ _ _ _ Hw) as (out & Ho).
    pose proof (read_m4a_cover _ _ _ _ Ho) as Hr.
    exists out. rewrite Hc in Hr. simpl in Hr. injection Hr as -> -> ->.
    rewrite Hm. repeat split; try done.
    destruct Hg as [-> | ->]; reflexivity.
Qed.

Lemma picked_cover_reads_back_witness :
  exists out,
    tags_read_m4a true
      (tags_write_m4a true "a.m4a" ∅
         (on_cover_pick {| dir_prefix := "/p/"; stem := "front"; suffix := ".PNG" |}
            "PNGDATA") shelf).2 "a.m4a" = Some out
    /\ cover_bytes out = Some "PNGDATA" /\ cover_mime out = Some "image/png".
Proof.
  destruct (picked_cover_reads_back
              {| dir_prefix := "/p/"; stem := "front"; suffix := ".PNG" |}
              "PNGDATA"
              {| action := Some "set"; bytes := Some "PNGDATA";
                 mime := Some "image/png" |}) as [_ H].
  - reflexivity.
  - discriminate.
  - destruct (H true "a.m4a" ∅ shelf "OK"
                (tags_write_m4a true "a.m4a" ∅
                   (Some {| action := Some "set"; bytes := Some "PNGDATA";
                            mime := Some "image/png" |}) shelf).2)
      as (out & Ho & _ & Hb & Hm); [ vm_compute; reflexivity | ].
    exists out. repeat split; assumption.
Defined.

Lemma edit_m4a_other_atoms fields cover t t' key :
  edit_m4a fields cover t = Ok t' ->
  ~ In key text_keys ->
  text_atoms t' !! key = text_atoms t !! key.
Proof.
  unfold edit_m4a. intros H Hk.
  destruct (write_track fields _) as [wt|] eqn:Hw; [ | discriminate ].
  injection H as <-.
  apply write_track_text in Hw as [Hw _].
  rewrite write_cover_m4a_text, Hw.
  rewrite !put_atom_lookup_ne; [ reflexivity | .. ];
    intros ->; apply Hk; simpl; tauto.
Qed.

(** Whatever its outcome, [tags_write_m4a] leaves every text atom whose
    name is not one of the six it writes as it was, leaves the cover atom
    as it was when no cover argument is given, and touches no other
    file. *)
Theorem write_m4a_touches_only_its_atoms :
  forall ok path fields cover st,
    (forall key, ~ In key text_keys ->
       text_of (tags_write_m4a ok path fields cover st).2 path !! key
       = text_of st path !! key)
    /\ (cover = None ->
        covr_of (tags_write_m4a ok path fields cover st).2 path
        = covr_of st path)
    /\ (forall p, p <> path ->
          mp4 (tags_write_m4a ok path fields cover st).2 !! p = mp4 st !! p)
    /\ mp3 (tags_write_m4a ok path fields cover st).2 = mp3 st.
Proof.
  intros ok path fields cover st.
  unfold tags_write_m4a, catch, bind, ret, raise, load_mp4, save_mp4.
  destruct ok; simpl; [ | by repeat split ].
  destruct (mp4 st !! path) as [loaded|] eqn:Hl; simpl; [ | by repeat split ].
  destruct (edit_m4a fields cover _) as [t'|] eqn:He; simpl;
    [ | by repeat split ].
  destruct (mp4_save_error st t'); simpl; [ by repeat split | ].
  split; [ | split; [ | split ] ].
  - intros key Hk. unfold text_of. simpl. rewrite lookup_insert_eq, Hl.
    rewrite (edit_m4a_other_atoms _ _ _ _ _ He Hk). by destruct loaded.
  - intros ->. unfold covr_of. simpl. rewrite lookup_insert_eq, Hl.
    rewrite (edit_m4a_covr _ _ _ _ He). by destruct loaded.
  - intros p Hp. by rewrite lookup_insert_ne.
  - reflexivity.
Qed.

Lemma write_m4a_touches_only_its_atoms_witness :
  text_of (tags_write_m4a true "a.m4a" {[ "artist" := "Band" ]} None shelf).2
    "a.m4a" !! (copyright ++ "too")
  = text_of shelf "a.m4a" !! (copyright ++ "too").
Proof.
  destruct (write_m4a_touches_only_its_atoms true "a.m4a"
              {[ "artist" := "Band" ]} None shelf) as (H & _).
  apply H. simpl. intuition discriminate.
Defined.

(** Neither writer raises, and a write that answers failure has changed
    no file. *)
Theorem failed_tag_write_changes_nothing :
  forall ok text_spec path fields cover st,
    (exists good msg,
        (tags_write_mp3 ok text_spec path fields cover st).1 = Ok (good, msg)
        /\ (good = false ->
            (tags_write_mp3 ok text_spec path fields cover st).2 = st))
    /\ (exists good msg,
          (tags_write_m4a ok path fields cover st).1 = Ok (good, msg)
          /\ (good = false ->
              (tags_write_m4a ok path fields cover st).2 = st)).
Proof.
  intros ok text_spec path fields cover st. split.
  - unfold tags_write_mp3, catch, bind, ret, load_id3, save_id3.
    destruct ok; simpl; [ | by eexists _, _ ].
    destruct (mp3 st !! path) as [[frames|]|]; simpl; [ | | by eexists _, _ ].
    all: destruct (id3_save_error st _); simpl; [ by eexists _, _ | ].
    all: eexists _, _; split; [ reflexivity | discriminate ].
  - unfold tags_write_m4a, catch, bind, ret, raise, load_mp4, save_mp4.
    destruct ok; simpl; [ | by eexists _, _ ].
    destruct (mp4 st !! path) as [loaded|]; simpl; [ | by eexists _, _ ].
    destruct (edit_m4a fields cover _) as [t'|]; simpl; [ | by eexists _, _ ].
    destruct (mp4_save_error st t'); simpl; [ by eexists _, _ | ].
    eexists _, _. split; [ reflexivity | discriminate ].
Qed.

(** *** Writing the same M4A fields again *)

Lemma put_atom_stored key val t :
  text_atoms t !! key = (if truthy (strip val) then Some [strip val] else None) ->
  put_atom key val t = t.
Proof.
  intros H. unfold put_atom. destruct (truthy (strip val)).
  - unfold set_text_atoms. rewrite (insert_id _ _ _ H). by destruct t.
  - rewrite H. case_bool_decide as Hd; [ by destruct Hd | reflexivity ].
Qed.

Lemma edit_m4a_again fields cover t t' :
  edit_m4a fields cover t = Ok t' -> edit_m4a fields cover t' = Ok t'.
Proof.
  intros He.
  destruct (edit_m4a_text _ _ _ _ He) as (T1 & T2 & T3 & T4 & T5 & T6).
  destruct (edit_m4a_track _ _ _ _ He) as (K1 & K2).
  pose proof (edit_m4a_covr _ _ _ _ He) as Hc.
  unfold edit_m4a.
  rewrite (put_atom_stored k_nam _ t' T1), (put_atom_stored k_ART _ t' T2),
    (put_atom_stored k_alb _ t' T3), (put_atom_stored k_day _ t' T4),
    (put_atom_stored k_gen _ t' T5), (put_atom_stored k_cmt _ t' T6).
  assert (Hw : write_track fields t' = Ok t').
  { unfold write_track.
    destruct (truthy (strip (field fields "track"))) eqn:Ht.
    - destruct (parse_track_never_raises (strip (field fields "track")))
        as [[tn tot] Hp].
      rewrite Hp. destruct (tn =? 0) eqn:E; simpl; [ reflexivity | ].
      assert (tn <> 0) as Hn by lia.
      unfold set_trkn. rewrite <- (K2 tn tot Hp Hn). by destruct t'.
    - assert (strip (field fields "track") = "") as Hs
        by (by destruct (strip (field fields "track"))).
      rewrite (K1 Hs). case_bool_decide as Hd; [ by destruct Hd | reflexivity ]. }
  rewrite Hw. f_equal.
  unfold write_cover_m4a. destruct cover as [c|]; [ | reflexivity ].
  destruct (is_action c "remove").
  - rewrite Hc. case_bool_decide as Hd; [ by destruct Hd | reflexivity ].
  - destruct (is_action c "set"); [ | reflexivity ].
    destruct (true_bytes c); [ | reflexivity ].
    unfold set_covr.
    destruct (String.eqb (mime_or_jpeg c) "image/png");
      rewrite <- Hc; by destruct t'.
Qed.

(** After a successful [tags_write_m4a], the same call on the file it
    left succeeds again and changes nothing. *)
Theorem write_m4a_twice_is_once :
  forall ok path fields cover st msg st',
    tags_write_m4a ok path fields cover st = (Ok (true, msg), st') ->
    tags_write_m4a ok path fields cover st' = (Ok (true, "OK"), st').
Proof.
  intros ok path fields cover st msg st' H.
  apply write_m4a_success in H as (-> & _ & loaded & t' & Hl & He & Hs & ->).
  unfold tags_write_m4a, catch, bind, ret, raise, load_mp4, save_mp4. simpl.
  rewrite lookup_insert_eq. simpl.
  rewrite (edit_m4a_again _ _ _ _ He). simpl. rewrite Hs. simpl.
  unfold set_mp4. simpl. by rewrite insert_insert_eq.
Qed.

Lemma write_m4a_twice_is_once_witness :
  tags_write_m4a true "a.m4a" {[ "title" := " New "; "track" := "3/9" ]} None
    (tags_write_m4a true "a.m4a" {[ "title" := " New "; "track" := "3/9" ]} None
       shelf).2
  = (Ok (true, "OK"),
     (tags_write_m4a true "a.m4a" {[ "title" := " New "; "track" := "3/9" ]} None
        shelf).2).
Proof.
  apply (write_m4a_twice_is_once true "a.m4a"
           {[ "title" := " New "; "track" := "3/9" ]} None shelf "OK").
  vm_compute; reflexivity.
Defined.

(** *** MP3: one frame for each field *)

(** A successful [tags_write_mp3] hands to the library's save a tag in
    which each of the six text frames and the comment frame occurs once when
    its stripped field is not empty, built from the stripped value, and not
    at all when it is empty, however many such frames the loaded tag had.
    (Which of them the library writes to the file is its own matter.) *)
Theorem write_mp3_one_frame_per_field :
  forall ok text_spec path fields cover st msg st',
    tags_write_mp3 ok text_spec path fields cover st = (Ok (true, msg), st') ->
    let tag := saved_tag text_spec fields cover st path in
    mp3 st' !! path = Some (Some (id3_written st tag))
    /\ (forall fid key, In (fid, key) mp3_fields ->
          getall fid tag
          = if truthy (strip (field fields key))
            then [FText fid 3 (text_spec fid (strip (field fields key)))]
            else [])
    /\ getall "COMM" tag
       = if truthy (strip (field fields "comment"))
         then [FComm 3 "eng" ""
                 (text_spec "COMM" (strip (field fields "comment")))]
         else [].
Proof.
  intros ok text_spec path fields cover st msg st' H tag.
  split.
  { apply write_mp3_saved in H as (_ & _ & _ & _ & ->).
    simpl. apply lookup_insert_eq. }
  subst tag. unfold saved_tag. split.
  - intros fid key Hin. unfold edit_mp3. simpl in Hin.
    destruct Hin as [E|[E|[E|[E|[E|[E|[]]]]]]]; injection E as <- <-;
      rewrite getall_write_cover_ne, getall_write_comment_ne by done;
      rewrite ?getall_put_field_ne by done;
      apply getall_put_field_eq.
  - unfold edit_mp3.
    rewrite getall_write_cover_ne by done. apply getall_write_comment_eq.
Qed.

Lemma write_mp3_one_frame_per_field_witness :
  getall "TIT2" (saved_tag verbatim {[ "title" := " New " ]} None shelf "a.mp3")
  = [FText "TIT2" 3 ["New"]].
Proof.
  destruct (write_mp3_one_frame_per_field true verbatim "a.mp3"
              {[ "title" := " New " ]} None shelf "OK"
              (tags_write_mp3 true verbatim "a.mp3" {[ "title" := " New " ]}
                 None shelf).2) as (_ & H & _).
  - vm_compute; reflexivity.
  - rewrite (H "TIT2" "title"); [ vm_compute; reflexivity | simpl; tauto ].
Defined.


(** *** Removing all tags *)

(** [tags_remove_all_mp3] never raises.  When it answers success the file
    has no ID3 header left, so a read gives the empty dictionary and a
    second removal succeeds with the already-empty message, changing
    nothing; no other file is touched.  When it answers failure no file
    has changed.  A file without ID3 header is a success without any call
    to delete. *)
Theorem remove_all_mp3_outcome :
  forall ok del path st,
    (exists good msg,
        (tags_remove_all_mp3 ok del path st).1 = Ok (good, msg)
        /\ (good = false -> (tags_remove_all_mp3 ok del path st).2 = st))
    /\ (forall msg,
          (tags_remove_all_mp3 ok del path st).1 = Ok (true, msg) ->
          tags_read_mp3 ok (tags_remove_all_mp3 ok del path st).2 path = None
          /\ tags_remove_all_mp3 ok del path
               (tags_remove_all_mp3 ok del path st).2
             = (Ok (true, "Ingen ID3 fanns (redan tomt)."),
                (tags_remove_all_mp3 ok del path st).2)
          /\ (forall p, p <> path ->
                mp3 (tags_remove_all_mp3 ok del path st).2 !! p = mp3 st !! p)
          /\ mp4 (tags_remove_all_mp3 ok del path st).2 = mp4 st)
    /\ (ok = true -> mp3 st !! path = Some None ->
        tags_remove_all_mp3 ok del path st
        = (Ok (true, "Ingen ID3 fanns (redan tomt)."), st)).
Proof.
  intros ok del path st.
  unfold tags_remove_all_mp3, tags_read_mp3, catch, bind, ret, load_id3,
    delete_id3.
  destruct ok; simpl.
  2: { split; [ eexists _, _; by split | ]. split; [ discriminate | discriminate ]. }
  destruct (mp3 st !! path) as [[tags|]|] eqn:Hl; simpl.
  - destruct (del path) eqn:Hd; simpl.
    + split; [ eexists _, _; by split | ]. split; discriminate.
    + split; [ eexists _, _; split; [ reflexivity | discriminate ] | ].
      split; [ | discriminate ].
      intros msg _. rewrite lookup_insert_eq. simpl.
      repeat split; try reflexivity.
      intros p Hp. by rewrite lookup_insert_ne.
  - split; [ eexists _, _; split; [ reflexivity | discriminate ] | ].
    split; [ | reflexivity ].
    intros msg _. rewrite Hl. simpl. by repeat split.
  - split; [ eexists _, _; by split | ]. split; discriminate.
Qed.

Lemma remove_all_mp3_outcome_witness :
  tags_read_mp3 true (tags_remove_all_mp3 true (fun _ => None) "a.mp3" shelf).2
    "a.mp3" = None.
Proof.
  destruct (remove_all_mp3_outcome true (fun _ => None) "a.mp3" shelf)
    as (_ & H & _).
  destruct (H "OK") as [Hr _]; [ vm_compute; reflexivity | exact Hr ].
Defined.

Lemma read_m4a_no_atoms ok st path t :
  ok = true -> mp4 st !! path = Some (Some t) -> has_atoms t = false ->
  tags_read_m4a ok st path
  = Some {| title := ""; artist := ""; album := ""; track := ""; year := "";
            genre := ""; comment := ""; has_cover := false;
            cover_bytes := None; cover_mime := None |}.
Proof.
  intros -> Hl Ha. unfold tags_read_m4a, get1. simpl. rewrite Hl, Ha. reflexivity.
Qed.

(** [tags_remove_all_m4a] never raises.  When it answers success on a file
    that can be opened, a read finds every field empty and no cover, and
    a second removal succeeds without saving; no other file is touched.
    When it answers failure no file has changed.  A file that has no
    atoms is a success without any save. *)
Theorem remove_all_m4a_outcome :
  forall ok path st,
    (exists good msg,
        (tags_remove_all_m4a ok path st).1 = Ok (good, msg)
        /\ (good = false -> (tags_remove_all_m4a ok path st).2 = st))
    /\ (forall msg,
          (tags_remove_all_m4a ok path st).1 = Ok (true, msg) ->
          msg = "OK"
          /\ (exists out,
                tags_read_m4a ok (tags_remove_all_m4a ok path st).2 path
                = Some out
                /\ title out = "" /\ artist out = "" /\ album out = ""
                /\ track out = "" /\ year out = "" /\ genre out = ""
                /\ comment out = "" /\ has_cover out = false
                /\ cover_bytes out = None)
          /\ tags_remove_all_m4a ok path (tags_remove_all_m4a ok path st).2
             = (Ok (true, "OK"), (tags_remove_all_m4a ok path st).2)
          /\ (forall p, p <> path ->
                mp4 (tags_remove_all_m4a ok path st).2 !! p = mp4 st !! p)
          /\ mp3 (tags_remove_all_m4a ok path st).2 = mp3 st)
    /\ (forall t, ok = true -> mp4 st !! path = Some (Some t) ->
          has_atoms t = false ->
          tags_remove_all_m4a ok path st = (Ok (true, "OK"), st)).
Proof.
  intros ok path st.
  unfold tags_remove_all_m4a, catch, bind, ret, load_mp4, save_mp4.
  destruct ok; simpl.
  2: { split; [ eexists _, _; by split | ]. split; discriminate. }
  destruct (mp4 st !! path) as [[t|]|] eqn:Hl; simpl.
  - destruct (has_atoms t) eqn:Ha; simpl.
    + destruct (mp4_save_error st no_tags) eqn:Hs; simpl.
      * split; [ eexists _, _; by split | ]. split; [ discriminate | ].
        intros t0 _ [= <-]. congruence.
      * split; [ eexists _, _; split; [ reflexivity | discriminate ] | ].
        split; [ | intros t0 _ [= <-]; congruence ].
        intros msg [= <-]. split; [ reflexivity | ].
        rewrite lookup_insert_eq. simpl.
        split; [ eexists; split;
                 [ apply (read_m4a_no_atoms true _ path no_tags);
                   [ reflexivity | simpl; apply lookup_insert_eq | reflexivity ]
                 | by repeat split ] | ].
        split; [ reflexivity | ].
        split; [ intros p Hp; by rewrite lookup_insert_ne | reflexivity ].
    + split; [ eexists _, _; split; [ reflexivity | discriminate ] | ].
      split; [ | reflexivity ].
      intros msg [= <-]. split; [ reflexivity | ].
      rewrite Hl. simpl. rewrite Ha.
      split; [ eexists; split;
               [ by apply (read_m4a_no_atoms true st path t)
               | by repeat split ] | ].
      by repeat split.
  - split; [ eexists _, _; split; [ reflexivity | discriminate ] | ].
    split; [ | discriminate ].
    intros msg [= <-]. split; [ reflexivity | ].
    rewrite Hl. simpl.
    split; [ eexists; split;
             [ unfold tags_read_m4a; simpl; rewrite Hl; reflexivity
             | by repeat split ] | ].
    by repeat split.
  - split; [ eexists _, _; by split | ]. split; discriminate.
Qed.

Lemma remove_all_m4a_outcome_witness :
  tags_remove_all_m4a true "a.m4a" (tags_remove_all_m4a true "a.m4a" shelf).2
  = (Ok (true, "OK"), (tags_remove_all_m4a true "a.m4a" shelf).2).
Proof.
  destruct (remove_all_m4a_outcome true "a.m4a" shelf) as (_ & H & _).
  destruct (H "OK") as (_ & _ & Hr & _); [ vm_compute; reflexivity | exact Hr ].
Defined.

(* ===================================================================== *)
(** ** Track numbers: what is read can be written back *)
(* ===================================================================== *)

Lemma all_chars_impl (f g : ascii -> bool) (s : string) :
  (forall c, f c = true -> g c = true) ->
  all_chars f s = true -> all_chars g s = true.
Proof.
  intros Hfg. induction s as [|c s IH]; simpl; [ reflexivity | ].
  intros [Hc Hs]%andb_prop. by rewrite (Hfg _ Hc), IH.
Qed.

Lemma all_chars_app (f : ascii -> bool) (a b : string) :
  all_chars f (a ++ b) = all_chars f a && all_chars f b.
Proof.
  induction a as [|c a IH]; simpl; [ reflexivity | ].
  by rewrite IH, andb_assoc.
Qed.

Lemma lstrip_id (s : string) : starts_space s = false -> lstrip s = s.
Proof. destruct s; simpl; [ reflexivity | ]. by intros ->. Qed.

Lemma rstrip_nospace (s : string) :
  all_chars (fun c => negb (is_space c)) s = true -> rstrip s = s.
Proof.
  induction s as [|c s IH]; simpl; [ reflexivity | ].
  intros [Hc Hs]%andb_prop. rewrite (IH Hs).
  apply negb_true_iff in Hc. rewrite Hc. by destruct s.
Qed.

Lemma strip_nospace (s : string) :
  all_chars (fun c => negb (is_space c)) s = true -> strip s = s.
Proof.
  intros H. unfold strip. rewrite lstrip_id; [ by apply rstrip_nospace | ].
  destruct s; simpl in *; [ reflexivity | ].
  apply andb_prop in H as [H _]. by apply negb_true_iff in H.
Qed.

Lemma split_once_app (sep : ascii) (a b : string) :
  all_chars (fun c => negb (Ascii.eqb c sep)) a = true ->
  split_once sep (a ++ String sep b) = Some (a, b).
Proof.
  induction a as [|c a IH]; simpl.
  - by rewrite Ascii.eqb_refl.
  - intros [Hc Ha]%andb_prop. apply negb_true_iff in Hc.
    by rewrite Hc, (IH Ha).
Qed.

Lemma split_once_absent (sep : ascii) (s : string) :
  all_chars (fun c => negb (Ascii.eqb c sep)) s = true ->
  split_once sep s = None.
Proof.
  induction s as [|c s IH]; simpl; [ reflexivity | ].
  intros [Hc Hs]%andb_prop. apply negb_true_iff in Hc.
  by rewrite Hc, (IH Hs).
Qed.

Lemma digit_plain (c : ascii) : is_digit c = true -> plain c = true.
Proof.
  destruct c as [[] [] [] [] [] [] [] []]; vm_compute; congruence.
Qed.

Lemma digit_no_sign (c : ascii) (s : string) :
  is_digit c = true ->
  match String c s with
  | String "-" r => Z.opp <$> py_digits 0 false r
  | String "+" r => py_digits 0 false r
  | r => py_digits 0 false r
  end = py_digits 0 false (String c s).
Proof.
  destruct c as [[] [] [] [] [] [] [] []]; intros H;
    try reflexivity; vm_compute in H; discriminate H.
Qed.

Lemma py_digits_digit (c : ascii) (s : string) (acc : Z) (b : bool) :
  is_digit c = true ->
  py_digits acc b (String c s) = py_digits (10 * acc + digit_val c) true s.
Proof. simpl. by intros ->. Qed.

Lemma py_digits_uint (d : Decimal.uint) :
  forall acc b, d <> Decimal.Nil \/ b = true ->
    py_digits acc b (NilEmpty.string_of_uint d) = Some (uint_val acc d).
Proof.
  induction d; intros acc b Hd;
    cbn [NilEmpty.string_of_uint uint_val];
    try (rewrite py_digits_digit by reflexivity;
         rewrite IHd by (by right); reflexivity).
  destruct Hd as [Hd | ->]; [ by destruct Hd | reflexivity ].
Qed.

Lemma uint_val_pos (d : Decimal.uint) :
  forall p, uint_val (Z.pos p) d = Z.pos (Pos.of_uint_acc d p).
Proof.
  induction d; intros p; cbn [uint_val Pos.of_uint_acc];
    try reflexivity; rewrite <- IHd; f_equal; lia.
Qed.

Lemma uint_val_0 (d : Decimal.uint) :
  uint_val 0 d = Z.of_N (Pos.of_uint d).
Proof.
  induction d; cbn [uint_val Pos.of_uint]; try reflexivity;
    try exact IHd; apply uint_val_pos.
Qed.

Lemma digits_of_uint (d : Decimal.uint) :
  all_chars is_digit (NilEmpty.string_of_uint d) = true.
Proof. induction d; simpl; auto. Qed.

Lemma str_of_pos (p : positive) :
  NilZero.string_of_uint (Pos.to_uint p)
  = NilEmpty.string_of_uint (Pos.to_uint p).
Proof.
  pose proof (DecimalPos.Unsigned.to_uint_nonnil p) as H.
  by destruct (Pos.to_uint p).
Qed.

Lemma uint_of_pos (p : positive) :
  py_digits 0 false (NilEmpty.string_of_uint (Pos.to_uint p)) = Some (Z.pos p).
Proof.
  rewrite py_digits_uint
    by (left; apply DecimalPos.Unsigned.to_uint_nonnil).
  by rewrite uint_val_0, DecimalPos.Unsigned.of_to.
Qed.

Lemma str_of_int_plain (n : Z) : all_chars plain (str_of_int n) = true.
Proof.
  unfold str_of_int, Z.to_int.
  destruct n as [|p|p]; [ reflexivity | | ]; simpl; rewrite str_of_pos.
  - eapply all_chars_impl; [ apply digit_plain | apply digits_of_uint ].
  - simpl. eapply all_chars_impl; [ apply digit_plain | apply digits_of_uint ].
Qed.

Lemma plain_nospace (s : string) :
  all_chars plain s = true -> all_chars (fun c => negb (is_space c)) s = true.
Proof.
  apply all_chars_impl. by intros c [H _]%andb_prop.
Qed.

Lemma plain_noslash (s : string) :
  all_chars plain s = true ->
  all_chars (fun c => negb (Ascii.eqb c "/")) s = true.
Proof.
  apply all_chars_impl. by intros c [_ H]%andb_prop.
Qed.

Lemma str_of_int_truthy (n : Z) : truthy (str_of_int n) = true.
Proof.
  unfold str_of_int, Z.to_int.
  destruct n as [|p|p]; [ reflexivity | | reflexivity ]; simpl.
  rewrite str_of_pos.
  pose proof (DecimalPos.Unsigned.to_uint_nonnil p) as H.
  by destruct (Pos.to_uint p).
Qed.

Lemma py_int_digits (s : string) :
  all_chars is_digit s = true -> py_int s = py_digits 0 false s.
Proof.
  intros Hd. unfold py_int.
  rewrite (strip_nospace s)
    by (apply plain_nospace; eapply all_chars_impl;
        [ apply digit_plain | exact Hd ]).
  destruct s as [|c s]; [ reflexivity | ].
  apply andb_prop in Hd as [Hc _]. exact (digit_no_sign c s Hc).
Qed.

(** [int(str(n))] is [n]. *)
Lemma py_int_str_of_int (n : Z) : py_int (str_of_int n) = Some n.
Proof.
  destruct n as [|p|p]; [ reflexivity | | ].
  - unfold str_of_int, Z.to_int, NilZero.string_of_int.
    rewrite str_of_pos, py_int_digits by apply digits_of_uint.
    apply uint_of_pos.
  - pose proof (strip_nospace _ (plain_nospace _ (str_of_int_plain (Z.neg p))))
      as Hs.
    unfold py_int. rewrite Hs.
    unfold str_of_int, Z.to_int, NilZero.string_of_int.
    rewrite str_of_pos, uint_of_pos. reflexivity.
Qed.

Lemma strip_str_of_int (n : Z) : strip (str_of_int n) = str_of_int n.
Proof. apply strip_nospace, plain_nospace, str_of_int_plain. Qed.

Lemma show_track_strip (p : Z * Z) : strip (show_track p) = show_track p.
Proof.
  destruct p as [tn tot]. unfold show_track.
  destruct (negb (tot =? 0)); [ | apply strip_str_of_int ].
  apply strip_nospace. rewrite !all_chars_app. simpl.
  by rewrite !(plain_nospace _ (str_of_int_plain _)).
Qed.

Lemma show_track_truthy (p : Z * Z) : truthy (show_track p) = true.
Proof.
  destruct p as [tn tot]. unfold show_track.
  pose proof (str_of_int_truthy tn) as H.
  destruct (negb (tot =? 0)); [ | exact H ].
  by destruct (str_of_int tn).
Qed.

Lemma parse_show_track (tn tot : Z) :
  _parse_track (show_track (tn, tot)) = Ok (tn, tot).
Proof.
  pose proof (show_track_strip (tn, tot)) as Hs. unfold show_track in *.
  destruct (tot =? 0) eqn:Ht; simpl in *.
  - apply Z.eqb_eq in Ht as ->.
    apply parse_track_plain; rewrite Hs.
    + unfold contains.
      by rewrite (split_once_absent _ _ (plain_noslash _ (str_of_int_plain tn))).
    + apply py_int_str_of_int.
  - eapply parse_track_pair.
    + rewrite Hs. apply split_once_app, plain_noslash, str_of_int_plain.
    + rewrite strip_str_of_int. apply py_int_str_of_int.
    + rewrite strip_str_of_int. apply py_int_str_of_int.
Qed.

Lemma read_m4a_track ok st path out :
  tags_read_m4a ok st path = Some out ->
  track out = match mp4 st !! path with
              | Some (Some t) =>
                  if has_atoms t
                  then match trkn t with
                       | Some (p :: _) => show_track p
                       | _ => ""
                       end
                  else ""
              | _ => ""
              end.
Proof.
  unfold tags_read_m4a. destruct ok; simpl; [ | discriminate ].
  destruct (mp4 st !! path) as [tags|]; [ | discriminate ].
  set (cov := match (match tags with
                     | Some t => if has_atoms t then Some t else None
                     | None => None
                     end) with
              | Some t => _ | None => _ end).
  destruct cov as [[hc cb] cm]. intros [= <-]. simpl.
  destruct tags as [t|]; [ | reflexivity ].
  by destruct (has_atoms t).
Qed.

Lemma has_atoms_trkn (t : MP4Tags) : is_Some (trkn t) -> has_atoms t = true.
Proof.
  intros H. unfold has_atoms. rewrite (bool_decide_eq_true_2 _ H).
  by rewrite orb_true_r.
Qed.

(** The track text that [tags_read_m4a] shows parses back, with
    [_parse_track], to the pair it was made from; and a track text read from
    a file and written back to it unchanged is read from it again as it was,
    also when the stored track number is 0 and the writer leaves the atom
    alone. *)
Theorem track_text_round_trip :
  (forall tn tot, _parse_track (show_track (tn, tot)) = Ok (tn, tot))
  /\ (forall ok path fields cover st out msg st',
        tags_read_m4a ok st path = Some out ->
        fields !! "track" = Some (track out) ->
        tags_write_m4a ok path fields cover st = (Ok (true, msg), st') ->
        exists out', tags_read_m4a ok st' path = Some out'
                     /\ track out' = track out).
Proof.
  split; [ apply parse_show_track | ].
  intros ok path fields cover st out msg st' Hr Hf Hw.
  assert (Hfield : field fields "track" = track out)
    by (unfold field; by rewrite Hf).
  destruct (write_m4a_read_back _ _ _ _ _ _ _ Hw)
    as (out' & Hr' & _ & _ & _ & _ & _ & _ & Hempty & Hset).
  exists out'. split; [ exact Hr' | ].
  rewrite Hfield in Hempty, Hset.
  pose proof (read_m4a_track _ _ _ _ Hr) as Ht.
  assert (Hnone : track out = "" -> track out' = track out).
  { intros E. rewrite E in Hempty |- *. by apply Hempty. }
  destruct (mp4 st !! path) as [[t|]|] eqn:Hl; [ | by apply Hnone .. ].
  destruct (has_atoms t); [ | by apply Hnone ].
  destruct (trkn t) as [[|[tn tot] l]|] eqn:Hk;
    [ by apply Hnone | | by apply Hnone ].
  clear Hnone.
  rewrite Ht in Hset |- *. rewrite show_track_strip, parse_show_track in Hset.
  destruct (Z.eq_dec tn 0) as [-> | Hn]; [ | by apply Hset ].
  pose proof (tags_write_m4a_zero_track ok path fields cover st tot) as Hz.
  rewrite Hfield, Ht, show_track_strip, show_track_truthy, parse_show_track,
    Hw in Hz.
  specialize (Hz eq_refl eq_refl). simpl in Hz.
  unfold trkn_of in Hz. rewrite Hl, Hk in Hz.
  rewrite (read_m4a_track _ _ _ _ Hr').
  destruct (mp4 st' !! path) as [[t'|]|]; try discriminate Hz.
  rewrite has_atoms_trkn by (rewrite Hz; by eexists).
  by rewrite Hz.
Qed.

Lemma track_text_round_trip_witness :
  exists out', tags_read_m4a true
                 (tags_write_m4a true "a.m4a" {[ "track" := "5/10" ]} None
                    shelf).2 "a.m4a" = Some out'
               /\ track out' = "5/10".
Proof.
  destruct track_text_round_trip as [_ H].
  apply (H true "a.m4a" {[ "track" := "5/10" ]} None shelf
           {| title := "Old title"; artist := ""; album := "";
              track := "5/10"; year := ""; genre := ""; comment := "";
              has_cover := false; cover_bytes := None; cover_mime := None |}
           "OK").
  - vm_compute; reflexivity.
  - vm_compute; reflexivity.
  - vm_compute; reflexivity.
Defined.

(* ===================================================================== *)
(** ** File names made safe *)
(* ===================================================================== *)

Lemma starts_space_lstrip (s : string) : starts_space (lstrip s) = false.
Proof.
  induction s as [|c s IH]; simpl; [ reflexivity | ].
  destruct (is_space c) eqn:Hc; [ exact IH | exact Hc ].
Qed.

Lemma rstrip_head (s : string) (d : ascii) (r : string) :
  rstrip s = String d r -> exists r', s = String d r'.
Proof.
  destruct s as [|c s]; simpl; [ discriminate | ].
  destruct (rstrip s); [ destruct (is_space c) | ]; intros [= <- <-]; eauto.
Qed.

Lemma starts_space_rstrip (s : string) :
  starts_space s = false -> starts_space (rstrip s) = false.
Proof.
  intros H. destruct (rstrip s) as [|d r] eqn:E; [ reflexivity | ].
  apply rstrip_head in E as [r' ->]. exact H.
Qed.

Lemma rstrip_rstrip (s : string) : rstrip (rstrip s) = rstrip s.
Proof.
  induction s as [|c s IH]; simpl; [ reflexivity | ].
  destruct (rstrip s) as [|d r] eqn:E.
  - destruct (is_space c) eqn:Hc; simpl; [ reflexivity | by rewrite Hc ].
  - change (rstrip (String c (String d r))) with
      (match rstrip (String d r) with
       | EmptyString => if is_space c then EmptyString else String c EmptyString
       | String a q => String c (String a q)
       end).
    by rewrite IH.
Qed.

Lemma strip_strip (s : string) : strip (strip s) = strip s.
Proof.
  unfold strip.
  rewrite (lstrip_id (rstrip (lstrip s)))
    by apply starts_space_rstrip, starts_space_lstrip.
  apply rstrip_rstrip.
Qed.

Lemma all_chars_lstrip (f : ascii -> bool) (s : string) :
  all_chars f s = true -> all_chars f (lstrip s) = true.
Proof.
  induction s as [|c s IH]; simpl; [ reflexivity | ].
  intros [Hc Hs]%andb_prop.
  destruct (is_space c); [ by apply IH | simpl; by rewrite Hc, Hs ].
Qed.

Lemma all_chars_rstrip (f : ascii -> bool) (s : string) :
  all_chars f s = true -> all_chars f (rstrip s) = true.
Proof.
  induction s as [|c s IH]; simpl; [ reflexivity | ].
  intros [Hc Hs]%andb_prop. specialize (IH Hs).
  destruct (rstrip s); [ destruct (is_space c) | ]; simpl in *;
    rewrite ?Hc, ?IH; reflexivity.
Qed.

Lemma all_chars_strip (f : ascii -> bool) (s : string) :
  all_chars f s = true -> all_chars f (strip s) = true.
Proof. intros H. by apply all_chars_rstrip, all_chars_lstrip. Qed.

Lemma all_chars_squeeze (f : ascii -> bool) (s : string) :
  f " "%char = true ->
  all_chars f s = true -> forall b, all_chars f (squeeze b s) = true.
Proof.
  intros Hb. induction s as [|c s IH]; simpl; [ reflexivity | ].
  intros [Hc Hs]%andb_prop b.
  destruct (is_space c); [ destruct b | ]; simpl;
    rewrite ?Hb, ?Hc, ?IH; auto.
Qed.

Lemma blank_forbidden_none (s : string) :
  all_chars (fun c => negb (forbidden c)) (blank_forbidden s) = true.
Proof.
  induction s as [|c s IH]; simpl; [ reflexivity | ].
  rewrite IH, andb_true_r.
  destruct (forbidden c) eqn:Hc; [ reflexivity | by rewrite Hc ].
Qed.

Lemma blank_forbidden_id (s : string) :
  all_chars (fun c => negb (forbidden c)) s = true -> blank_forbidden s = s.
Proof.
  induction s as [|c s IH]; simpl; [ reflexivity | ].
  intros [Hc Hs]%andb_prop. apply negb_true_iff in Hc.
  by rewrite Hc, (IH Hs).
Qed.

Lemma single_spaced_squeeze (s : string) :
  forall b, single_spaced (squeeze b s) = true
            /\ (b = true -> starts_space (squeeze b s) = false).
Proof.
  induction s as [|c s IH]; intros b; simpl; [ by split | ].
  destruct (is_space c) eqn:Hc.
  - destruct b; [ apply IH | ].
    destruct (IH true) as [H1 H2]. simpl.
    rewrite H1, (H2 eq_refl). by split.
  - simpl. rewrite Hc. destruct (IH false) as [H1 _].
    rewrite H1. by split.
Qed.

Lemma squeeze_id (s : string) :
  single_spaced s = true ->
  forall b, (b = true -> starts_space s = false) -> squeeze b s = s.
Proof.
  induction s as [|c s IH]; simpl; [ reflexivity | ].
  intros [Hc Hs]%andb_prop b Hb.
  destruct (is_space c) eqn:E.
  - apply andb_prop in Hc as [Hc Hn].
    apply Ascii.eqb_eq in Hc as ->. apply negb_true_iff in Hn.
    destruct b; [ by specialize (Hb eq_refl) | ].
    by rewrite (IH Hs true (fun _ => Hn)).
  - by rewrite (IH Hs false) by discriminate.
Qed.

Lemma single_spaced_lstrip (s : string) :
  single_spaced s = true -> single_spaced (lstrip s) = true.
Proof.
  induction s as [|c s IH]; simpl; [ reflexivity | ].
  intros H. destruct (is_space c) eqn:E.
  - apply andb_prop in H as [_ Hs]. by apply IH.
  - simpl. by rewrite E.
Qed.

Lemma single_spaced_rstrip (s : string) :
  single_spaced s = true -> single_spaced (rstrip s) = true.
Proof.
  induction s as [|c s IH]; simpl; [ reflexivity | ].
  intros [Hc Hs]%andb_prop. specialize (IH Hs).
  destruct (rstrip s) as [|d r] eqn:E.
  - destruct (is_space c) eqn:Ec; simpl; [ reflexivity | by rewrite Ec ].
  - apply rstrip_head in E as Hd. destruct Hd as [r' ->].
    change (single_spaced (String c (String d r))) with
      ((if is_space c then Ascii.eqb c " " && negb (is_space d) else true)
       && single_spaced (String d r)).
    rewrite IH, andb_true_r. exact Hc.
Qed.

Lemma safe_filename_fixed (name : string) :
  all_chars (fun c => negb (forbidden c)) name = true ->
  single_spaced name = true ->
  strip name = name ->
  safe_filename name = name.
Proof.
  intros Hf Hs Hn. unfold safe_filename.
  rewrite Hn, (blank_forbidden_id _ Hf), (squeeze_id _ Hs) by discriminate.
  exact Hn.
Qed.

(** The name [safe_filename] returns holds none of the characters
    / : * ? < > | and no double quote; each white space character in it is
    a single blank, which is neither its first nor its last character; and
    cleaning it once more changes nothing.  A name that has these
    properties already is returned as it is. *)
Theorem safe_filename_tidy :
  forall name,
    all_chars (fun c => negb (forbidden c)) (safe_filename name) = true
    /\ single_spaced (safe_filename name) = true
    /\ strip (safe_filename name) = safe_filename name
    /\ safe_filename (safe_filename name) = safe_filename name
    /\ (all_chars (fun c => negb (forbidden c)) name = true ->
        single_spaced name = true -> strip name = name ->
        safe_filename name = name).
Proof.
  intros name.
  assert (H1 : all_chars (fun c => negb (forbidden c)) (safe_filename name)
               = true).
  { unfold safe_filename.
    apply all_chars_strip, all_chars_squeeze;
      [ reflexivity | apply blank_forbidden_none ]. }
  assert (H2 : single_spaced (safe_filename name) = true).
  { unfold safe_filename, strip.
    apply single_spaced_rstrip, single_spaced_lstrip, single_spaced_squeeze. }
  assert (H3 : strip (safe_filename name) = safe_filename name)
    by apply strip_strip.
  split; [ exact H1 | ]. split; [ exact H2 | ]. split; [ exact H3 | ].
  split; [ by apply safe_filename_fixed | apply safe_filename_fixed ].
Qed.

(* ===================================================================== *)
(** ** Genre strings *)
(* ===================================================================== *)

Lemma re_split_cons (s : string) :
  forall b, exists p ps, re_split b s = p :: ps.
Proof.
  induction s as [|c s IH]; intros b; simpl; [ eauto | ].
  destruct (is_sep c); [ destruct b; eauto | ].
  destruct (IH false) as (p & ps & ->). eauto.
Qed.

Lemma re_split_no_sep (s : string) :
  forall b, Forall (fun p => all_chars (fun c => negb (is_sep c)) p = true)
                   (re_split b s).
Proof.
  induction s as [|c s IH]; intros b; simpl; [ by repeat constructor | ].
  destruct (is_sep c) eqn:Hc.
  - destruct b; [ apply IH | constructor; [ reflexivity | apply IH ] ].
  - specialize (IH false).
    destruct (re_split false s) as [|p ps].
    + repeat constructor. simpl. by rewrite Hc.
    + inversion IH as [|? ? Hp Hps]; subst.
      constructor; [ simpl; by rewrite Hc, Hp | exact Hps ].
Qed.

Lemma re_split_part (g : string) :
  all_chars (fun c => negb (is_sep c)) g = true ->
  forall rest p ps,
    re_split false rest = p :: ps ->
    forall b, g <> "" \/ b = false ->
    re_split b (g ++ rest) = (g ++ p) :: ps.
Proof.
  induction g as [|c g IH]; simpl.
  - intros _ rest p ps Hr b [Hg | ->]; [ by destruct Hg | exact Hr ].
  - intros [Hc Hg]%andb_prop rest p ps Hr b _.
    apply negb_true_iff in Hc. rewrite Hc.
    by rewrite (IH Hg rest p ps Hr false) by (by right).
Qed.

Lemma append_empty (s : string) : s ++ "" = s.
Proof.
  induction s as [|c s IH]; [ reflexivity | ].
  change (String c (s ++ "") = String c s). by rewrite IH.
Qed.

Lemma re_split_joined (l : list string) :
  Forall clean_genre l ->
  forall g, clean_genre g ->
    re_split false (join_with "; " (g :: l)) = g :: List.map (String " ") l.
Proof.
  induction 1 as [|g2 l Hg2 Hl IH]; intros g (Hne & _ & Hsep).
  - simpl. rewrite <- (append_empty g) at 1.
    rewrite (re_split_part g Hsep "" "" [] eq_refl false (or_intror eq_refl)).
    by rewrite append_empty.
  - specialize (IH g2 Hg2).
    change (join_with "; " (g :: g2 :: l))
      with (g ++ String ";" (String " " (join_with "; " (g2 :: l)))).
    set (J := join_with "; " (g2 :: l)) in *.
    assert (Hr : re_split false (String ";" (String " " J))
                 = "" :: String " " g2 :: List.map (String " ") l).
    { change (re_split false (String ";" (String " " J)))
        with ("" :: match re_split false J with
                    | p :: ps => String " " p :: ps
                    | [] => [String " " ""]
                    end).
      by rewrite IH. }
    rewrite (re_split_part g Hsep _ _ _ Hr false (or_intror eq_refl)).
    by rewrite append_empty.
Qed.

Lemma strip_after_blank (s : string) : strip (String " " s) = strip s.
Proof. reflexivity. Qed.

Lemma keep_clean (l : list string) :
  Forall clean_genre l ->
  List.map strip
    (List.filter (fun p => truthy (strip p)) (List.map (String " ") l)) = l.
Proof.
  induction 1 as [|g l (Hne & Hs & _) Hl IH]; simpl; [ reflexivity | ].
  rewrite strip_after_blank, Hs.
  destruct g; [ by destruct Hne | ]. simpl.
  by rewrite strip_after_blank, Hs, IH.
Qed.

Lemma join_with_truthy (g : string) (l : list string) :
  g <> "" -> truthy (join_with "; " (g :: l)) = true.
Proof.
  intros Hg. destruct g; [ by destruct Hg | ]. by destruct l.
Qed.

Lemma parse_joined (l : list string) :
  Forall clean_genre l ->
  _parse_genre_string (Some (join_with "; " l)) = l.
Proof.
  intros Hl. destruct Hl as [|g l Hg Hl]; [ reflexivity | ].
  unfold _parse_genre_string.
  rewrite join_with_truthy by apply Hg. simpl negb. cbv iota.
  rewrite (re_split_joined l Hl g Hg).
  destruct Hg as (Hne & Hs & _). simpl.
  rewrite Hs. destruct g; [ by destruct Hne | ]. simpl.
  by rewrite Hs, keep_clean.
Qed.

(** Every genre that [_parse_genre_string] returns is a clean name: not
    empty, without surrounding white space, and without any of the
    separators ; , / . *)
Theorem parsed_genres_are_clean :
  forall s g, In g (_parse_genre_string s) -> clean_genre g.
Proof.
  intros [s|] g; simpl; [ | tauto ].
  destruct (negb (truthy s)); simpl; [ tauto | ].
  intros (p & <- & Hp)%in_map_iff.
  apply filter_In in Hp as [Hin Ht].
  split; [ by destruct (strip p) | ].
  split; [ apply strip_strip | ].
  apply all_chars_strip.
  pose proof (re_split_no_sep s false) as Hf.
  rewrite Forall_forall in Hf. apply Hf. by apply list_elem_of_In.
Qed.

Lemma parsed_genres_are_clean_witness : clean_genre "Hip Hop".
Proof.
  apply (parsed_genres_are_clean (Some " Rock;; Hip Hop / ,") "Hip Hop").
  vm_compute. right. left. reflexivity.
Defined.

(** The genre string that [_genre_string] makes of a set of clean names is
    parsed by [_parse_genre_string] into these names again, in sorted
    order: none is lost, split or added. *)
Theorem genre_string_round_trip :
  forall genres : gset string,
    (forall g, g ∈ genres -> clean_genre g) ->
    _parse_genre_string (Some (_genre_string genres)) = sorted genres
    /\ list_to_set (_parse_genre_string (Some (_genre_string genres)))
       = genres.
Proof.
  intros genres Hc.
  assert (Hp : sorted genres ≡ₚ elements genres)
    by apply merge_sort_Permutation.
  assert (E : _parse_genre_string (Some (_genre_string genres))
              = sorted genres).
  { apply parse_joined. apply List.Forall_forall. intros g Hg. apply Hc.
    apply elem_of_elements. rewrite <- Hp. by apply list_elem_of_In. }
  split; [ exact E | ].
  rewrite E. apply set_eq. intros g.
  by rewrite elem_of_list_to_set, Hp, elem_of_elements.
Qed.

Lemma genre_string_round_trip_witness :
  _parse_genre_string (Some (_genre_string {[ "Rock"; "Hip Hop" ]}))
  = sorted {[ "Rock"; "Hip Hop" ]}.
Proof.
  apply (genre_string_round_trip {[ "Rock"; "Hip Hop" ]}).
  intros g [->%elem_of_singleton | ->%elem_of_singleton]%elem_of_union;
    (split; [ discriminate | split; vm_compute; reflexivity ]).
Defined.

(* ===================================================================== *)
(** ** A run that is over within the rate limit *)
(* ===================================================================== *)

Section QuickRun.
Variable clock : nat -> Q.
Hypothesis quick : forall i j, (clock i - clock j <= 12 # 100)%Q.

Lemma on_out_time_quick (v : string) (st : PState) :
  (exists j, last_update st = clock j) ->
  (exists j, last_update (on_out_time clock true v st) = clock j)
  /\ delivered (on_out_time clock true v st) = delivered st.
Proof.
  intros [j Hj]. unfold on_out_time.
  assert (E : Qle_bool (clock (reads st) - last_update (tick st)) (12 # 100)
              = true).
  { simpl. rewrite Hj. apply Qle_bool_iff, quick. }
  rewrite E. simpl. split; [ by exists j | reflexivity ].
Qed.

Lemma step_quick (st : PState) (line : string) :
  (exists j, last_update st = clock j) ->
  (exists j, last_update (step clock true st line) = clock j)
  /\ delivered (step clock true st line)
     = (delivered st ++ if is_end_line line then [klar] else [])%list.
Proof.
  intros Hj. unfold step, is_end_line.
  destruct (split_once "=" (strip line)) as [[k v]|] eqn:Hs.
  - destruct (split_once_contains _ _ _ _ Hs) as [Hc Ht].
    rewrite Ht, Hc. simpl.
    set (st1 := if String.eqb (strip k) "duration_ms" then _ else st).
    assert (H1 : (exists j, last_update st1 = clock j)
                 /\ delivered st1 = delivered st).
    { subst st1. by destruct (String.eqb (strip k) "duration_ms"). }
    set (st2 := if String.eqb (strip k) "out_time_ms" then _ else st1).
    assert (H2 : (exists j, last_update st2 = clock j)
                 /\ delivered st2 = delivered st).
    { subst st2. destruct H1 as [H1 H1'].
      destruct (String.eqb (strip k) "out_time_ms"); [ | by split ].
      destruct (on_out_time_quick (strip v) st1 H1) as [Ha Hb].
      split; [ exact Ha | exact (eq_trans Hb H1') ]. }
    destruct H2 as [H2 H2'].
    destruct (String.eqb (strip k) "progress" && String.eqb (strip v) "end");
      simpl; rewrite ?app_nil_r, H2'; by split.
  - rewrite app_nil_r.
    by destruct (negb (truthy (strip line)) || negb (contains "=" (strip line))).
Qed.

Lemma run_from_quick (lines : list string) :
  forall st, (exists j, last_update st = clock j) ->
    delivered (run_from clock true st lines)
    = (delivered st
       ++ repeat klar (length (List.filter is_end_line lines)))%list.
Proof.
  induction lines as [|l ls IH]; intros st Hj; simpl.
  - by rewrite app_nil_r.
  - destruct (step_quick st l Hj) as [Hj' Hd].
    rewrite (IH _ Hj'), Hd.
    destruct (is_end_line l); simpl; [ | by rewrite app_nil_r ].
    by rewrite <- app_assoc.
Qed.

End QuickRun.

(** When all the clock readings of a run lie within 0.12 s of each other,
    the callback never gets a percentage of the running encode: it is
    called once for each [progress=end] line, with 100 and the text for
    done, and for nothing else, whatever the other lines say. *)
Theorem quick_run_reports_only_the_end :
  forall clock lines,
    (forall i j, (clock i - clock j <= 12 # 100)%Q) ->
    delivered (parse_progress clock true lines)
    = repeat klar (length (List.filter is_end_line lines)).
Proof.
  intros clock lines Hq. unfold parse_progress.
  rewrite (run_from_quick clock Hq lines (init clock)); [ reflexivity | ].
  by exists 0%nat.
Qed.

Lemma quick_run_reports_only_the_end_witness :
  delivered (parse_progress still_clock true example_lines) = [klar].
Proof.
  apply (quick_run_reports_only_the_end still_clock example_lines).
  intros i j. vm_compute. discriminate.
Defined.

(* ===================================================================== *)
(** ** The tag workers: what a batch touches and reports *)
(* ===================================================================== *)

Import Batch.

Ltac open_store st :=
  destruct st as [?m3 ?m4 ?e3 ?e4 ?w3 ?l3]; simpl in *.

Ltac solve_frame := repeat split; congruence.

Lemma tags_write_mp3_local ok text_spec fields cover :
  local_op (fun p => tags_write_mp3 ok text_spec p fields cover).
Proof.
  intros p st.
  unfold same_file, same_library, tags_write_mp3, catch, bind, ret, load_id3,
    save_id3.
  split; [ repeat case_match; simplify_eq/=; eauto | ].
  split; [ intros q Hq; repeat case_match; simplify_eq/=;
           by rewrite ?lookup_insert_ne | ].
  split; [ repeat case_match; simplify_eq/=; by repeat split | ].
  intros st1 [Ha Hb] (Hc & Hd & He & Hf).
  open_store st; open_store st1. subst.
  destruct ok; simpl; [ | solve_frame ]. rewrite Ha.
  destruct (m3 !! p) as [[frames|]|] eqn:Hl; simpl; [ | | solve_frame ].
  all: destruct (e3 _); simpl; [ solve_frame | ].
  all: rewrite !lookup_insert_eq; solve_frame.
Qed.

Lemma tags_write_m4a_local ok fields cover :
  local_op (fun p => tags_write_m4a ok p fields cover).
Proof.
  intros p st.
  unfold same_file, same_library, tags_write_m4a, catch, bind, ret, raise,
    load_mp4, save_mp4.
  split; [ repeat case_match; simplify_eq/=; eauto | ].
  split; [ intros q Hq; repeat case_match; simplify_eq/=;
           by rewrite ?lookup_insert_ne | ].
  split; [ repeat case_match; simplify_eq/=; by repeat split | ].
  intros st1 [Ha Hb] (Hc & Hd & He & Hf).
  open_store st; open_store st1. subst.
  destruct ok; simpl; [ | solve_frame ]. rewrite Hb.
  destruct (m4 !! p) as [loaded|] eqn:Hl; simpl; [ | solve_frame ].
  destruct (edit_m4a fields cover _) as [t'|]; simpl; [ | solve_frame ].
  destruct (e4 _); simpl; [ solve_frame | ].
  rewrite !lookup_insert_eq. solve_frame.
Qed.

Lemma tags_remove_all_mp3_local ok del :
  local_op (tags_remove_all_mp3 ok del).
Proof.
  intros p st.
  unfold same_file, same_library, tags_remove_all_mp3, catch, bind, ret,
    load_id3, delete_id3.
  split; [ repeat case_match; simplify_eq/=; eauto | ].
  split; [ intros q Hq; repeat case_match; simplify_eq/=;
           by rewrite ?lookup_insert_ne | ].
  split; [ repeat case_match; simplify_eq/=; by repeat split | ].
  intros st1 [Ha Hb] (Hc & Hd & He & Hf).
  open_store st; open_store st1. subst.
  destruct ok; simpl; [ | solve_frame ]. rewrite Ha.
  destruct (m3 !! p) as [[tags|]|] eqn:Hl; simpl; [ | solve_frame | solve_frame ].
  destruct (del p); simpl; [ solve_frame | ].
  rewrite !lookup_insert_eq. solve_frame.
Qed.

Lemma tags_remove_all_m4a_local ok :
  local_op (tags_remove_all_m4a ok).
Proof.
  intros p st.
  unfold same_file, same_library, tags_remove_all_m4a, catch, bind, ret,
    load_mp4, save_mp4.
  split; [ repeat case_match; simplify_eq/=; eauto | ].
  split; [ intros q Hq; repeat case_match; simplify_eq/=;
           by rewrite ?lookup_insert_ne | ].
  split; [ repeat case_match; simplify_eq/=; by repeat split | ].
  intros st1 [Ha Hb] (Hc & Hd & He & Hf).
  open_store st; open_store st1. subst.
  destruct ok; simpl; [ | solve_frame ]. rewrite Hb.
  destruct (m4 !! p) as [[t|]|] eqn:Hl; simpl; [ | solve_frame | solve_frame ].
  destruct (has_atoms t); simpl; [ | solve_frame ].
  destruct (e4 _); simpl; [ solve_frame | ].
  rewrite !lookup_insert_eq. solve_frame.
Qed.

Lemma targets_skip (items : gmap string FileItem) iid rest :
  match items !! iid with Some it => handled it | None => false end = false ->
  targets items (iid :: rest) = targets items rest.
Proof.
  unfold targets. simpl. destruct (items !! iid); [ | reflexivity ].
  by intros ->.
Qed.

Lemma targets_keep (items : gmap string FileItem) iid it rest :
  items !! iid = Some it -> handled it = true ->
  targets items (iid :: rest)
  = Sys.path_str (path it) :: targets items rest.
Proof. unfold targets. simpl. by intros -> ->. Qed.

Lemma targets_in (items : gmap string FileItem) iid it sel :
  In iid sel -> items !! iid = Some it -> handled it = true ->
  In (Sys.path_str (path it)) (targets items sel).
Proof.
  intros Hin Hit Hh. unfold targets. apply in_flat_map.
  exists iid. split; [ exact Hin | ]. rewrite Hit, Hh. by left.
Qed.

Lemma targets_length (items : gmap string FileItem) (sel : list string) :
  (length (targets items sel) <= length sel)%nat.
Proof.
  induction sel as [|iid rest IH]; [ reflexivity | ].
  unfold targets in *. cbn [flat_map]. rewrite length_app.
  destruct (items !! iid) as [it|]; [ destruct (handled it) | ]; simpl; lia.
Qed.

Section Loop.
Variable item_by_iid : gmap string FileItem.
Variables op_mp3 op_m4a : string -> M Store (bool * string).
Variables ok_text err_text : string.
Variable total : nat.
Hypothesis mp3_local : local_op op_mp3.
Hypothesis m4a_local : local_op op_m4a.

Lemma op_for_local (it : FileItem) (st : Store) :
  (exists good msg, (op_for op_mp3 op_m4a it st).1 = Ok (good, msg))
  /\ (forall q, q <> Sys.path_str (path it) -> same_file q (op_for op_mp3 op_m4a it st).2 st)
  /\ same_library (op_for op_mp3 op_m4a it st).2 st
  /\ (forall st1, same_file (Sys.path_str (path it)) st1 st ->
        same_library st1 st ->
        (op_for op_mp3 op_m4a it st1).1 = (op_for op_mp3 op_m4a it st).1
        /\ same_file (Sys.path_str (path it)) (op_for op_mp3 op_m4a it st1).2
             (op_for op_mp3 op_m4a it st).2).
Proof.
  unfold op_for. destruct (String.eqb _ ".mp3");
    [ apply mp3_local | apply m4a_local ].
Qed.

Lemma tag_loop_outcome (sel : list string) :
  forall done st q,
  exists st' q',
    tag_loop item_by_iid op_mp3 op_m4a ok_text err_text total sel done (st, q)
    = (Ok (done + length (targets item_by_iid sel))%nat, (st', (q ++ q')%list))
    /\ List.filter is_progress q'
       = progress_from (S done) (length (targets item_by_iid sel)) total
    /\ length q' = (2 * length (targets item_by_iid sel))%nat
    /\ same_library st' st
    /\ (forall p, ~ In p (targets item_by_iid sel) -> same_file p st' st)
    /\ (List.NoDup (targets item_by_iid sel) ->
        forall iid it,
          In iid sel -> item_by_iid !! iid = Some it -> handled it = true ->
          same_file (Sys.path_str (path it)) st' (op_for op_mp3 op_m4a it st).2
          /\ exists r, (op_for op_mp3 op_m4a it st).1 = Ok r
                       /\ In (log_line ok_text err_text it r) q').
Proof.
  induction sel as [|iid rest IH]; intros done st q.
  - exists st, []. simpl. rewrite app_nil_r, Nat.add_0_r.
    do 5 (split; [ done | ]). intros _ i it [].
  - cbn [tag_loop].
    destruct (item_by_iid !! iid) as [it|] eqn:Hit.
    2: { rewrite targets_skip by (by rewrite Hit).
         destruct (IH done st q) as (st' & q' & H1 & H2 & H3 & H4 & H5 & H6).
         exists st', q'. do 5 (split; [ assumption | ]).
         intros Hnd i it' [-> | Hin] Hi Hh; [ congruence | ].
         by apply (H6 Hnd i it'). }
    destruct (String.eqb (kind it) "audio") eqn:Hkind.
    2: { rewrite targets_skip
           by (rewrite Hit; unfold handled; by rewrite Hkind).
         destruct (IH done st q) as (st' & q' & H1 & H2 & H3 & H4 & H5 & H6).
         exists st', q'. do 5 (split; [ assumption | ]).
         intros Hnd i it' [-> | Hin] Hi Hh;
           [ rewrite Hit in Hi; injection Hi as <-;
             unfold handled in Hh; by rewrite Hkind in Hh | ].
         by apply (H6 Hnd i it'). }
    cbn [negb].
    set (ext := lower (Sys.suffix (path it))).
    destruct (String.eqb ext ".mp3" || String.eqb ext ".m4a") eqn:Hext.
    2: { rewrite targets_skip
           by (rewrite Hit; unfold handled; fold ext; by rewrite Hkind, Hext).
         destruct (IH done st q) as (st' & q' & H1 & H2 & H3 & H4 & H5 & H6).
         exists st', q'. do 5 (split; [ assumption | ]).
         intros Hnd i it' [-> | Hin] Hi Hh;
           [ rewrite Hit in Hi; injection Hi as <-;
             unfold handled in Hh; fold ext in Hh;
             by rewrite Hkind, Hext in Hh | ].
         by apply (H6 Hnd i it'). }
    cbn [negb].
    assert (Hh0 : handled it = true)
      by (unfold handled; fold ext; by rewrite Hkind, Hext).
    rewrite (targets_keep _ _ _ _ Hit Hh0).
    change (if String.eqb ext ".mp3" then op_mp3 (Sys.path_str (path it))
            else op_m4a (Sys.path_str (path it))) with (op_for op_mp3 op_m4a it).
    destruct (op_for_local it st) as ((good & msg & Hr) & Hfoot & Hlib & _).
    unfold bind at 1. unfold on_store. cbn [fst snd].
    destruct (op_for op_mp3 op_m4a it st) as [r st1] eqn:Hrun. simpl in Hr. subst r.
    cbn [fst snd] in *.
    set (line := log_line ok_text err_text it (good, msg)).
    destruct (IH (S done) st1
                ((q ++ [line]) ++ [OverallProgress (S done) total])%list)
      as (st' & q' & Hl & Hp & Hn & Hlib' & Hf & Hsame).
    exists st', (line :: OverallProgress (S done) total :: q').
    split; [ | split; [ | split; [ | split; [ | split ] ] ] ].
    + unfold bind, put_msg. cbn [fst snd].
      destruct good; cbn [fst snd]; fold line;
        change (Log _) with line; rewrite Hl;
        rewrite <- !app_assoc; cbn [app length];
        by rewrite Nat.add_succ_r.
    + cbn [List.filter]. subst line. unfold log_line. cbn [fst].
      destruct good; cbn [is_progress List.filter]; rewrite Hp; reflexivity.
    + cbn [length]. rewrite Hn. lia.
    + destruct Hlib as (A1 & A2 & A3 & A4), Hlib' as (B1 & B2 & B3 & B4).
      repeat split; congruence.
    + intros p Hp'.
      destruct (Hf p) as [H3 H4]; [ intros ?; apply Hp'; by right | ].
      destruct (Hfoot p) as [H1 H2]; [ intros ->; apply Hp'; by left | ].
      split; congruence.
    + intros Hnd i it' Hin Hi Hh.
      apply List.NoDup_cons_iff in Hnd as [Hnotin Hnd].
      destruct (decide (Sys.path_str (path it') = Sys.path_str (path it)))
        as [Heq | Hne].
      * assert (i = iid) as ->.
        { destruct Hin as [<- | Hin]; [ reflexivity | ].
          exfalso. apply Hnotin. rewrite <- Heq.
          by apply (targets_in _ i it'). }
        rewrite Hit in Hi. injection Hi as <-. rewrite Hrun. cbn [fst snd].
        split; [ by apply Hf | ].
        exists (good, msg). split; [ reflexivity | by left ].
      * assert (Hin' : In i rest).
        { destruct Hin as [<- | Hin]; [ | exact Hin ].
          rewrite Hit in Hi. by injection Hi as <-. }
        destruct (Hsame Hnd i it' Hin' Hi Hh) as (Hs & r & Hr & Hlog).
        destruct (op_for_local it' st) as (_ & _ & _ & Hframe).
        destruct (Hframe st1 (Hfoot _ Hne) Hlib) as [Hres Hst].
        split; [ destruct Hs, Hst; split; congruence | ].
        exists r. split; [ congruence | by right; right ].
Qed.

End Loop.

Lemma worker_outcome (items : gmap string FileItem)
    (op_mp3 op_m4a : string -> M Store (bool * string))
    (ok_text err_text : string) (sel : list string) (st : Store)
    (q : list Msg) :
  local_op op_mp3 -> local_op op_m4a ->
  exists st' q',
    bind (tag_loop items op_mp3 op_m4a ok_text err_text (length sel) sel 0%nat)
         (fun _ => put_msg Done) (st, q)
    = (Ok tt, (st', (q ++ q' ++ [Done])%list))
    /\ List.filter is_progress q'
       = progress_from 1 (length (targets items sel)) (length sel)
    /\ length q' = (2 * length (targets items sel))%nat
    /\ (length (targets items sel) <= length sel)%nat
    /\ (forall p, ~ In p (targets items sel) -> same_file p st' st)
    /\ (List.NoDup (targets items sel) ->
        forall iid it,
          In iid sel -> items !! iid = Some it -> handled it = true ->
          same_file (Sys.path_str (path it)) st' (op_for op_mp3 op_m4a it st).2
          /\ exists r, (op_for op_mp3 op_m4a it st).1 = Ok r
                       /\ In (log_line ok_text err_text it r) q').
Proof.
  intros H3 H4.
  destruct (tag_loop_outcome items op_mp3 op_m4a ok_text err_text (length sel)
              H3 H4 sel 0%nat st q)
    as (st' & q' & Hl & Hp & Hn & _ & Hf & Hs).
  exists st', q'. unfold bind. rewrite Hl. unfold put_msg. cbn [fst snd].
  rewrite <- app_assoc.
  split; [ reflexivity | ]. split; [ exact Hp | ]. split; [ exact Hn | ].
  split; [ apply targets_length | ]. split; [ exact Hf | exact Hs ].
Qed.

(** The worker of [on_tags_write_selected] never raises.  For each
    selected entry that is an audio file with suffix .mp3 or .m4a it puts
    one log line and one progress message on the queue, and the message
    for done after them all.  The progress messages count 1, 2, ... up to
    the number of entries handled, out of the number of entries selected, so
    they reach the total only when no selected entry is skipped.  The tags
    of every file that is not such an entry stay as they were; and when no
    file is handled twice, each handled file is left as a single call of
    [tags_write_mp3] or [tags_write_m4a] on the tags before the batch
    leaves it, and the log has the line for the answer of that call. *)
Theorem write_worker_outcome :
  forall ok text_spec items fields cover sel st q,
    exists st' q',
      write_worker ok text_spec items fields cover sel (st, q)
      = (Ok tt, (st', (q ++ q' ++ [Done])%list))
      /\ List.filter is_progress q'
         = progress_from 1 (length (targets items sel)) (length sel)
      /\ length q' = (2 * length (targets items sel))%nat
      /\ (length (targets items sel) <= length sel)%nat
      /\ (forall p, ~ In p (targets items sel) -> same_file p st' st)
      /\ (List.NoDup (targets items sel) ->
          forall iid it,
            In iid sel -> items !! iid = Some it -> handled it = true ->
            let p := Sys.path_str (path it) in
            let call :=
              if String.eqb (lower (Sys.suffix (path it))) ".mp3"
              then tags_write_mp3 ok text_spec p fields cover
              else tags_write_m4a ok p fields cover in
            same_file p st' (call st).2
            /\ exists r, (call st).1 = Ok r
                         /\ In (log_line "[OK] Taggar skrev: "
                                  "[FEL] Taggar: " it r) q').
Proof.
  intros ok text_spec items fields cover sel st q.
  apply (worker_outcome items
           (fun p => tags_write_mp3 ok text_spec p fields cover)
           (fun p => tags_write_m4a ok p fields cover));
    [ apply tags_write_mp3_local | apply tags_write_m4a_local ].
Qed.

(** The worker of [on_tags_delete_selected] never raises and reports in
    the same way.  It changes the tags of no file that is not a selected
    audio file with suffix .mp3 or .m4a; and when no file is handled twice,
    each handled file is left as a single call of [tags_remove_all_mp3] or
    [tags_remove_all_m4a] on the tags before the batch leaves it, with the
    log line for the answer of that call. *)
Theorem delete_worker_outcome :
  forall ok del items sel st q,
    exists st' q',
      delete_worker ok del items sel (st, q)
      = (Ok tt, (st', (q ++ q' ++ [Done])%list))
      /\ List.filter is_progress q'
         = progress_from 1 (length (targets items sel)) (length sel)
      /\ length q' = (2 * length (targets items sel))%nat
      /\ (length (targets items sel) <= length sel)%nat
      /\ (forall p, ~ In p (targets items sel) -> same_file p st' st)
      /\ (List.NoDup (targets items sel) ->
          forall iid it,
            In iid sel -> items !! iid = Some it -> handled it = true ->
            let p := Sys.path_str (path it) in
            let call :=
              if String.eqb (lower (Sys.suffix (path it))) ".mp3"
              then tags_remove_all_mp3 ok del p
              else tags_remove_all_m4a ok p in
            same_file p st' (call st).2
            /\ exists r, (call st).1 = Ok r
                         /\ In (log_line "[OK] Taggar raderade: "
                                  "[FEL] Radera taggar: " it r) q').
Proof.
  intros ok del items sel st q.
  apply (worker_outcome items (tags_remove_all_mp3 ok del)
           (tags_remove_all_m4a ok));
    [ apply tags_remove_all_mp3_local | apply tags_remove_all_m4a_local ].
Qed.

